(** * sofa-mosn: HTTP/1 stream binding, connection pool, metrics handoff

    A shallow embedding of the parts of the proxy that the specification
    talks about:

    - [HttpDetect]   : [streamConnFactory.ProtocolMatch]
    - [HttpStream]   : the channel-coupled pipe ([Read], [OnEvent]), the
                       client parser loop, the server-side [endStream] and
                       the stream event-listener list
    - [ConnPool]     : [connPool] of pkg/stream/http/connpool.go
    - [Transfer]     : [makesTransferData] / [readTransferData]
    - [KeepAlive]    : the keep-alive controller of the binary RPC codec

    Go pointers are modelled as identifiers into explicit stores, calls on
    collaborators whose code is elsewhere are recorded in an effect trace. *)

From Stdlib Require Import ZArith Lia Bool.
From Stdlib Require Import Strings.Byte.
From stdpp Require Import gmap strings list fin_maps.

Open Scope Z_scope.

(* ===================================================================== *)
(** ** Protocol detection *)
(* ===================================================================== *)

Module HttpDetect.

(** The [error] returned by [ProtocolMatch]: [nil] (match), [str.EAGAIN]
    (need more bytes) or [str.FAILED]. *)
Inductive MatchResult := MatchOk | EAGAIN | FAILED.

#[global] Instance MatchResult_eq_dec : EqDecision MatchResult.
Proof. solve_decision. Defined.

Definition minMethodLengh : nat := String.length "GET".
Definition maxMethodLengh : nat := String.length "CONNECT".

(** [map[string]struct{}] used as a set. *)
Definition httpMethod : gset string :=
  list_to_set
    ["OPTIONS"; "GET"; "HEAD"; "POST"; "PUT"; "DELETE"; "TRACE"; "CONNECT"]%string.

(** [string(magic[0:i])] *)
Definition slice_str (magic : list byte) (i : nat) : string :=
  String.string_of_list_byte (take i magic).

(** The loop [for i := minMethodLengh; i <= size; i++], started at [i] with
    [steps] iterations left; [true] when the body returned [nil]. *)
Fixpoint scan (magic : list byte) (i steps : nat) : bool :=
  match steps with
  | O => false
  | S k =>
      if decide (slice_str magic i ∈ httpMethod) then true
      else scan magic (S i) k
  end.

Definition ProtocolMatch (magic : list byte) : MatchResult :=
  if (length magic <? minMethodLengh)%nat then EAGAIN
  else
    let size :=
      if (maxMethodLengh <? length magic)%nat then maxMethodLengh
      else length magic in
    if scan magic minMethodLengh (S size - minMethodLengh) then MatchOk
    else if (size <? maxMethodLengh)%nat then EAGAIN
    else FAILED.

(** The bytes of a Go string literal. *)
Definition bytes (s : string) : list byte := String.list_byte_of_string s.

Lemma scan_true magic i n :
  scan magic i n = true ↔
  ∃ j, (i ≤ j < i + n)%nat ∧ slice_str magic j ∈ httpMethod.
Proof.
  revert i. induction n as [|n IH]; intros i; simpl.
  - split; [discriminate | intros (j & ? & _); lia].
  - destruct (decide (slice_str magic i ∈ httpMethod)) as [Hin|Hout].
    + split; [intros _; exists i; split; [lia | done] | done].
    + rewrite IH. split.
      * intros (j & ? & ?). exists j. split; [lia | done].
      * intros (j & Hj & Hm). exists j. split; [|done].
        destruct (decide (j = i)) as [->|]; [done | lia].
Qed.

Lemma httpMethod_cases m :
  m ∈ httpMethod ↔
  m ∈ ["OPTIONS"; "GET"; "HEAD"; "POST"; "PUT"; "DELETE"; "TRACE"; "CONNECT"]%string.
Proof. unfold httpMethod. by rewrite elem_of_list_to_set. Qed.

Lemma httpMethod_length m :
  m ∈ httpMethod →
  (minMethodLengh ≤ String.length m ≤ maxMethodLengh)%nat.
Proof.
  rewrite httpMethod_cases. rewrite !elem_of_cons, elem_of_nil.
  unfold minMethodLengh, maxMethodLengh.
  intros [->|[->|[->|[->|[->|[->|[->|[->|[]]]]]]]]]; simpl; lia.
Qed.

Lemma length_bytes s : length (bytes s) = String.length s.
Proof.
  unfold bytes, String.list_byte_of_string.
  rewrite length_map. induction s as [|a s IH]; simpl; [done | by rewrite IH].
Qed.

Lemma slice_str_prefix m magic :
  bytes m `prefix_of` magic → slice_str magic (String.length m) = m.
Proof.
  intros [rest ->]. unfold slice_str.
  rewrite <- length_bytes, take_app_length.
  apply String.string_of_list_byte_of_string.
Qed.

Lemma slice_str_is_prefix magic i :
  (i ≤ length magic)%nat → bytes (slice_str magic i) `prefix_of` magic.
Proof.
  intros _. unfold slice_str, bytes.
  rewrite String.list_byte_of_string_of_list_byte.
  exists (drop i magic). by rewrite take_drop.
Qed.

Lemma ProtocolMatch_short magic :
  (length magic < minMethodLengh)%nat → ProtocolMatch magic = EAGAIN.
Proof.
  intros H. unfold ProtocolMatch.
  destruct (Nat.ltb_spec (length magic) minMethodLengh); [done | lia].
Qed.

Lemma ProtocolMatch_method m magic :
  m ∈ httpMethod → bytes m `prefix_of` magic → ProtocolMatch magic = MatchOk.
Proof.
  intros Hm Hpre. pose proof (httpMethod_length m Hm) as Hlen.
  pose proof (prefix_length _ _ Hpre) as Hle. rewrite length_bytes in Hle.
  unfold ProtocolMatch.
  destruct (Nat.ltb_spec (length magic) minMethodLengh); [lia|].
  set (size := if (maxMethodLengh <? length magic)%nat then _ else _).
  assert (String.length m ≤ size)%nat as Hsz.
  { unfold size. destruct (Nat.ltb_spec maxMethodLengh (length magic)); lia. }
  assert (scan magic minMethodLengh (S size - minMethodLengh) = true) as ->; [|done].
  apply scan_true. exists (String.length m). split; [lia|].
  by rewrite (slice_str_prefix m magic Hpre).
Qed.

Lemma ProtocolMatch_failed magic :
  ProtocolMatch magic = FAILED →
  (maxMethodLengh ≤ length magic)%nat ∧
  ∀ m, m ∈ httpMethod → ¬ bytes m `prefix_of` magic.
Proof.
  intros Hf. split.
  - revert Hf. unfold ProtocolMatch.
    destruct (Nat.ltb_spec (length magic) minMethodLengh); [done|].
    destruct (scan _ _ _); [done|].
    destruct (Nat.ltb_spec maxMethodLengh (length magic)) as [?|?].
    + intros _. lia.
    + destruct (Nat.ltb_spec (length magic) maxMethodLengh); [done | intros _; lia].
  - intros m Hm Hpre. rewrite (ProtocolMatch_method m magic Hm Hpre) in Hf.
    discriminate.
Qed.

(** C2. [ProtocolMatch] answers need-more on every input shorter than three
    bytes, match on every input that starts with one of the eight method
    names, and fail only when seven bytes or more are present and no method
    name is a prefix of the input; "GE" gives need-more, "GET " gives match
    and the seven bytes "XYZZY!!" give fail. *)
Theorem ProtocolMatch_spec :
  (∀ magic, (length magic < 3)%nat → ProtocolMatch magic = EAGAIN) ∧
  (∀ magic m,
     m ∈ ["OPTIONS"; "GET"; "HEAD"; "POST"; "PUT"; "DELETE"; "TRACE"; "CONNECT"]%string →
     bytes m `prefix_of` magic → ProtocolMatch magic = MatchOk) ∧
  (∀ magic, ProtocolMatch magic = FAILED →
     (7 ≤ length magic)%nat ∧
     ∀ m, m ∈ ["OPTIONS"; "GET"; "HEAD"; "POST"; "PUT"; "DELETE"; "TRACE"; "CONNECT"]%string →
          ¬ bytes m `prefix_of` magic) ∧
  ProtocolMatch (bytes "GE") = EAGAIN ∧
  ProtocolMatch (bytes "GET ") = MatchOk ∧
  ProtocolMatch (bytes "XYZZY!!") = FAILED.
Proof.
  split; [|split; [|split; [|split; [|split]]]].
  - intros magic H. by apply ProtocolMatch_short.
  - intros magic m Hm. apply ProtocolMatch_method. by apply httpMethod_cases.
  - intros magic Hf. destruct (ProtocolMatch_failed magic Hf) as [Hlen Hno].
    split; [exact Hlen|]. intros m Hm. apply Hno. by apply httpMethod_cases.
  - apply ProtocolMatch_short. simpl. unfold minMethodLengh. simpl. lia.
  - apply (ProtocolMatch_method "GET"); [by vm_compute | by exists (bytes " ")].
  - vm_compute. reflexivity.
Qed.

(** The three parts of [ProtocolMatch_spec] that carry a premise, each used
    at a concrete input. *)
Lemma ProtocolMatch_spec_witness :
  ProtocolMatch (bytes "G") = EAGAIN ∧
  ProtocolMatch (bytes "DELETE /a") = MatchOk ∧
  (7 ≤ length (bytes "XYZZY!!"))%nat.
Proof.
  destruct ProtocolMatch_spec as (Hshort & Hmeth & Hfail & _ & _ & Hx).
  split; [|split].
  - apply Hshort. simpl. lia.
  - apply (Hmeth _ "DELETE"%string).
    + rewrite !elem_of_cons. do 5 right. by left.
    + by exists (bytes " /a").
  - exact (proj1 (Hfail _ Hx)).
Defined.

End HttpDetect.

(* ===================================================================== *)
(** ** Shared enumerations of package [types] *)
(* ===================================================================== *)

Module Types.

(** [types.ConnectionEvent]. The four constants below are the ones the
    sources name; every other event of the transport is an [OtherEvent]. *)
Inductive ConnectionEvent :=
  | LocalClose
  | RemoteClose
  | ConnectTimeout
  | ConnectFailed
  | OtherEvent (name : string).

#[global] Instance ConnectionEvent_eq_dec : EqDecision ConnectionEvent.
Proof. solve_decision. Defined.

(** The methods [IsClose] and [ConnectFailure] of [ConnectionEvent] are
    declared in package [types], outside the files at hand; they are taken
    as an interface. *)
Class EventKinds := {
  IsClose : ConnectionEvent → bool;
  ConnectFailure : ConnectionEvent → bool
}.

(** The usual reading of the two methods: local and remote close are
    close events, a failed or timed-out connect is a connect failure. *)
Definition plainEvents : EventKinds := {|
  IsClose e := bool_decide (e = LocalClose ∨ e = RemoteClose);
  ConnectFailure e := bool_decide (e = ConnectFailed ∨ e = ConnectTimeout)
|}.

(** [types.StreamResetReason], the constants the sources use. *)
Inductive StreamResetReason :=
  | StreamConnectionTermination
  | StreamConnectionFailed
  | StreamLocalReset
  | StreamRemoteReset.

#[global] Instance StreamResetReason_eq_dec : EqDecision StreamResetReason.
Proof. solve_decision. Defined.

(** [types.PoolFailureReason]; [NoFailure] is the empty string returned next
    to a client. *)
Inductive PoolFailureReason := NoFailure | Overflow | ConnectionFailure.

#[global] Instance PoolFailureReason_eq_dec : EqDecision PoolFailureReason.
Proof. solve_decision. Defined.

(** [types.ConnectionCloseType] *)
Inductive ConnectionCloseType := FlushWrite | NoFlush.

(** How a call ends: it returns, it blocks on a channel forever, or the
    goroutine panics. *)
Inductive outcome (A : Type) :=
  | Done (a : A)
  | Blocked
  | Panicked.
Arguments Done {A} a.
Arguments Blocked {A}.
Arguments Panicked {A}.

End Types.

(* ===================================================================== *)
(** ** The HTTP/1 stream connection *)
(* ===================================================================== *)

Module HttpStream.
Import Types.

(** *** The channel-coupled pipe *)

(** Modelled from the spec: [types.IoBuffer] (package [buffer] is not among
    the files) is a byte buffer with drain semantics: [Bytes] is the unread
    content, [Len] its length, [Drain n] discards the first [n] bytes. *)
Definition IoBuffer := list byte.
Definition Bytes (b : IoBuffer) : list byte := b.
Definition Len (b : IoBuffer) : nat := length b.
Definition Drain (n : nat) (b : IoBuffer) : IoBuffer := drop n b.

(** A buffer is shared by the dispatcher and the reader: both hold a
    reference into the store of buffers. *)
Definition bufRef := positive.

(** The builtin [copy(dst, src)]: the number of bytes copied and the new
    content of [dst]. *)
Definition copy (dst src : list byte) : nat * list byte :=
  let n := Nat.min (length dst) (length src) in
  (n, take n src ++ drop n dst).

(** An unbuffered [chan types.IoBuffer]: closed, or open with the value a
    sender is blocked on, if any; [None] as that value is the [nil]
    sentinel. *)
Inductive chan :=
  | Open (offer : option (option bufRef))
  | Closed.

(** [make(chan types.IoBuffer)] *)
Definition make_chan : chan := Open None.

(** [v, ok := <-ch] *)
Inductive recv_result :=
  | RecvValue (v : option bufRef) (ch' : chan)
  | RecvClosed
  | RecvBlocks.

Definition chan_recv (ch : chan) : recv_result :=
  match ch with
  | Open (Some v) => RecvValue v (Open None)
  | Open None => RecvBlocks
  | Closed => RecvClosed
  end.

(** [ch <- v]: the value waits for the receiver; sending on a closed channel
    panics, and a sender that finds another value still waiting blocks. *)
Definition chan_send (v : option bufRef) (ch : chan) : outcome chan :=
  match ch with
  | Open None => Done (Open (Some v))
  | Open (Some _) => Blocked
  | Closed => Panicked
  end.

(** [close(ch)]: closing twice panics; a sender still waiting is woken up
    with a panic of its own and its value is gone. *)
Definition chan_close (ch : chan) : outcome chan :=
  match ch with
  | Open _ => Done Closed
  | Closed => Panicked
  end.

Record streamConnection := {
  bufChan : chan;
  bufs : gmap bufRef IoBuffer
}.

Inductive error := errConnClose.

(** One turn of the loop of [Dispatch], first half: with bytes left in the
    buffer, hand the buffer to the channel. *)
Definition Dispatch_send (buffer : bufRef) (conn : streamConnection)
  : outcome streamConnection :=
  match bufs conn !! buffer with
  | None => Panicked
  | Some b =>
      if (0 <? Len b)%nat then
        match chan_send (Some buffer) (bufChan conn) with
        | Done ch => Done {| bufChan := ch; bufs := bufs conn |}
        | Blocked => Blocked
        | Panicked => Panicked
        end
      else Done conn
  end.

(** Second half, [<-conn.bufChan]: wait for what the reader sends back. *)
Definition Dispatch_wait (conn : streamConnection) : outcome streamConnection :=
  match chan_recv (bufChan conn) with
  | RecvValue _ ch => Done {| bufChan := ch; bufs := bufs conn |}
  | RecvClosed => Done conn
  | RecvBlocks => Blocked
  end.

(** [Read(p)]: the result is [(n, err)], the new content of [p] and the
    connection. *)
Definition Read (p : list byte) (conn : streamConnection)
  : outcome (nat * option error * list byte * streamConnection) :=
  match chan_recv (bufChan conn) with
  | RecvBlocks => Blocked
  | RecvClosed => Done (O, Some errConnClose, p, conn)
  | RecvValue None _ => Panicked
  | RecvValue (Some r) ch =>
      match bufs conn !! r with
      | None => Panicked
      | Some data =>
          let '(n, p') := copy p (Bytes data) in
          let bufs' := <[r := Drain n data]> (bufs conn) in
          match chan_send None ch with
          | Done ch' => Done (n, None, p', {| bufChan := ch'; bufs := bufs' |})
          | Blocked => Blocked
          | Panicked => Panicked
          end
      end
  end.

(** [OnEvent] of the stream connection. *)
Definition OnEvent `{EventKinds} (event : ConnectionEvent)
    (conn : streamConnection) : outcome streamConnection :=
  if IsClose event || ConnectFailure event then
    match chan_close (bufChan conn) with
    | Done ch => Done {| bufChan := ch; bufs := bufs conn |}
    | Blocked => Blocked
    | Panicked => Panicked
    end
  else Done conn.

Section pipe.
Context `{EventKinds}.

Lemma Read_closed p conn :
  bufChan conn = Closed → Read p conn = Done (O, Some errConnClose, p, conn).
Proof. intros Hc. unfold Read. by rewrite Hc. Qed.

Lemma OnEvent_closes event conn :
  IsClose event || ConnectFailure event = true →
  bufChan conn ≠ Closed →
  OnEvent event conn = Done {| bufChan := Closed; bufs := bufs conn |}.
Proof.
  intros He Hc. unfold OnEvent. rewrite He.
  by destruct (bufChan conn).
Qed.

Lemma Read_buffer p conn r data :
  bufChan conn = Open (Some (Some r)) →
  bufs conn !! r = Some data →
  Read p conn =
    Done (Nat.min (length p) (Len data), None,
          take (Nat.min (length p) (Len data)) (Bytes data) ++
            drop (Nat.min (length p) (Len data)) p,
          {| bufChan := Open (Some None);
             bufs := <[r := Drain (Nat.min (length p) (Len data)) data]> (bufs conn) |}).
Proof. intros Ho Hd. unfold Read. rewrite Ho. simpl. by rewrite Hd. Qed.

(** C5. On a closed buffer channel [Read] returns 0 and the
    connection-closed error, and [OnEvent] closes the channel on every close
    or connect-failure event; when a buffer [b] arrives on the channel,
    [Read] copies [n = min (len p) (b.Len())] bytes into [p], drains exactly
    [n] bytes from [b], leaves the [nil] sentinel on the channel and returns
    [n] with no error. *)
Theorem Read_spec (p : list byte) (conn : streamConnection) :
  (bufChan conn = Closed →
     Read p conn = Done (O, Some errConnClose, p, conn)) ∧
  (∀ event, IsClose event || ConnectFailure event = true →
     bufChan conn ≠ Closed →
     ∃ conn', OnEvent event conn = Done conn' ∧ bufChan conn' = Closed ∧
              Read p conn' = Done (O, Some errConnClose, p, conn')) ∧
  (∀ r b, bufChan conn = Open (Some (Some r)) →
          bufs conn !! r = Some b →
     ∃ conn', let n := Nat.min (length p) (Len b) in
       Read p conn = Done (n, None, take n (Bytes b) ++ drop n p, conn') ∧
       bufs conn' !! r = Some (drop n b) ∧
       length (drop n b) = (Len b - n)%nat ∧
       (∀ r', r' ≠ r → bufs conn' !! r' = bufs conn !! r') ∧
       bufChan conn' = Open (Some None)).
Proof.
  split; [apply Read_closed|]. split.
  - intros event He Hc. eexists. split; [by apply OnEvent_closes|].
    split; [done|]. by apply Read_closed.
  - intros r b Ho Hb. eexists. intros n.
    rewrite (Read_buffer p conn r b Ho Hb). fold n.
    split; [reflexivity|]. simpl. unfold Drain.
    split; [by rewrite lookup_insert_eq|].
    split; [by rewrite length_drop|].
    split; [|done]. intros r' Hne. by rewrite lookup_insert_ne.
Qed.

End pipe.

(** A fresh connection on which the transport dispatches a five-byte
    buffer. *)
Definition conn_idle : streamConnection :=
  {| bufChan := make_chan; bufs := {[ 1%positive := HttpDetect.bytes "hello" ]} |}.

Definition conn_hello : streamConnection :=
  {| bufChan := Open (Some (Some 1%positive)); bufs := bufs conn_idle |}.

Example Dispatch_send_hello : Dispatch_send 1%positive conn_idle = Done conn_hello.
Proof. reflexivity. Qed.

(** The reader asks for three bytes, then for three more; between the two
    reads the dispatcher takes the sentinel and sends the buffer again. *)
Example pipe_two_reads :
  ∃ c1 c2 c3 c4,
    Read (HttpDetect.bytes "...") conn_hello =
      Done (3%nat, None, HttpDetect.bytes "hel", c1) ∧
    Dispatch_wait c1 = Done c2 ∧
    Dispatch_send 1%positive c2 = Done c3 ∧
    Read (HttpDetect.bytes "...") c3 =
      Done (2%nat, None, HttpDetect.bytes "lo.", c4) ∧
    bufs c4 !! 1%positive = Some [].
Proof. do 4 eexists. repeat split. Qed.

Lemma Read_spec_witness :
  (∃ conn', @OnEvent plainEvents RemoteClose conn_hello = Done conn' ∧
     Read (HttpDetect.bytes "...") conn' =
       Done (O, Some errConnClose, HttpDetect.bytes "...", conn')) ∧
  (∃ conn', Read (HttpDetect.bytes "...") conn_hello =
       Done (3%nat, None, HttpDetect.bytes "hel", conn') ∧
     bufs conn' !! 1%positive = Some (HttpDetect.bytes "lo")).
Proof.
  destruct (@Read_spec plainEvents (HttpDetect.bytes "...") conn_hello)
    as (_ & Hclose & Hbuf).
  split.
  - destruct (Hclose RemoteClose eq_refl) as (conn' & Hev & _ & Hread).
    + discriminate.
    + exists conn'. split; [exact Hev | exact Hread].
  - destruct (Hbuf 1%positive (HttpDetect.bytes "hello") eq_refl eq_refl)
      as (conn' & Hr & Hb & _).
    exists conn'. split; [exact Hr | exact Hb].
Defined.

(** *** Streams and their event listeners *)

(** fasthttp's request and response objects, reduced to the fields the
    stream code reads and writes. *)
Record Request := {
  req_connectionClose : bool;   (* Header.ConnectionClose() *)
  req_isHTTP11 : bool;          (* Header.IsHTTP11() *)
  req_body : list byte
}.

Record Response := {
  resp_statusCode : Z;
  resp_connectionClose : bool;  (* ConnectionClose() *)
  resp_header : gmap string string;
  resp_body : list byte
}.

Definition HKConnection : string := "Connection".
Definition HVKeepAlive : string := "keep-alive".

(** [Response.SetConnectionClose()] *)
Definition SetConnectionClose (r : Response) : Response :=
  {| resp_statusCode := resp_statusCode r; resp_connectionClose := true;
     resp_header := resp_header r; resp_body := resp_body r |}.

(** [Response.Header.SetCanonical(key, value)]: fasthttp treats the
    Connection key apart, a value other than close clears the close flag and
    stores the header. *)
Definition SetCanonical (key value : string) (r : Response) : Response :=
  if decide (key = "Connection"%string) then
    if decide (value = "close"%string) then SetConnectionClose r
    else {| resp_statusCode := resp_statusCode r; resp_connectionClose := false;
            resp_header := <[key := value]> (resp_header r);
            resp_body := resp_body r |}
  else {| resp_statusCode := resp_statusCode r;
          resp_connectionClose := resp_connectionClose r;
          resp_header := <[key := value]> (resp_header r);
          resp_body := resp_body r |}.

(** A [types.StreamEventListener] is an interface value holding a pointer;
    it is known by its identity. *)
Definition listener := positive.

Record stream := {
  id : Z;
  readDisableCount : Z;
  request : option Request;
  response : option Response;
  streamCbs : list listener
}.

(** Calls that leave the stream code, in the order they are made. *)
Inductive effect :=
  | EOnResetStream (cb : listener) (reason : StreamResetReason)
  | EOnReceiveHeaders (sid : Z) (status : Z) (endStream : bool)
  | EOnReceiveData (sid : Z) (data : list byte) (endStream : bool)
  | EWriteResponse (r : Response)     (* response.WriteTo(connection) *)
  | EResponseDone                     (* responseDoneChan <- true *)
  | EConnClose (ccType : ConnectionCloseType) (event : ConnectionEvent)
  | EReleaseRequest
  | EReleaseResponse
  | ELogError.

Definition AddEventListener (streamCb : listener) (s : stream) : stream :=
  {| id := id s; readDisableCount := readDisableCount s; request := request s;
     response := response s; streamCbs := streamCbs s ++ [streamCb] |}.

(** The search loop of [RemoveEventListener]. Its loop variable is named
    [streamCb] like the parameter and hides it, so the test compares each
    element with itself. *)
Fixpoint find_cbIdx (cbs : list listener) (i : Z) : Z :=
  match cbs with
  | [] => -1
  | streamCb :: rest =>
      if decide (streamCb = streamCb) then i else find_cbIdx rest (i + 1)
  end.

Definition RemoveEventListener (streamCb : listener) (s : stream) : stream :=
  let cbIdx := find_cbIdx (streamCbs s) 0 in
  let cbs :=
    if (-1 <? cbIdx) then
      take (Z.to_nat cbIdx) (streamCbs s) ++ drop (Z.to_nat (cbIdx + 1)) (streamCbs s)
    else streamCbs s in
  {| id := id s; readDisableCount := readDisableCount s; request := request s;
     response := response s; streamCbs := cbs |}.

(** The behaviour the specification asks of listener removal: the first
    listener identical to the one passed is taken out. *)
Fixpoint remove_first (cb : listener) (cbs : list listener) : list listener :=
  match cbs with
  | [] => []
  | x :: rest => if decide (x = cb) then rest else x :: remove_first cb rest
  end.

(** [ResetStream]: the calls it makes. *)
Definition ResetStream (reason : StreamResetReason) (s : stream) : list effect :=
  if decide (reason ≠ StreamConnectionFailed ∧ reason ≠ StreamConnectionTermination)
  then (λ cb, EOnResetStream cb reason) <$> streamCbs s
  else [].

(** *** Client side *)

Record clientStreamConnection := {
  csc_stream : option stream;   (* the pointer [csc.stream], nil or a stream *)
  csc_out : list effect
}.

(** [clientStream.handleResponse]. The two status headers written into the
    response are carried by the status of the headers event. *)
Definition handleResponse (s : stream) : stream * list effect :=
  match response s with
  | Some r =>
      let hasData := negb (Nat.eqb (length (resp_body r)) 0) in
      let evs :=
        EOnReceiveHeaders (id s) (resp_statusCode r) (negb hasData) ::
        (if hasData then [EOnReceiveData (id s) (resp_body r) true] else []) in
      ({| id := id s; readDisableCount := readDisableCount s; request := None;
          response := None; streamCbs := streamCbs s |}, evs)
  | None => (s, [])
  end.

(** What the parser goroutine meets, in order: the results of the blocking
    [response.Read], and the calls of other goroutines that land while it is
    blocked there. *)
Inductive input :=
  | InDecodeError
  | InDecoded (r : Response)
  | InNewStream (sid : Z)
  | InAddEventListener (cb : listener).

Inductive exit := Returned | Waiting | Crashed.

(** [clientStreamConnection.NewStream] *)
Definition NewStream (sid : Z) (csc : clientStreamConnection)
  : clientStreamConnection :=
  {| csc_stream :=
       Some {| id := sid; readDisableCount := 0;
               request := Some {| req_connectionClose := false;
                                  req_isHTTP11 := true; req_body := [] |};
               response := None; streamCbs := [] |};
     csc_out := csc_out csc |}.

Definition emit (evs : list effect) (csc : clientStreamConnection)
  : clientStreamConnection :=
  {| csc_stream := csc_stream csc; csc_out := csc_out csc ++ evs |}.

(** [clientStreamConnection.serve]: how the loop ended, the inputs it did
    not get to, and the connection. [Waiting] is the loop blocked in
    [response.Read] with nothing more to come; [Crashed] is the nil
    dereference of a response that arrives with no current stream. *)
Fixpoint serve (inputs : list input) (csc : clientStreamConnection)
  : exit * list input * clientStreamConnection :=
  match inputs with
  | [] => (Waiting, [], csc)
  | InNewStream sid :: rest => serve rest (NewStream sid csc)
  | InAddEventListener cb :: rest =>
      serve rest {| csc_stream := AddEventListener cb <$> csc_stream csc;
                    csc_out := csc_out csc |}
  | InDecodeError :: rest =>
      match csc_stream csc with
      | Some s =>
          (Returned, rest, emit (ResetStream StreamRemoteReset s ++ [ELogError]) csc)
      | None => (Returned, rest, csc)
      end
  | InDecoded r :: rest =>
      match csc_stream csc with
      | None => (Crashed, rest, csc)
      | Some s =>
          let s1 := {| id := id s; readDisableCount := readDisableCount s;
                       request := request s; response := Some r;
                       streamCbs := streamCbs s |} in
          let resetConn := resp_connectionClose r in
          let '(s2, evs) :=
            if (readDisableCount s1 <=? 0) then handleResponse s1 else (s1, []) in
          let csc' := {| csc_stream := Some s2; csc_out := csc_out csc ++ evs |} in
          if resetConn then
            (Returned, rest, emit [EConnClose NoFlush LocalClose] csc')
          else serve rest csc'
      end
  end.

(** The goroutine started by [newClientStreamConnection]: a panic of
    [serve] is recovered, logged, and [serve] runs once more. *)
Definition parser_task (inputs : list input) (csc : clientStreamConnection)
  : exit * list input * clientStreamConnection :=
  match serve inputs csc with
  | (Crashed, rest, csc') => serve rest (emit [ELogError] csc')
  | r => r
  end.

(** *** Server side *)

Record serverStreamConnection := {
  ssc_stream : option Z;        (* the pointer [ssc.stream], by stream id *)
  ssc_out : list effect
}.

(** [serverStream.endStream], for a stream [s] of connection [conn]. *)
Definition endStream (s : stream) (conn : serverStreamConnection)
  : outcome (stream * serverStreamConnection) :=
  match request s, response s with
  | Some rq, Some rs =>
      let '(rs', resetConn) :=
        if req_connectionClose rq then (SetConnectionClose rs, true)
        else if negb (req_isHTTP11 rq) then
          (SetCanonical HKConnection HVKeepAlive rs, false)
        else (rs, false) in
      let out :=
        ssc_out conn ++ [EWriteResponse rs'; EResponseDone] ++
        (if resetConn then [EConnClose FlushWrite LocalClose] else []) ++
        [EReleaseRequest; EReleaseResponse] in
      Done ({| id := id s; readDisableCount := readDisableCount s;
               request := Some rq; response := Some rs';
               streamCbs := streamCbs s |},
            {| ssc_stream := None; ssc_out := out |})
  | _, _ => Panicked
  end.

(** *** Properties of the stream code *)

Lemma SetCanonical_keep_alive rs :
  resp_header (SetCanonical HKConnection HVKeepAlive rs) !! "Connection"%string
    = Some "keep-alive"%string
  ∧ resp_connectionClose (SetCanonical HKConnection HVKeepAlive rs) = false.
Proof.
  unfold SetCanonical, HKConnection, HVKeepAlive.
  rewrite decide_True by done. rewrite decide_False by done. simpl.
  by rewrite lookup_insert_eq.
Qed.

(** C6. [endStream] of the server stream: with an explicit close on the
    request the response is marked connection-close and the transport is
    closed once the response has been written; without it, a request that
    is not HTTP/1.1 gets the response header Connection: keep-alive; an
    HTTP/1.1 request without close has its response written as it is. *)
Theorem endStream_connection_rules s conn rq rs :
  request s = Some rq → response s = Some rs →
  ∃ s' conn', endStream s conn = Done (s', conn') ∧
    (req_connectionClose rq = true →
       resp_connectionClose (SetConnectionClose rs) = true ∧
       response s' = Some (SetConnectionClose rs) ∧
       ssc_out conn' = ssc_out conn ++
         [EWriteResponse (SetConnectionClose rs); EResponseDone;
          EConnClose FlushWrite LocalClose;
          EReleaseRequest; EReleaseResponse]) ∧
    (req_connectionClose rq = false → req_isHTTP11 rq = false →
       let rs' := SetCanonical HKConnection HVKeepAlive rs in
       resp_header rs' !! "Connection"%string = Some "keep-alive"%string ∧
       response s' = Some rs' ∧
       ssc_out conn' = ssc_out conn ++
         [EWriteResponse rs'; EResponseDone;
          EReleaseRequest; EReleaseResponse]) ∧
    (req_connectionClose rq = false → req_isHTTP11 rq = true →
       response s' = Some rs ∧
       ssc_out conn' = ssc_out conn ++
         [EWriteResponse rs; EResponseDone;
          EReleaseRequest; EReleaseResponse]).
Proof.
  intros Hrq Hrs. unfold endStream. rewrite Hrq, Hrs.
  destruct (req_connectionClose rq) eqn:Hclose;
    [|destruct (req_isHTTP11 rq) eqn:H11]; simpl;
    eexists _, _; (split; [reflexivity|]); simpl;
    repeat split; try done; intros; try discriminate;
    apply SetCanonical_keep_alive.
Qed.

Definition plain_response : Response :=
  {| resp_statusCode := 200; resp_connectionClose := false;
     resp_header := ∅; resp_body := HttpDetect.bytes "ok" |}.

Definition server_stream (close http11 : bool) : stream :=
  {| id := 1; readDisableCount := 0;
     request := Some {| req_connectionClose := close; req_isHTTP11 := http11;
                        req_body := [] |};
     response := Some plain_response; streamCbs := [] |}.

Definition idle_server_conn : serverStreamConnection :=
  {| ssc_stream := Some 1; ssc_out := [] |}.

Lemma endStream_connection_rules_witness :
  (∃ s' conn', endStream (server_stream true true) idle_server_conn = Done (s', conn') ∧
     ssc_out conn' =
       [EWriteResponse (SetConnectionClose plain_response); EResponseDone;
        EConnClose FlushWrite LocalClose; EReleaseRequest; EReleaseResponse]) ∧
  (∃ s' conn', endStream (server_stream false false) idle_server_conn = Done (s', conn') ∧
     response s' = Some (SetCanonical HKConnection HVKeepAlive plain_response)).
Proof.
  split.
  - destruct (endStream_connection_rules (server_stream true true)
                idle_server_conn _ _ eq_refl eq_refl)
      as (s' & conn' & Hrun & Hclose & _ & _).
    exists s', conn'. split; [exact Hrun|].
    exact (proj2 (proj2 (Hclose eq_refl))).
  - destruct (endStream_connection_rules (server_stream false false)
                idle_server_conn _ _ eq_refl eq_refl)
      as (s' & conn' & Hrun & _ & Hkeep & _).
    exists s', conn'. split; [exact Hrun|].
    exact (proj1 (proj2 (Hkeep eq_refl eq_refl))).
Defined.

Lemma serve_waiting_nil inputs csc rem csc1 :
  serve inputs csc = (Waiting, rem, csc1) → rem = [].
Proof.
  revert csc. induction inputs as [|i inputs IH]; intros csc; simpl.
  - by intros [= <- _].
  - destruct i as [|r|sid|cb]; try apply IH.
    + destruct (csc_stream csc); discriminate.
    + destruct (csc_stream csc) as [s|]; [|discriminate].
      destruct (if readDisableCount _ <=? 0 then _ else _) as [s2 evs].
      destruct (resp_connectionClose r); [discriminate | apply IH].
Qed.

Lemma serve_app pre post csc csc1 :
  serve pre csc = (Waiting, [], csc1) →
  serve (pre ++ post) csc = serve post csc1.
Proof.
  revert csc. induction pre as [|i pre IH]; intros csc; simpl.
  - by intros [= <-].
  - destruct i as [|r|sid|cb]; try apply IH.
    + destruct (csc_stream csc); discriminate.
    + destruct (csc_stream csc) as [s|]; [|discriminate].
      destruct (if readDisableCount _ <=? 0 then _ else _) as [s2 evs].
      destruct (resp_connectionClose r); [discriminate | apply IH].
Qed.

Lemma ResetStream_remote s :
  ResetStream StreamRemoteReset s =
  (λ cb, EOnResetStream cb StreamRemoteReset) <$> streamCbs s.
Proof. unfold ResetStream. by rewrite decide_True. Qed.

(** C7. Whenever the parser loop of the client connection, still running
    after the inputs [pre], meets a decode error: a current stream has
    [OnResetStream StreamRemoteReset] called on each of its listeners, in
    order; the loop returns (the goroutine does not start it again) and none of the
    inputs after the error is consumed. *)
Theorem serve_decode_error pre rest csc csc1 :
  serve pre csc = (Waiting, [], csc1) →
  serve (pre ++ InDecodeError :: rest) csc =
    (Returned, rest,
     match csc_stream csc1 with
     | Some s =>
         {| csc_stream := Some s;
            csc_out := csc_out csc1 ++
              ((λ cb, EOnResetStream cb StreamRemoteReset) <$> streamCbs s) ++
              [ELogError] |}
     | None => csc1
     end) ∧
  parser_task (pre ++ InDecodeError :: rest) csc =
    serve (pre ++ InDecodeError :: rest) csc.
Proof.
  intros Hpre.
  assert (serve (pre ++ InDecodeError :: rest) csc =
    (Returned, rest,
     match csc_stream csc1 with
     | Some s =>
         {| csc_stream := Some s;
            csc_out := csc_out csc1 ++
              ((λ cb, EOnResetStream cb StreamRemoteReset) <$> streamCbs s) ++
              [ELogError] |}
     | None => csc1
     end)) as Hrun.
  { rewrite (serve_app _ _ _ _ Hpre). simpl.
    destruct (csc_stream csc1) as [s|] eqn:Hs; [|done].
    rewrite ResetStream_remote. unfold emit. by rewrite Hs. }
  split; [exact Hrun|]. unfold parser_task. by rewrite Hrun.
Qed.

(** A stream is opened and two listeners are added to it. *)
Definition two_listeners : list input :=
  [InNewStream 7; InAddEventListener 1%positive; InAddEventListener 2%positive].

Lemma serve_decode_error_witness :
  serve (two_listeners ++ InDecodeError :: [InDecoded plain_response])
        {| csc_stream := None; csc_out := [] |} =
  (Returned, [InDecoded plain_response],
   {| csc_stream := csc_stream (snd (serve two_listeners {| csc_stream := None; csc_out := [] |}));
      csc_out := [EOnResetStream 1%positive StreamRemoteReset;
                  EOnResetStream 2%positive StreamRemoteReset; ELogError] |}).
Proof.
  exact (proj1 (serve_decode_error two_listeners [InDecoded plain_response]
                  {| csc_stream := None; csc_out := [] |} _ eq_refl)).
Defined.

Lemma find_cbIdx_cons cb cbs i : find_cbIdx (cb :: cbs) i = i.
Proof. simpl. by rewrite decide_True. Qed.

Lemma RemoveEventListener_tail streamCb s :
  streamCbs (RemoveEventListener streamCb s) = tail (streamCbs s).
Proof.
  unfold RemoveEventListener. simpl.
  destruct (streamCbs s) as [|cb cbs]; [done|].
  rewrite find_cbIdx_cons. simpl. by rewrite drop_0.
Qed.

Lemma remove_first_once cb pre post :
  cb ∉ pre → remove_first cb (pre ++ cb :: post) = pre ++ post.
Proof.
  induction pre as [|x pre IH]; intros Hnot; simpl.
  - by rewrite decide_True.
  - rewrite decide_False by set_solver. f_equal. apply IH. set_solver.
Qed.

Definition stream_with (cbs : list listener) : stream :=
  {| id := 1; readDisableCount := 0; request := None; response := None;
     streamCbs := cbs |}.

(** C10. Removing the second of two listeners: the code takes out the
    first one and keeps the one it was asked to remove, where removal by
    identity keeps the first and takes out the second. *)
Theorem RemoveEventListener_removes_head :
  streamCbs (RemoveEventListener 2%positive (stream_with [1; 2]%positive))
    = [2%positive] ∧
  remove_first 2%positive [1; 2]%positive = [1%positive] ∧
  ∀ streamCb s, streamCbs (RemoveEventListener streamCb s) = tail (streamCbs s).
Proof.
  split; [reflexivity|]. split; [reflexivity|]. apply RemoveEventListener_tail.
Qed.

End HttpStream.

(* ===================================================================== *)
(** ** The HTTP/1 connection pool *)
(* ===================================================================== *)

Module ConnPool.
Import Types.

(** [types.Resource], the interface of one limit of the cluster resource
    manager; its implementation lives outside the files at hand. *)
Class Resource (R : Type) := {
  CanCreate : R → bool;
  Increase : R → R;
  Decrease : R → R;
  Max : R → Z
}.

(** A [*activeClient]. *)
Definition clientRef := positive.

(** The fields of [activeClient] that the pool reads and writes. *)
Record activeClient := {
  totalStream : Z;
  closeWithActiveReq : bool;
  closed : bool
}.

(** [&activeClient{pool: pool}] *)
Definition zeroClient : activeClient :=
  {| totalStream := 0; closeWithActiveReq := false; closed := false |}.

(** [types.HostStats] and [types.ClusterStats]: go-metrics counters by field
    name, read as integers. *)
Definition counter (stats : gmap string Z) (name : string) : Z :=
  default 0 (stats !! name).
Definition Inc (name : string) (n : Z) (stats : gmap string Z) : gmap string Z :=
  <[name := counter stats name + n]> stats.
Definition Dec (name : string) (n : Z) (stats : gmap string Z) : gmap string Z :=
  <[name := counter stats name - n]> stats.

(** Calls on the listener of [NewStream], on the codec clients and on the
    upstream connection. *)
Inductive effect :=
  | EOnFailure (reason : PoolFailureReason)
  | EOnReady (c : clientRef)
  | ECodecNewStream (c : clientRef)
  | ECodecClose (c : clientRef)
  | EConnect (c : clientRef) (ok : bool).

Definition uint64_wrap (z : Z) : Z := z mod 2 ^ 64.

Section pool.
Context {R : Type} `{Resource R} `{EventKinds}.

(** The pool, the client objects it points to, the statistics and limits of
    its host and cluster. *)
Record connPool := {
  availableClients : list clientRef;
  totalClientCount : Z;                       (* uint64 *)
  clients : gmap clientRef activeClient;
  hostStats : gmap string Z;
  clusterStats : gmap string Z;
  connections : R;     (* ResourceManager().Connections() *)
  requests : R;        (* ResourceManager().Requests() *)
  out : list effect
}.

Definition set_available v p :=
  {| availableClients := v; totalClientCount := totalClientCount p;
     clients := clients p; hostStats := hostStats p;
     clusterStats := clusterStats p; connections := connections p;
     requests := requests p; out := out p |}.
Definition set_total v p :=
  {| availableClients := availableClients p; totalClientCount := v;
     clients := clients p; hostStats := hostStats p;
     clusterStats := clusterStats p; connections := connections p;
     requests := requests p; out := out p |}.
Definition set_clients v p :=
  {| availableClients := availableClients p;
     totalClientCount := totalClientCount p;
     clients := v; hostStats := hostStats p;
     clusterStats := clusterStats p; connections := connections p;
     requests := requests p; out := out p |}.
Definition set_requests v p :=
  {| availableClients := availableClients p;
     totalClientCount := totalClientCount p;
     clients := clients p; hostStats := hostStats p;
     clusterStats := clusterStats p; connections := connections p;
     requests := v; out := out p |}.
Definition emit evs p :=
  {| availableClients := availableClients p;
     totalClientCount := totalClientCount p;
     clients := clients p; hostStats := hostStats p;
     clusterStats := clusterStats p; connections := connections p;
     requests := requests p; out := out p ++ evs |}.

(** One counter of the host and the same counter of the cluster. *)
Definition IncBoth name p :=
  {| availableClients := availableClients p;
     totalClientCount := totalClientCount p;
     clients := clients p; hostStats := Inc name 1 (hostStats p);
     clusterStats := Inc name 1 (clusterStats p); connections := connections p;
     requests := requests p; out := out p |}.
Definition DecBoth name p :=
  {| availableClients := availableClients p;
     totalClientCount := totalClientCount p;
     clients := clients p; hostStats := Dec name 1 (hostStats p);
     clusterStats := Dec name 1 (clusterStats p); connections := connections p;
     requests := requests p; out := out p |}.

(** Dereferencing a client pointer. *)
Definition client_of (p : connPool) (c : clientRef) : activeClient :=
  default zeroClient (clients p !! c).

(** [newActiveClient]; [connectOk] tells whether [Connect] succeeds. *)
Definition newActiveClient (connectOk : bool) (p : connPool)
  : option clientRef * PoolFailureReason * connPool :=
  let ac := fresh (dom (clients p)) in
  let p1 := emit [EConnect ac connectOk] (set_clients (<[ac := zeroClient]> (clients p)) p) in
  if connectOk then
    (Some ac, NoFailure,
     IncBoth "UpstreamConnectionActive" (IncBoth "UpstreamConnectionTotal" p1))
  else (None, ConnectionFailure, p1).

Definition getAvailableClient (connectOk : bool) (p : connPool)
  : option clientRef * PoolFailureReason * connPool :=
  let n := length (availableClients p) in
  if (n =? 0)%nat then
    let maxConns := Max (connections p) in
    if totalClientCount p <? maxConns then
      newActiveClient connectOk
        (set_total (uint64_wrap (totalClientCount p + 1)) p)
    else (None, Overflow, IncBoth "UpstreamRequestPendingOverflow" p)
  else
    let n := (n - 1)%nat in
    match availableClients p !! n with
    | Some c => (Some c, NoFailure, set_available (take n (availableClients p)) p)
    | None => (None, NoFailure, p)
    end.

Definition NewStream (connectOk : bool) (p : connPool) : connPool :=
  let '(c, reason, p1) := getAvailableClient connectOk p in
  match c with
  | None => emit [EOnFailure reason] p1
  | Some c =>
      if negb (CanCreate (requests p1)) then
        IncBoth "UpstreamRequestPendingOverflow" (emit [EOnFailure Overflow] p1)
      else
        let p2 := IncBoth "UpstreamRequestActive" (IncBoth "UpstreamRequestTotal" p1) in
        let p3 := set_requests (Increase (requests p2)) p2 in
        emit [ECodecNewStream c; EOnReady c] p3
  end.

Definition Close (p : connPool) : connPool :=
  emit (ECodecClose <$> availableClients p) p.

(** The loop of [onConnectionEvent] that takes [client] out of the free
    list: the first slot holding it is cut out, then the loop breaks. *)
Fixpoint remove_client (client : clientRef) (l : list clientRef) : list clientRef :=
  match l with
  | [] => []
  | c :: rest => if decide (c = client) then rest else c :: remove_client client rest
  end.

Definition set_closed (ac : activeClient) : activeClient :=
  {| totalStream := totalStream ac; closeWithActiveReq := closeWithActiveReq ac;
     closed := true |}.
Definition set_closeWithActiveReq (ac : activeClient) : activeClient :=
  {| totalStream := totalStream ac; closeWithActiveReq := true;
     closed := closed ac |}.

Definition onConnectionEvent (client : clientRef) (event : ConnectionEvent)
    (p : connPool) : connPool :=
  if IsClose event then
    let p1 :=
      if closeWithActiveReq (client_of p client) then
        if decide (event = LocalClose) then
          IncBoth "UpstreamConnectionLocalCloseWithActiveRequest" p
        else if decide (event = RemoteClose) then
          IncBoth "UpstreamConnectionRemoteCloseWithActiveRequest" p
        else p
      else p in
    let p2 := set_total (uint64_wrap (totalClientCount p1 - 1)) p1 in
    let p3 := set_available (remove_client client (availableClients p2)) p2 in
    set_clients (<[client := set_closed (client_of p3 client)]> (clients p3)) p3
  else if decide (event = ConnectTimeout) then
    emit [ECodecClose client] (IncBoth "UpstreamRequestTimeout" p)
  else if decide (event = ConnectFailed) then
    IncBoth "UpstreamConnectionConFail" p
  else p.

Definition onStreamDestroy (client : clientRef) (p : connPool) : connPool :=
  let p1 := DecBoth "UpstreamRequestActive" p in
  let p2 := set_requests (Decrease (requests p1)) p1 in
  if negb (closed (client_of p2 client)) then
    set_available (availableClients p2 ++ [client]) p2
  else p2.

Definition onStreamReset (client : clientRef) (reason : StreamResetReason)
    (p : connPool) : connPool :=
  if decide (reason = StreamConnectionTermination ∨ reason = StreamConnectionFailed) then
    let p1 := IncBoth "UpstreamRequestFailureEject" p in
    set_clients (<[client := set_closeWithActiveReq (client_of p1 client)]> (clients p1)) p1
  else if decide (reason = StreamLocalReset) then
    IncBoth "UpstreamRequestLocalReset" p
  else if decide (reason = StreamRemoteReset) then
    IncBoth "UpstreamRequestRemoteReset" p
  else p.

(** The operations of the pool as one type. *)
Inductive op :=
  | OpGetAvailableClient (connectOk : bool)
  | OpNewStream (connectOk : bool)
  | OpOnStreamDestroy (client : clientRef)
  | OpOnStreamReset (client : clientRef) (reason : StreamResetReason)
  | OpOnConnectionEvent (client : clientRef) (event : ConnectionEvent)
  | OpClose.

Definition run (o : op) (p : connPool) : connPool :=
  match o with
  | OpGetAvailableClient ok => (getAvailableClient ok p).2
  | OpNewStream ok => NewStream ok p
  | OpOnStreamDestroy c => onStreamDestroy c p
  | OpOnStreamReset c reason => onStreamReset c reason p
  | OpOnConnectionEvent c event => onConnectionEvent c event p
  | OpClose => Close p
  end.

(** [totalClientCount] and the connection limit are [uint64] values. *)
Definition pool_wf (p : connPool) : Prop :=
  0 ≤ totalClientCount p < 2 ^ 64 ∧ 0 ≤ Max (connections p) < 2 ^ 64.

(** The pool-state invariant of the specification. *)
Record pool_inv (p : connPool) : Prop := {
  inv_total : totalClientCount p ≤ Max (connections p);
  inv_open : ∀ c, c ∈ availableClients p → closed (client_of p c) = false;
  inv_nodup : NoDup (availableClients p)
}.

(** What the callers of the pool have to respect: a stream is destroyed on
    a client that was handed out, and a close event belongs to a client
    that is still counted. *)
Definition op_pre (o : op) (p : connPool) : Prop :=
  match o with
  | OpOnStreamDestroy c => c ∉ availableClients p
  | OpOnConnectionEvent c event => IsClose event = true → 0 < totalClientCount p
  | _ => True
  end.

(** *** The invariant and the operations *)

Definition pool_ok (p : connPool) : Prop := pool_wf p ∧ pool_inv p.

(** Both parts of [pool_ok] look only at the free list, the count, the
    client objects and the connection limit. *)
Definition same_core (p q : connPool) : Prop :=
  availableClients q = availableClients p ∧
  totalClientCount q = totalClientCount p ∧
  clients q = clients p ∧
  connections q = connections p.

Lemma pool_ok_core p q : same_core p q → pool_ok p → pool_ok q.
Proof.
  intros (Ha & Ht & Hc & Hm) [Hwf [Htot Hopen Hnd]].
  split; [unfold pool_wf; by rewrite Ht, Hm|].
  split.
  - by rewrite Ht, Hm.
  - intros c. unfold client_of. rewrite Ha, Hc. apply Hopen.
  - by rewrite Ha.
Qed.

Lemma remove_client_subseteq client l : remove_client client l ⊆ l.
Proof.
  induction l as [|c l IH]; simpl; [done|].
  destruct (decide (c = client)); intros x Hx.
  - by apply elem_of_cons; right.
  - apply elem_of_cons in Hx as [->|Hx]; apply elem_of_cons; [by left|].
    right. by apply IH.
Qed.

Lemma remove_client_NoDup client l : NoDup l → NoDup (remove_client client l).
Proof.
  intros Hl. induction Hl as [|c l Hc Hnd IH]; simpl; [constructor|].
  destruct (decide (c = client)); [done|].
  constructor; [|done]. intros Hin. apply Hc.
  by apply (remove_client_subseteq client l).
Qed.

Lemma remove_client_gone client l : NoDup l → client ∉ remove_client client l.
Proof.
  intros Hl. induction Hl as [|c l Hc Hnd IH]; simpl; [apply not_elem_of_nil|].
  destruct (decide (c = client)) as [->|Hne]; [done|].
  intros [Heq|Hin]%elem_of_cons; [by apply Hne | by apply IH].
Qed.

Lemma uint64_wrap_id z : 0 ≤ z < 2 ^ 64 → uint64_wrap z = z.
Proof. intros Hz. unfold uint64_wrap. by apply Z.mod_small. Qed.

Lemma getAvailableClient_ok connectOk p :
  pool_ok p → pool_ok (getAvailableClient connectOk p).2.
Proof.
  intros Hok. pose proof Hok as [[Hrange Hmax] [Htot Hopen Hnd]].
  unfold getAvailableClient.
  destruct (Nat.eqb_spec (length (availableClients p)) 0) as [Hlen|Hlen].
  - destruct (Z.ltb_spec (totalClientCount p) (Max (connections p))) as [Hlt|Hge].
    + apply length_zero_iff_nil in Hlen.
      assert (pool_ok (set_clients
                (<[fresh (dom (clients p)) := zeroClient]> (clients p))
                (set_total (totalClientCount p + 1) p))) as Hnew.
      { split; [split; simpl; lia|]. split; simpl.
        - lia.
        - rewrite Hlen. intros c Hc. by apply elem_of_nil in Hc.
        - done. }
      unfold newActiveClient. rewrite uint64_wrap_id by lia.
      destruct connectOk; simpl; (eapply pool_ok_core; [|exact Hnew]); done.
    + simpl. by eapply pool_ok_core; [|exact Hok].
  - destruct (availableClients p !! (length (availableClients p) - 1)%nat)
      as [c|] eqn:Hc; simpl; [|done].
    split; [done|]. split; simpl.
    + done.
    + intros c' Hc'. apply Hopen. by apply (subseteq_take _ _ _ Hc').
    + eapply sublist_NoDup; [done | apply sublist_take].
Qed.

Lemma NewStream_core connectOk p :
  same_core (getAvailableClient connectOk p).2 (NewStream connectOk p).
Proof.
  unfold NewStream. destruct (getAvailableClient connectOk p) as [[c reason] p1].
  simpl. destruct c as [c|]; [|done].
  by destruct (CanCreate (requests p1)).
Qed.

Lemma onStreamDestroy_ok client p :
  client ∉ availableClients p → pool_ok p → pool_ok (onStreamDestroy client p).
Proof.
  intros Hfree Hok. pose proof Hok as [Hwf [Htot Hopen Hnd]].
  unfold onStreamDestroy.
  destruct (closed (client_of _ client)) eqn:Hcl; simpl.
  - by eapply pool_ok_core; [|exact Hok].
  - split; [done|]. split; simpl.
    + done.
    + intros c [Hc| ->%list_elem_of_singleton]%elem_of_app; [by apply Hopen | done].
    + apply NoDup_app. split; [done|]. split; [|apply NoDup_singleton].
      intros c Hc ->%list_elem_of_singleton. done.
Qed.

Lemma onStreamReset_ok client reason p :
  pool_ok p → pool_ok (onStreamReset client reason p).
Proof.
  intros Hok. pose proof Hok as [Hwf [Htot Hopen Hnd]].
  unfold onStreamReset.
  destruct (decide (_ ∨ _)).
  - split; [done|]. split; simpl; [done| |done].
    intros c Hc. unfold client_of. simpl.
    destruct (decide (c = client)) as [->|Hne].
    + rewrite lookup_insert_eq. simpl. by apply Hopen.
    + rewrite lookup_insert_ne by done. by apply Hopen.
  - destruct (decide (reason = StreamLocalReset));
      [|destruct (decide (reason = StreamRemoteReset))];
      try done; by eapply pool_ok_core; [|exact Hok].
Qed.

Lemma onConnectionEvent_ok client event p :
  (IsClose event = true → 0 < totalClientCount p) →
  pool_ok p → pool_ok (onConnectionEvent client event p).
Proof.
  intros Hpos Hok. pose proof Hok as [[Hrange Hmax] [Htot Hopen Hnd]].
  unfold onConnectionEvent. destruct (IsClose event) eqn:Hclose.
  - specialize (Hpos eq_refl).
    set (p1 := if closeWithActiveReq (client_of p client) then _ else p).
    assert (same_core p p1) as (Ha & Ht & Hc & Hm).
    { unfold p1. destruct (closeWithActiveReq _); [|done].
      destruct (decide (event = LocalClose)); [done|].
      by destruct (decide (event = RemoteClose)). }
    clearbody p1. simpl. rewrite Ht, Ha. rewrite uint64_wrap_id by lia.
    split; [split; simpl; rewrite ?Hm; lia|]. split; simpl.
    + rewrite Hm. lia.
    + intros c Hin. unfold client_of. simpl.
      destruct (decide (c = client)) as [->|Hne].
      * by apply remove_client_gone in Hin.
      * rewrite lookup_insert_ne by done. rewrite Hc. apply Hopen.
        by apply (remove_client_subseteq client).
    + by apply remove_client_NoDup.
  - destruct (decide (event = ConnectTimeout));
      [|destruct (decide (event = ConnectFailed))];
      try done; by eapply pool_ok_core; [|exact Hok].
Qed.

(** C1, as the code has it. Every operation of the pool keeps
    [totalClientCount] within the connection limit, the free list free of
    closed clients and free of repetitions, as long as [onStreamDestroy] is
    given a client that is not in the free list and a close event arrives
    while [totalClientCount] is positive. *)
Theorem pool_ops_preserve_invariant (o : op) (p : connPool) :
  pool_wf p → pool_inv p → op_pre o p →
  pool_wf (run o p) ∧ pool_inv (run o p).
Proof.
  intros Hwf Hinv Hpre. assert (pool_ok p) as Hok by done.
  destruct o as [ok|ok|c|c reason|c event|]; simpl in *.
  - by apply getAvailableClient_ok.
  - eapply pool_ok_core; [apply NewStream_core|]. by apply getAvailableClient_ok.
  - by apply onStreamDestroy_ok.
  - by apply onStreamReset_ok.
  - by apply onConnectionEvent_ok.
  - by eapply pool_ok_core; [|exact Hok].
Qed.

(** *** Admission failures of [NewStream] *)

Lemma counter_Inc_eq name n stats :
  counter (Inc name n stats) name = counter stats name + n.
Proof. unfold counter at 1, Inc. by rewrite lookup_insert_eq. Qed.

Lemma counter_Inc_ne name name' n stats :
  name ≠ name' → counter (Inc name n stats) name' = counter stats name'.
Proof. intros Hne. unfold counter, Inc. by rewrite lookup_insert_ne. Qed.

(** C3. [NewStream] on a pool whose free list is empty and whose count has
    reached the connection limit: no client object is created and no
    connect is started, [totalClientCount] stays as it is, the host and the
    cluster counter UpstreamRequestPendingOverflow go up by one, and the
    listener gets [OnFailure] with reason [Overflow]. *)
Theorem NewStream_connection_overflow (connectOk : bool) (p : connPool) :
  availableClients p = [] →
  Max (connections p) ≤ totalClientCount p →
  (let p' := NewStream connectOk p in
  clients p' = clients p ∧
  availableClients p' = [] ∧
  totalClientCount p' = totalClientCount p ∧
  counter (hostStats p') "UpstreamRequestPendingOverflow" =
    counter (hostStats p) "UpstreamRequestPendingOverflow" + 1 ∧
  counter (clusterStats p') "UpstreamRequestPendingOverflow" =
    counter (clusterStats p) "UpstreamRequestPendingOverflow" + 1 ∧
  requests p' = requests p ∧
  out p' = out p ++ [EOnFailure Overflow]).
Proof.
  intros Hnil Hmax. unfold NewStream, getAvailableClient. rewrite Hnil. simpl.
  destruct (Z.ltb_spec (totalClientCount p) (Max (connections p))); [lia|].
  simpl. rewrite Hnil, !counter_Inc_eq. done.
Qed.

Lemma getAvailableClient_some connectOk p c reason p1 :
  pool_inv p →
  getAvailableClient connectOk p = (Some c, reason, p1) →
  requests p1 = requests p ∧
  counter (hostStats p1) "UpstreamRequestPendingOverflow" =
    counter (hostStats p) "UpstreamRequestPendingOverflow" ∧
  counter (clusterStats p1) "UpstreamRequestPendingOverflow" =
    counter (clusterStats p) "UpstreamRequestPendingOverflow" ∧
  (c ∉ availableClients p1) ∧
  closed (client_of p1 c) = false.
Proof.
  intros [Htot Hopen Hnd]. unfold getAvailableClient.
  destruct (Nat.eqb_spec (length (availableClients p)) 0) as [Hlen|Hlen].
  - apply length_zero_iff_nil in Hlen.
    destruct (totalClientCount p <? Max (connections p)); [|discriminate].
    unfold newActiveClient. destruct connectOk; [|discriminate].
    intros [= <- <- <-]. simpl.
    rewrite !counter_Inc_ne by done. rewrite Hlen.
    repeat split; try done; [apply not_elem_of_nil|].
    unfold client_of. simpl. by rewrite lookup_insert_eq.
  - destruct (availableClients p !! (length (availableClients p) - 1)%nat)
      as [c'|] eqn:Hc; [|discriminate].
    intros [= <- <- <-]. simpl. repeat split; try done.
    + intros Hin. pose proof (take_drop_middle _ _ _ Hc) as Hsplit.
      rewrite <- Hsplit in Hnd. apply NoDup_app in Hnd as (_ & Hdis & _).
      apply (Hdis c' Hin). by apply elem_of_cons; left.
    + apply Hopen. by eapply list_elem_of_lookup_2.
Qed.

Lemma onStreamDestroy_open c p :
  closed (client_of p c) = false →
  availableClients (onStreamDestroy c p) = availableClients p ++ [c].
Proof.
  intros Hopen. unfold onStreamDestroy. simpl.
  change (client_of _ c) with (client_of p c). by rewrite Hopen.
Qed.

(** A sequence of pool operations, applied in order. *)
Definition run_all (ops : list op) (p : connPool) : connPool :=
  foldl (λ p o, run o p) p ops.

(** A client object of the pool that is outside the free list. *)
Definition held (c : clientRef) (p : connPool) : Prop :=
  (c ∉ availableClients p) ∧ is_Some (clients p !! c).

(** What an operation adds to the calls made so far, when that holds no
    stream opened on [c]. *)
Definition no_stream_on (c : clientRef) (p q : connPool) : Prop :=
  ∃ evs, out q = out p ++ evs ∧ ECodecNewStream c ∉ evs.

Lemma no_stream_on_same c p q : out q = out p → no_stream_on c p q.
Proof.
  intros Heq. exists []. split; [by rewrite app_nil_r | apply not_elem_of_nil].
Qed.

Lemma no_stream_on_trans c p q r :
  no_stream_on c p q → no_stream_on c q r → no_stream_on c p r.
Proof.
  intros (e1 & H1 & N1) (e2 & H2 & N2). exists (e1 ++ e2).
  split; [by rewrite H2, H1, app_assoc|].
  rewrite elem_of_app. tauto.
Qed.

Lemma fresh_client_ne c (p : connPool) :
  is_Some (clients p !! c) → fresh (dom (clients p)) ≠ c.
Proof.
  intros Hc Heq. apply elem_of_dom in Hc. rewrite <- Heq in Hc.
  by apply is_fresh in Hc.
Qed.

Lemma getAvailableClient_held connectOk c p :
  held c p →
  (getAvailableClient connectOk p).1.1 ≠ Some c ∧
  held c (getAvailableClient connectOk p).2 ∧
  no_stream_on c p (getAvailableClient connectOk p).2.
Proof.
  intros [Hout Hobj]. unfold getAvailableClient.
  destruct (Nat.eqb_spec (length (availableClients p)) 0) as [Hlen|Hlen].
  - destruct (totalClientCount p <? Max (connections p)).
    + pose proof (fresh_client_ne c p Hobj) as Hne.
      assert (is_Some (<[fresh (dom (clients p)) := zeroClient]> (clients p) !! c))
        as Hobj' by (by rewrite lookup_insert_ne).
      unfold newActiveClient. simpl.
      destruct connectOk; simpl; (split; [congruence|]); (split; [done|]).
      * exists [EConnect (fresh (dom (clients p))) true].
        split; [done|]. by intros ?%list_elem_of_singleton.
      * exists [EConnect (fresh (dom (clients p))) false].
        split; [done|]. by intros ?%list_elem_of_singleton.
    + simpl. split; [done|]. split; [done|]. by apply no_stream_on_same.
  - destruct (availableClients p !! (length (availableClients p) - 1)%nat)
      as [c'|] eqn:Hc; simpl.
    + split.
      * intros [= ->]. apply Hout. by eapply list_elem_of_lookup_2.
      * split; [|by apply no_stream_on_same]. split; [|done].
        intros Hin. apply Hout. exact (subseteq_take _ _ c Hin).
    + split; [done|]. split; [done|]. by apply no_stream_on_same.
Qed.

Lemma NewStream_held connectOk c p :
  held c p →
  held c (NewStream connectOk p) ∧ no_stream_on c p (NewStream connectOk p).
Proof.
  intros Hheld.
  destruct (getAvailableClient_held connectOk c p Hheld) as (Hne & Hh & Hns).
  unfold NewStream.
  destruct (getAvailableClient connectOk p) as [[[c'|] reason] p1]; simpl in *.
  - destruct (negb (CanCreate (requests p1))); simpl.
    + split; [done|]. eapply no_stream_on_trans; [exact Hns|].
      exists [EOnFailure Overflow]. split; [done|].
      by intros ?%list_elem_of_singleton.
    + split; [done|]. eapply no_stream_on_trans; [exact Hns|].
      exists [ECodecNewStream c'; EOnReady c']. split; [done|].
      rewrite !not_elem_of_cons. repeat split; [congruence|done|apply not_elem_of_nil].
  - split; [done|]. eapply no_stream_on_trans; [exact Hns|].
    exists [EOnFailure reason]. split; [done|].
    by intros ?%list_elem_of_singleton.
Qed.

Lemma run_held (o : op) c p :
  o ≠ OpOnStreamDestroy c →
  held c p →
  held c (run o p) ∧ no_stream_on c p (run o p).
Proof.
  intros Hop Hheld. destruct o as [ok|ok|c'|c' reason|c' event|]; simpl.
  - exact (proj2 (getAvailableClient_held ok c p Hheld)).
  - by apply NewStream_held.
  - destruct Hheld as [Hout Hobj]. unfold onStreamDestroy. simpl.
    destruct (negb _); simpl; (split; [|by apply no_stream_on_same]);
      split; try done.
    cbn [availableClients set_available]. rewrite not_elem_of_app. split; [done|].
    intros ->%list_elem_of_singleton. by apply Hop.
  - split; [|unfold onStreamReset; repeat case_decide; by apply no_stream_on_same].
    destruct Hheld as [Hout Hobj]. unfold onStreamReset.
    repeat case_decide; simpl; split; try done.
    cbn [clients set_clients]. rewrite lookup_insert_is_Some.
    destruct (decide (c' = c)); auto.
  - destruct Hheld as [Hout Hobj]. unfold onConnectionEvent.
    destruct (IsClose event).
    + split; [|apply no_stream_on_same; simpl;
                by destruct (closeWithActiveReq _); repeat case_decide].
      split.
      * cbn [availableClients set_clients set_available set_total].
        intros Hin. apply Hout.
        apply (remove_client_subseteq c') in Hin.
        by destruct (closeWithActiveReq _); repeat case_decide.
      * cbn [clients set_clients set_available set_total].
        rewrite lookup_insert_is_Some. destruct (decide (c' = c)); [auto|].
        right. split; [done|].
        by destruct (closeWithActiveReq _); repeat case_decide.
    + repeat case_decide; simpl; (split; [done|]); try by apply no_stream_on_same.
      exists [ECodecClose c']. split; [done|].
      by intros ?%list_elem_of_singleton.
  - split; [done|]. exists (ECodecClose <$> availableClients p).
    split; [done|]. by intros (? & ? & _)%list_elem_of_fmap.
Qed.

Lemma run_all_held (ops : list op) c p :
  OpOnStreamDestroy c ∉ ops →
  held c p →
  held c (run_all ops p) ∧ no_stream_on c p (run_all ops p).
Proof.
  revert p. induction ops as [|o ops IH]; intros p Hops Hheld.
  - split; [done | by apply no_stream_on_same].
  - apply not_elem_of_cons in Hops as [Ho Hops].
    destruct (run_held o c p) as [Hh Hns]; [congruence | done |].
    destruct (IH (run o p) Hops Hh) as [Hh' Hns'].
    split; [done|]. by eapply no_stream_on_trans.
Qed.

Lemma getAvailableClient_object connectOk p c reason p1 :
  (∀ c', c' ∈ availableClients p → is_Some (clients p !! c')) →
  getAvailableClient connectOk p = (Some c, reason, p1) →
  is_Some (clients p1 !! c).
Proof.
  intros Hobj. unfold getAvailableClient.
  destruct (Nat.eqb_spec (length (availableClients p)) 0) as [Hlen|Hlen].
  - destruct (totalClientCount p <? Max (connections p)); [|discriminate].
    unfold newActiveClient. destruct connectOk; [|discriminate].
    intros [= <- <- <-]. simpl. by rewrite lookup_insert_eq.
  - destruct (availableClients p !! (length (availableClients p) - 1)%nat)
      as [c'|] eqn:Hc; [|discriminate].
    intros [= <- <- <-]. simpl. apply Hobj. by eapply list_elem_of_lookup_2.
Qed.

(** C4. [NewStream] with a client in hand while the requests limit of the
    cluster refuses: the listener gets [OnFailure] with reason [Overflow]
    and nothing else, the host and the cluster counter
    UpstreamRequestPendingOverflow go up by one, and the client stays
    counted, open and outside the free list. No stream is opened on the
    client, so no stream destroy answers this call; and whatever the pool
    is asked to do afterwards, short of [onStreamDestroy] on that very
    client, the client is not in the free list and no stream is opened on
    it. The client is not returned: the pool has lost it. *)
Theorem NewStream_request_overflow (connectOk : bool) (p p1 : connPool)
    (c : clientRef) (reason : PoolFailureReason) :
  pool_inv p →
  (∀ c', c' ∈ availableClients p → is_Some (clients p !! c')) →
  getAvailableClient connectOk p = (Some c, reason, p1) →
  CanCreate (requests p) = false →
  (let p2 := NewStream connectOk p in
  out p2 = out p1 ++ [EOnFailure Overflow] ∧
  counter (hostStats p2) "UpstreamRequestPendingOverflow" =
    counter (hostStats p) "UpstreamRequestPendingOverflow" + 1 ∧
  counter (clusterStats p2) "UpstreamRequestPendingOverflow" =
    counter (clusterStats p) "UpstreamRequestPendingOverflow" + 1 ∧
  requests p2 = requests p ∧
  clients p2 = clients p1 ∧
  totalClientCount p2 = totalClientCount p1 ∧
  availableClients p2 = availableClients p1 ∧
  (c ∉ availableClients p2) ∧
  closed (client_of p2 c) = false ∧
  ∀ ops, OpOnStreamDestroy c ∉ ops →
    (c ∉ availableClients (run_all ops p2)) ∧
    ∃ evs, out (run_all ops p2) = out p2 ++ evs ∧ ECodecNewStream c ∉ evs).
Proof.
  intros Hinv Hobj Hget Hfull.
  destruct (getAvailableClient_some _ _ _ _ _ Hinv Hget)
    as (Hreq & Hhost & Hcluster & Hout & Hopen).
  pose proof (getAvailableClient_object _ _ _ _ _ Hobj Hget) as Hc.
  unfold NewStream. rewrite Hget, Hreq, Hfull. simpl.
  rewrite !counter_Inc_eq, Hhost, Hcluster.
  repeat split; try done.
  all: destruct (run_all_held ops c
         (IncBoth "UpstreamRequestPendingOverflow" (emit [EOnFailure Overflow] p1)))
         as [[Hfree _] Hns]; [done | by split | done].
Qed.

End pool.

Arguments connPool R : clear implicits.

(** *** A concrete pool *)

(** A limit that counts: the current use and the maximum. *)
Definition countingResource : Resource (Z * Z) := {|
  CanCreate r := r.1 <? r.2;
  Increase r := (r.1 + 1, r.2);
  Decrease r := (r.1 - 1, r.2);
  Max r := r.2
|}.

(** A pool with at most [maxConns] connections and [maxReqs] requests,
    [avail] in its free list, [total] clients counted and [reqs] requests
    under way; every client object is open. *)
Definition pool_with (maxConns maxReqs : Z) (avail : list clientRef)
    (total reqs : Z) : connPool (Z * Z) :=
  {| availableClients := avail; totalClientCount := total;
     clients := list_to_map ((λ c, (c, zeroClient)) <$> avail);
     hostStats := ∅; clusterStats := ∅;
     connections := (total, maxConns); requests := (reqs, maxReqs);
     out := [] |}.

Lemma pool_with_inv maxConns maxReqs avail total reqs :
  total ≤ maxConns → NoDup avail →
  @pool_inv _ countingResource (pool_with maxConns maxReqs avail total reqs).
Proof.
  intros Hle Hnd. split; simpl; [done| |done].
  intros c Hc. unfold client_of. simpl.
  destruct (list_to_map _ !! c) as [ac|] eqn:Hlk; [|done].
  apply elem_of_list_to_map_2 in Hlk.
  apply list_elem_of_fmap in Hlk as (c' & [= -> ->] & _). done.
Qed.

(** One idle client, counted, with room for a second connection. *)
Definition one_idle : connPool (Z * Z) := pool_with 2 8 [1%positive] 1 0.

(** No client at all. *)
Definition no_client : connPool (Z * Z) := pool_with 2 8 [] 0 0.

(** C1, as the specification words it, fails twice. A stream destroyed on
    a client that sits in the free list puts it there a second time; a
    close event on a pool that counts no client wraps [totalClientCount]
    around to 2^64 - 1, above the limit of 2. Both starting pools satisfy
    the invariant. *)
Lemma pool_invariant_not_unconditional :
  (@pool_wf _ countingResource one_idle ∧ @pool_inv _ countingResource one_idle ∧
   ¬ @pool_inv _ countingResource
       (@run _ countingResource plainEvents (OpOnStreamDestroy 1%positive) one_idle)) ∧
  (@pool_wf _ countingResource no_client ∧ @pool_inv _ countingResource no_client ∧
   ¬ @pool_inv _ countingResource
       (@run _ countingResource plainEvents
             (OpOnConnectionEvent 1%positive RemoteClose) no_client)).
Proof.
  split; (split; [unfold pool_wf; simpl; lia|]);
    (split; [apply pool_with_inv; [lia | repeat constructor; set_solver]|]).
  - intros [_ _ Hnd]. vm_compute in Hnd.
    apply NoDup_cons in Hnd as [Hnot _]. apply Hnot. by apply elem_of_cons; left.
  - intros [Htot _ _]. vm_compute in Htot. by apply Htot.
Qed.

Lemma pool_ops_preserve_invariant_witness :
  @pool_inv _ countingResource
    (@run _ countingResource plainEvents
          (OpOnConnectionEvent 1%positive RemoteClose) one_idle) ∧
  @pool_inv _ countingResource
    (@run _ countingResource plainEvents
          (OpOnStreamDestroy 2%positive) one_idle).
Proof.
  assert (@pool_wf _ countingResource one_idle) as Hwf
    by (unfold pool_wf; simpl; lia).
  assert (@pool_inv _ countingResource one_idle) as Hinv.
  { apply pool_with_inv; [lia|]. apply NoDup_singleton. }
  split.
  - apply (@pool_ops_preserve_invariant _ countingResource plainEvents
             (OpOnConnectionEvent 1%positive RemoteClose) one_idle Hwf Hinv).
    simpl. intros _. lia.
  - apply (@pool_ops_preserve_invariant _ countingResource plainEvents
             (OpOnStreamDestroy 2%positive) one_idle Hwf Hinv).
    simpl. intros Hin. apply list_elem_of_singleton in Hin. discriminate.
Defined.

(** Two connections allowed, two counted, none idle. *)
Definition saturated : connPool (Z * Z) := pool_with 2 8 [] 2 0.

Lemma NewStream_connection_overflow_witness :
  let p' := @NewStream _ countingResource true saturated in
  totalClientCount p' = 2 ∧ clients p' = ∅ ∧
  counter (hostStats p') "UpstreamRequestPendingOverflow" = 1 ∧
  counter (clusterStats p') "UpstreamRequestPendingOverflow" = 1 ∧
  out p' = [EOnFailure Overflow].
Proof.
  destruct (@NewStream_connection_overflow _ countingResource true saturated
              eq_refl ltac:(simpl; lia))
    as (Hcl & _ & Htot & Hhost & Hcluster & _ & Hout).
  repeat split; assumption.
Defined.

(** One idle client, and as many requests under way as the cluster allows. *)
Definition requests_full : connPool (Z * Z) := pool_with 2 8 [1%positive] 1 8.

Lemma NewStream_request_overflow_witness :
  let p2 := @NewStream _ countingResource true requests_full in
  out p2 = [EOnFailure Overflow] ∧
  availableClients p2 = [] ∧
  totalClientCount p2 = 1 ∧
  (1%positive ∉ availableClients
     (@run_all _ countingResource plainEvents
        [OpOnStreamReset 1%positive StreamLocalReset; OpNewStream true; OpClose]
        p2)).
Proof.
  assert (@pool_inv _ countingResource requests_full) as Hinv.
  { apply pool_with_inv; [lia|]. apply NoDup_singleton. }
  destruct (@NewStream_request_overflow _ countingResource plainEvents true
              requests_full (set_available [] requests_full) 1%positive
              NoFailure Hinv)
    as (Hout & _ & _ & _ & _ & Htot & Hav & _ & _ & Hlost).
  - intros c' ->%list_elem_of_singleton. by eexists.
  - reflexivity.
  - reflexivity.
  - split; [exact Hout|]. split; [exact Hav|]. split; [exact Htot|].
    apply Hlost. rewrite !not_elem_of_cons.
    repeat split; [discriminate.. | apply not_elem_of_nil].
Defined.

(** Three requests refused in a row at the requests limit: the first takes
    the idle client, the second opens a second connection and takes that,
    and the third finds the pool at its connection limit. Both clients are
    counted, neither is in the free list, and no stream was opened. *)
Example request_overflow_exhausts_pool :
  let p3 := Nat.iter 3 (@NewStream _ countingResource true) requests_full in
  out p3 = [EOnFailure Overflow; EConnect 2%positive true; EOnFailure Overflow;
            EOnFailure Overflow] ∧
  availableClients p3 = [] ∧
  totalClientCount p3 = 2 ∧
  counter (hostStats p3) "UpstreamRequestPendingOverflow" = 3.
Proof. vm_compute. done. Qed.

End ConnPool.

(* ===================================================================== *)
(** ** Metrics handoff *)
(* ===================================================================== *)

Module Transfer.
Import Types.

Record TransferData := {
  MetricsType : string;
  MetricsKey : string;
  MetricsValues : list Z          (* []int64 *)
}.

Record TransferStats := {
  StatsType : string;             (* the field [Type] *)
  Labels : gmap string string;
  Data : list TransferData
}.

Definition metricsCounter : string := "counter".
Definition metricsGauge : string := "gauge".
Definition metricsHistogram : string := "histogram".

(** The values a go-metrics registry hands to [Each]: a counter with its
    count, a gauge with its value, a histogram with the values of its
    sample, or a metric of another kind. *)
Inductive metric :=
  | Counter (count : Z)
  | Gauge (value : Z)
  | Histogram (values : list Z)
  | Meter.

(** Modelled from the spec: what [GetAll()] shows of one metrics store of
    the process-wide registry (package [metrics] is not among the files):
    its [Type()], its [Labels()], and the keys and metrics in the order
    [Each] visits them. *)
Record Metrics := {
  mType : string;
  mLabels : gmap string string;
  mEach : list (string * metric)
}.

Definition metricsId (m : Metrics) : string * gmap string string :=
  (mType m, mLabels m).

(** The [encoding/gob] encoder and decoder for [[]TransferStats], with the
    one property of them that is used: decoding gives back what was
    encoded. *)
Class Gob := {
  gobEncode : list TransferStats → option (list byte);
  gobDecode : list byte → option (list TransferStats);
  gob_roundtrip ts b : gobEncode ts = Some b → gobDecode b = Some ts
}.

(** The callback given to [metric.Each]: the record appended to [Data], or
    nothing for a metric that is not supported. *)
Definition transferData (kv : string * metric) : option TransferData :=
  match kv.2 with
  | Counter count =>
      Some {| MetricsType := metricsCounter; MetricsKey := kv.1;
              MetricsValues := [count] |}
  | Gauge value =>
      Some {| MetricsType := metricsGauge; MetricsKey := kv.1;
              MetricsValues := [value] |}
  | Histogram values =>
      Some {| MetricsType := metricsHistogram; MetricsKey := kv.1;
              MetricsValues := values |}
  | Meter => None
  end.

Definition transferStats (m : Metrics) : TransferStats :=
  {| StatsType := mType m; Labels := mLabels m;
     Data := omap transferData (mEach m) |}.

(** [makesTransferData], given the result of [GetAll()]; [None] is the
    error of the encoder. *)
Definition makesTransferData `{Gob} (metrics : list Metrics)
  : option (list byte) :=
  gobEncode (transferStats <$> metrics).

(** Modelled from the spec: the receiving registry (package [metrics] is
    not among the files). [NewMetrics] finds or creates the store of a type
    and label set; [Counter], [Gauge] and [Histogram] find or create the
    metric of a key, a key held by a metric of another kind makes the type
    assertion panic; a new counter counts 0, [Inc] adds, [Update] of a gauge
    overwrites, [Update] of a histogram adds the value to its sample. *)
Abbreviation store := (gmap string metric).
Abbreviation registry := (gmap (string * gmap string string) (gmap string metric)).

Definition NewMetrics (typ : string) (labels : gmap string string)
    (reg : registry) : store :=
  default ∅ (reg !! (typ, labels)).

Definition CounterInc (key : string) (v : Z) (s : store)
  : outcome store :=
  match s !! key with
  | None => Done (<[key := Counter (0 + v)]> s)
  | Some (Counter c) => Done (<[key := Counter (c + v)]> s)
  | Some _ => Panicked
  end.

Definition GaugeUpdate (key : string) (v : Z) (s : store)
  : outcome store :=
  match s !! key with
  | None | Some (Gauge _) => Done (<[key := Gauge v]> s)
  | Some _ => Panicked
  end.

Definition HistogramGet (key : string) (s : store)
  : outcome store :=
  match s !! key with
  | None => Done (<[key := Histogram []]> s)
  | Some (Histogram _) => Done s
  | Some _ => Panicked
  end.

Definition HistogramUpdate (key : string) (v : Z) (s : store)
  : store :=
  match s !! key with
  | Some (Histogram values) => <[key := Histogram (values ++ [v])]> s
  | _ => s
  end.

(** The [switch] of [readTransferData] for one record. *)
Definition applyData (d : TransferData) (s : store)
  : outcome store :=
  if decide (MetricsType d = metricsCounter) then
    match MetricsValues d with
    | v :: _ => CounterInc (MetricsKey d) v s
    | [] => Panicked
    end
  else if decide (MetricsType d = metricsGauge) then
    match MetricsValues d with
    | v :: _ => GaugeUpdate (MetricsKey d) v s
    | [] => Panicked
    end
  else if decide (MetricsType d = metricsHistogram) then
    match HistogramGet (MetricsKey d) s with
    | Done s' => Done (foldl (λ h v, HistogramUpdate (MetricsKey d) v h) s' (MetricsValues d))
    | r => r
    end
  else Done s.

(** [for _, metric := range transfer.Data] *)
Fixpoint applyAll (ds : list TransferData) (s : store)
  : outcome store :=
  match ds with
  | [] => Done s
  | d :: ds' =>
      match applyData d s with
      | Done s' => applyAll ds' s'
      | r => r
      end
  end.

(** [for _, transfer := range transfers] *)
Fixpoint applyTransfers (ts : list TransferStats)
    (reg : registry)
  : outcome (registry) :=
  match ts with
  | [] => Done reg
  | t :: ts' =>
      let s := NewMetrics (StatsType t) (Labels t) reg in
      match applyAll (Data t) s with
      | Done s' => applyTransfers ts' (<[(StatsType t, Labels t) := s']> reg)
      | Blocked => Blocked
      | Panicked => Panicked
      end
  end.

Inductive error := gobError.

(** [readTransferData]: the error it returns and the registry afterwards. *)
Definition readTransferData `{Gob} (b : list byte)
    (reg : registry)
  : outcome (option error * registry) :=
  match gobDecode b with
  | None => Done (Some gobError, reg)
  | Some transfers =>
      match applyTransfers transfers reg with
      | Done reg' => Done (None, reg')
      | Blocked => Blocked
      | Panicked => Panicked
      end
  end.

(** The metric a registry holds for a store and a key. *)
Definition lookup_metric (reg : registry)
    (i : string * gmap string string) (key : string) : option metric :=
  reg !! i ≫= λ s : store, s !! key.

(** What the receiver is to hold for a metric of the sender. *)
Definition recreated (v : metric) : option metric :=
  match v with
  | Meter => None
  | _ => Some v
  end.

(** *** The round trip *)

Lemma foldl_HistogramUpdate key vs (s : store) values :
  s !! key = Some (Histogram values) →
  foldl (λ h v, HistogramUpdate key v h) s vs !! key
    = Some (Histogram (values ++ vs)) ∧
  ∀ k, k ≠ key → foldl (λ h v, HistogramUpdate key v h) s vs !! k = s !! k.
Proof.
  revert s values. induction vs as [|v vs IH]; intros s values Hs; simpl.
  - by rewrite app_nil_r.
  - destruct (IH (HistogramUpdate key v s) (values ++ [v])) as [Hk Hother].
    { unfold HistogramUpdate. rewrite Hs. by rewrite lookup_insert_eq. }
    split; [by rewrite Hk, <- app_assoc|].
    intros k Hne. rewrite (Hother k Hne). unfold HistogramUpdate. rewrite Hs.
    by rewrite lookup_insert_ne.
Qed.

Lemma applyData_fresh kv d (s : store) :
  transferData kv = Some d → s !! kv.1 = None →
  ∃ s', applyData d s = Done s' ∧ s' !! kv.1 = Some kv.2 ∧
        ∀ k, k ≠ kv.1 → s' !! k = s !! k.
Proof.
  destruct kv as [key v]. unfold transferData. simpl. intros Hd Hs.
  destruct v as [count|value|values|]; [| | |discriminate];
    injection Hd as <-; unfold applyData; simpl.
  - unfold CounterInc. rewrite Hs. eexists. split; [reflexivity|].
    split; [by rewrite lookup_insert_eq|]. intros k Hne. by rewrite lookup_insert_ne.
  - unfold GaugeUpdate. rewrite Hs. eexists. split; [reflexivity|].
    split; [by rewrite lookup_insert_eq|]. intros k Hne. by rewrite lookup_insert_ne.
  - unfold HistogramGet. rewrite Hs. eexists. split; [reflexivity|].
    destruct (foldl_HistogramUpdate key values (<[key := Histogram []]> s) [])
      as [Hk Hother]; [by rewrite lookup_insert_eq|].
    split; [exact Hk|]. intros k Hne. rewrite (Hother k Hne).
    by rewrite lookup_insert_ne.
Qed.

Lemma applyAll_entries (es : list (string * metric)) (s : store) :
  NoDup es.*1 → (∀ k, k ∈ es.*1 → s !! k = None) →
  ∃ s', applyAll (omap transferData es) s = Done s' ∧
        (∀ k v, (k, v) ∈ es → s' !! k = recreated v) ∧
        (∀ k, k ∉ es.*1 → s' !! k = s !! k).
Proof.
  revert s. induction es as [|[key v] es IH]; intros s Hnd Hfresh.
  - exists s. split; [done|]. split; [|done]. intros k v Hin.
    by apply elem_of_nil in Hin.
  - simpl in Hnd. apply NoDup_cons in Hnd as [Hkey Hnd].
    assert (s !! key = None) as Hs by (apply Hfresh; simpl; by apply elem_of_cons; left).
    destruct (transferData (key, v)) as [d|] eqn:Hd.
    + destruct (applyData_fresh (key, v) d s Hd Hs) as (s1 & Hrun & Hk & Hother).
      destruct (IH s1 Hnd) as (s' & Hall & Hes & Hrest).
      { intros k Hk'. rewrite Hother.
        - apply Hfresh. simpl. by apply elem_of_cons; right.
        - simpl. intros ->. done. }
      exists s'. simpl. rewrite Hd. simpl. rewrite Hrun. split; [exact Hall|].
      split.
      * intros k v' [[= -> ->]|Hin]%elem_of_cons; [|by apply Hes].
        rewrite (Hrest key Hkey). simpl in Hk. rewrite Hk.
        by destruct v.
      * intros k Hk'. simpl in Hk'. apply not_elem_of_cons in Hk' as [Hne Hk'].
        rewrite (Hrest k Hk'). by apply Hother.
    + destruct (IH s Hnd) as (s' & Hall & Hes & Hrest).
      { intros k Hk'. apply Hfresh. simpl. by apply elem_of_cons; right. }
      exists s'. simpl. rewrite Hd. split; [exact Hall|]. split.
      * intros k v' [[= -> ->]|Hin]%elem_of_cons; [|by apply Hes].
        rewrite (Hrest key Hkey), Hs.
        destruct v; try discriminate. done.
      * intros k Hk'. simpl in Hk'. apply not_elem_of_cons in Hk' as [Hne Hk'].
        by apply Hrest.
Qed.

Lemma applyTransfers_metrics (ms : list Metrics)
    (reg : registry) :
  NoDup (metricsId <$> ms) →
  (∀ m, m ∈ ms → NoDup (mEach m).*1) →
  (∀ m, m ∈ ms → reg !! metricsId m = None) →
  ∃ reg', applyTransfers (transferStats <$> ms) reg = Done reg' ∧
    (∀ m key v, m ∈ ms → (key, v) ∈ mEach m →
       lookup_metric reg' (metricsId m) key = recreated v) ∧
    (∀ i, i ∉ metricsId <$> ms → reg' !! i = reg !! i).
Proof.
  revert reg. induction ms as [|m ms IH]; intros reg Hnd Hkeys Hfresh.
  - exists reg. split; [done|]. split; [|done]. intros m key v Hin.
    by apply elem_of_nil in Hin.
  - simpl in Hnd. apply NoDup_cons in Hnd as [Hid Hnd].
    assert (reg !! metricsId m = None) as Hreg
      by (apply Hfresh; by apply elem_of_cons; left).
    destruct (applyAll_entries (mEach m) ∅) as (s' & Hall & Hes & _).
    { apply Hkeys. by apply elem_of_cons; left. }
    { intros k _. apply lookup_empty. }
    destruct (IH (<[metricsId m := s']> reg) Hnd) as (reg' & Hrun & Hms & Hrest).
    { intros m' Hm'. apply Hkeys. by apply elem_of_cons; right. }
    { intros m' Hm'. rewrite lookup_insert_ne.
      - apply Hfresh. by apply elem_of_cons; right.
      - intros Heq. apply Hid. rewrite Heq. apply list_elem_of_fmap. by exists m'. }
    exists reg'. simpl. unfold NewMetrics. simpl.
    change (mType m, mLabels m) with (metricsId m).
    rewrite Hreg. simpl. rewrite Hall. split; [exact Hrun|]. split.
    + intros m' key v [->|Hin]%elem_of_cons Hkv; [|by apply Hms].
      unfold lookup_metric. rewrite (Hrest _ Hid), lookup_insert_eq. simpl.
      by apply Hes.
    + intros i Hi. simpl in Hi. apply not_elem_of_cons in Hi as [Hne Hi].
      rewrite (Hrest i Hi). by rewrite lookup_insert_ne.
Qed.

(** C8. The bytes [makesTransferData] produces for a registry, read by
    [readTransferData] into an empty registry, are accepted without error,
    and the receiver then holds, under the same type, labels and key, every
    counter with the same count, every gauge with the same value and every
    histogram with the same sample values; a metric of another kind is not
    carried over. A registry holds one store per type and label set and one
    metric per key. *)
Theorem transfer_roundtrip `{Gob} (metrics : list Metrics) (b : list byte) :
  NoDup (metricsId <$> metrics) →
  (∀ m, m ∈ metrics → NoDup (mEach m).*1) →
  makesTransferData metrics = Some b →
  ∃ reg, readTransferData b ∅ = Done (None, reg) ∧
    ∀ m key v, m ∈ metrics → (key, v) ∈ mEach m →
      lookup_metric reg (metricsId m) key =
        match v with
        | Counter count => Some (Counter count)
        | Gauge value => Some (Gauge value)
        | Histogram values => Some (Histogram values)
        | Meter => None
        end.
Proof.
  intros Hids Hkeys Hmake. unfold makesTransferData in Hmake.
  apply gob_roundtrip in Hmake.
  destruct (applyTransfers_metrics metrics ∅ Hids Hkeys)
    as (reg & Hrun & Hms & _); [intros m _; apply lookup_empty|].
  exists reg. unfold readTransferData. rewrite Hmake, Hrun.
  split; [done|]. intros m key v Hm Hkv. rewrite (Hms m key v Hm Hkv).
  by destruct v.
Qed.

(** *** An encoder to run the round trip with *)

#[global] Instance TransferData_eq_dec : EqDecision TransferData.
Proof. solve_decision. Defined.

#[global] Instance TransferData_countable : Countable TransferData.
Proof.
  apply (inj_countable'
    (λ d, (MetricsType d, MetricsKey d, MetricsValues d))
    (λ t, {| MetricsType := t.1.1; MetricsKey := t.1.2; MetricsValues := t.2 |})).
  by intros [].
Defined.

#[global] Instance TransferStats_eq_dec : EqDecision TransferStats.
Proof. solve_decision. Defined.

#[global] Instance TransferStats_countable : Countable TransferStats.
Proof.
  apply (inj_countable'
    (λ t, (StatsType t, Labels t, Data t))
    (λ t, {| StatsType := t.1.1; Labels := t.1.2; Data := t.2 |})).
  by intros [].
Defined.

(** The binary digits of a code, one per byte, lowest first. *)
Fixpoint pos_bytes (p : positive) : list byte :=
  match p with
  | xH => []
  | xO q => x00 :: pos_bytes q
  | xI q => x01 :: pos_bytes q
  end.

Fixpoint bytes_pos (b : list byte) : option positive :=
  match b with
  | [] => Some xH
  | x :: rest =>
      match bytes_pos rest with
      | Some q =>
          if Byte.eqb x x00 then Some (xO q)
          else if Byte.eqb x x01 then Some (xI q)
          else None
      | None => None
      end
  end.

Lemma bytes_pos_bytes p : bytes_pos (pos_bytes p) = Some p.
Proof. induction p as [q IH|q IH|]; simpl; [| |done]; by rewrite IH. Qed.

(** An encoder in the place of gob: the records are numbered, the number
    is written out in binary. *)
Definition digitGob : Gob.
Proof.
  refine {| gobEncode ts := Some (pos_bytes (encode ts));
            gobDecode b := bytes_pos b ≫= decode |}.
  intros ts b [= <-]. rewrite bytes_pos_bytes. simpl. apply decode_encode.
Defined.

(** A host store with a metric of each kind. *)
Definition host_store : Metrics :=
  {| mType := "host"; mLabels := {[ "host" := "10.0.0.1:80" ]}%string;
     mEach := [("request_total", Counter 5); ("connection_active", Gauge 7);
               ("request_duration", Histogram [12; 3; 40]);
               ("request_rate", Meter)]%string |}.

Lemma transfer_roundtrip_witness :
  ∃ b reg,
    @makesTransferData digitGob [host_store] = Some b ∧
    @readTransferData digitGob b ∅ = Done (None, reg) ∧
    lookup_metric reg (metricsId host_store) "request_total" = Some (Counter 5) ∧
    lookup_metric reg (metricsId host_store) "connection_active" = Some (Gauge 7) ∧
    lookup_metric reg (metricsId host_store) "request_duration"
      = Some (Histogram [12; 3; 40]).
Proof.
  exists (pos_bytes (encode (transferStats <$> [host_store]))).
  destruct (@transfer_roundtrip digitGob [host_store]
              (pos_bytes (encode (transferStats <$> [host_store]))))
    as (reg & Hread & Hreg).
  - apply NoDup_singleton.
  - intros m ->%list_elem_of_singleton. simpl.
    apply (bool_decide_unpack _). reflexivity.
  - reflexivity.
  - exists reg. split; [reflexivity|]. split; [exact Hread|].
    assert (host_store ∈ [host_store]) as Hin by (by apply list_elem_of_singleton).
    split; [|split].
    + apply (Hreg host_store _ (Counter 5) Hin). simpl. rewrite !elem_of_cons. by left.
    + apply (Hreg host_store _ (Gauge 7) Hin). simpl. rewrite !elem_of_cons.
      right. by left.
    + apply (Hreg host_store _ (Histogram [12; 3; 40]) Hin). simpl.
      rewrite !elem_of_cons. right. right. by left.
Defined.

End Transfer.

(* ===================================================================== *)
(** ** Keep-alive controller *)
(* ===================================================================== *)

Module KeepAlive.

(** [types.KeepAliveStatus] *)
Inductive KeepAliveStatus := KeepAliveSuccess | KeepAliveTimeout.

(** A registered status callback, known by its position of registration. *)
Definition callback := nat.

Inductive effect :=
  | ESendHeartbeat (reqID : Z)
  | ECallback (cb : callback) (status : KeepAliveStatus)
  | ECodecClose.

(** Modelled from the spec: the keep-alive controller [sofaRPCKeepAlive]
    (only its test is among the files). It carries a failure threshold, the
    count of consecutive timeouts, an idle counter with its maximum, the
    stopped state, the status callbacks and the map of pending probes, each
    with a running timer. *)
Record sofaRPCKeepAlive := {
  Threshold : Z;
  timeoutCount : Z;
  idleCount : Z;
  maxIdleCount : Z;             (* 0: no idle watch *)
  stopped : bool;               (* the stop channel is closed *)
  Callbacks : list callback;
  nextID : Z;
  pending : gset Z;             (* the request IDs of the pending map *)
  out : list effect
}.

(** Modelled from the spec: the status callbacks are called in the order
    of their registration. *)
Definition notify (status : KeepAliveStatus) (k : sofaRPCKeepAlive) : list effect :=
  (λ cb, ECallback cb status) <$> Callbacks k.

(** Modelled from the spec: closing the codec and going to Stopped. *)
Definition stop (k : sofaRPCKeepAlive) : sofaRPCKeepAlive :=
  {| Threshold := Threshold k; timeoutCount := timeoutCount k;
     idleCount := idleCount k; maxIdleCount := maxIdleCount k;
     stopped := true; Callbacks := Callbacks k; nextID := nextID k;
     pending := pending k; out := out k ++ [ECodecClose] |}.

(** Modelled from the spec: [AddCallback] appends to the list of status
    callbacks. *)
Definition AddCallback (cb : callback) (k : sofaRPCKeepAlive) : sofaRPCKeepAlive :=
  {| Threshold := Threshold k; timeoutCount := timeoutCount k;
     idleCount := idleCount k; maxIdleCount := maxIdleCount k;
     stopped := stopped k; Callbacks := Callbacks k ++ [cb]; nextID := nextID k;
     pending := pending k; out := out k |}.

(** Modelled from the spec: [SendKeepAlive] does nothing once stopped;
    else it counts the probe for the idle watch, which stops the controller
    when the maximum is reached, and otherwise sends a heartbeat under a
    fresh request ID that it records as pending. *)
Definition SendKeepAlive (k : sofaRPCKeepAlive) : sofaRPCKeepAlive :=
  if stopped k then k
  else if (0 <? maxIdleCount k) && (maxIdleCount k <=? idleCount k + 1) then
    stop {| Threshold := Threshold k; timeoutCount := timeoutCount k;
            idleCount := idleCount k + 1; maxIdleCount := maxIdleCount k;
            stopped := stopped k; Callbacks := Callbacks k; nextID := nextID k;
            pending := pending k; out := out k |}
  else
    {| Threshold := Threshold k; timeoutCount := timeoutCount k;
       idleCount := idleCount k + 1; maxIdleCount := maxIdleCount k;
       stopped := stopped k; Callbacks := Callbacks k; nextID := nextID k + 1;
       pending := {[nextID k]} ∪ pending k;
       out := out k ++ [ESendHeartbeat (nextID k)] |}.

(** Modelled from the spec: a stream of the application resets the idle
    counter. *)
Definition OnNewStream (k : sofaRPCKeepAlive) : sofaRPCKeepAlive :=
  {| Threshold := Threshold k; timeoutCount := timeoutCount k;
     idleCount := 0; maxIdleCount := maxIdleCount k;
     stopped := stopped k; Callbacks := Callbacks k; nextID := nextID k;
     pending := pending k; out := out k |}.

(** Modelled from the spec: a response whose request ID is pending cancels
    the timer, removes the entry, resets [timeoutCount] to zero and calls
    the callbacks with Success; any other response is not for the
    controller. *)
Definition HandleSuccess (reqID : Z) (k : sofaRPCKeepAlive) : sofaRPCKeepAlive :=
  if decide (reqID ∈ pending k) then
    {| Threshold := Threshold k; timeoutCount := 0;
       idleCount := idleCount k; maxIdleCount := maxIdleCount k;
       stopped := stopped k; Callbacks := Callbacks k; nextID := nextID k;
       pending := pending k ∖ {[reqID]};
       out := out k ++ notify KeepAliveSuccess k |}
  else k.

(** Modelled from the spec: a timer that fires while its request ID is
    pending removes the entry, increments [timeoutCount] and calls the
    callbacks with Timeout; at the threshold the codec is closed and the
    controller stops. A timer whose entry is gone does nothing. *)
Definition HandleTimeout (reqID : Z) (k : sofaRPCKeepAlive) : sofaRPCKeepAlive :=
  if decide (reqID ∈ pending k) then
    let k' :=
      {| Threshold := Threshold k; timeoutCount := timeoutCount k + 1;
         idleCount := idleCount k; maxIdleCount := maxIdleCount k;
         stopped := stopped k; Callbacks := Callbacks k; nextID := nextID k;
         pending := pending k ∖ {[reqID]};
         out := out k ++ notify KeepAliveTimeout k |} in
    if Threshold k' <=? timeoutCount k' then stop k' else k'
  else k.

(** Modelled from the spec: a new controller, as [NewSofaRPCKeepAlive]
    gives it to the test: no timeout counted, nothing pending, no idle
    watch. *)
Definition NewSofaRPCKeepAlive (thres : Z) : sofaRPCKeepAlive :=
  {| Threshold := thres; timeoutCount := 0; idleCount := 0; maxIdleCount := 0;
     stopped := false; Callbacks := []; nextID := 1; pending := ∅; out := [] |}.

(** A probe that is sent and times out. *)
Definition probe_times_out (k : sofaRPCKeepAlive) : sofaRPCKeepAlive :=
  HandleTimeout (nextID k) (SendKeepAlive k).

(** A probe that is sent and answered. *)
Definition probe_succeeds (k : sofaRPCKeepAlive) : sofaRPCKeepAlive :=
  HandleSuccess (nextID k) (SendKeepAlive k).

(** C9. Whatever probe timeouts came before, one response that matches a
    pending probe leaves [timeoutCount] at zero, and the callbacks are
    called with Success. *)
Theorem success_resets_timeoutCount (k : sofaRPCKeepAlive)
    (timedOut : list Z) (reqID : Z) :
  let k' := foldl (λ k0 i, HandleTimeout i k0) k timedOut in
  reqID ∈ pending k' →
  timeoutCount (HandleSuccess reqID k') = 0 ∧
  out (HandleSuccess reqID k') =
    out k' ++ ((λ cb, ECallback cb KeepAliveSuccess) <$> Callbacks k') ∧
  reqID ∉ pending (HandleSuccess reqID k').
Proof.
  intros k' Hin. unfold HandleSuccess. rewrite decide_True by done. simpl.
  split; [done|]. split; [done|].
  intros [_ Hnot]%elem_of_difference. apply Hnot. by apply elem_of_singleton.
Qed.

(** The recovery scenario: threshold 6, five probes that time out, then
    one that is answered. *)
Definition recovery : sofaRPCKeepAlive :=
  probe_succeeds
    (Nat.iter 5 probe_times_out (AddCallback 0%nat (NewSofaRPCKeepAlive 6))).

Example recovery_scenario :
  timeoutCount recovery = 0 ∧ stopped recovery = false ∧
  out recovery =
    [ESendHeartbeat 1; ECallback 0%nat KeepAliveTimeout;
     ESendHeartbeat 2; ECallback 0%nat KeepAliveTimeout;
     ESendHeartbeat 3; ECallback 0%nat KeepAliveTimeout;
     ESendHeartbeat 4; ECallback 0%nat KeepAliveTimeout;
     ESendHeartbeat 5; ECallback 0%nat KeepAliveTimeout;
     ESendHeartbeat 6; ECallback 0%nat KeepAliveSuccess].
Proof. vm_compute. done. Qed.

Lemma success_resets_timeoutCount_witness :
  timeoutCount
    (HandleSuccess 6
       (foldl (λ k0 i, HandleTimeout i k0)
          (Nat.iter 6 SendKeepAlive (AddCallback 0%nat (NewSofaRPCKeepAlive 6)))
          [1; 2; 3; 4; 5])) = 0.
Proof.
  refine (proj1 (success_resets_timeoutCount
            (Nat.iter 6 SendKeepAlive (AddCallback 0%nat (NewSofaRPCKeepAlive 6)))
            [1; 2; 3; 4; 5] 6 _)).
  vm_compute. reflexivity.
Defined.

End KeepAlive.

(* ===================================================================== *)
(** ** More on the connection pool *)
(* ===================================================================== *)

Module ConnPoolProps.
Import Types ConnPool.

(** Reading a counter after a chain of increments. *)
Ltac counters :=
  repeat (rewrite counter_Inc_eq || rewrite counter_Inc_ne by done).

Section props.
Context {R : Type} {HR : Resource R} {HE : EventKinds}.

Lemma remove_client_other client c (l : list clientRef) :
  c ≠ client → c ∈ l → c ∈ remove_client client l.
Proof.
  intros Hne. induction l as [|x l IH]; simpl; [done|].
  intros [->|Hin]%elem_of_cons.
  - rewrite decide_False by done. by apply elem_of_cons; left.
  - destruct (decide (x = client)); [done|]. apply elem_of_cons. right. by apply IH.
Qed.

Lemma remove_client_absent client (l : list clientRef) :
  client ∉ l → remove_client client l = l.
Proof.
  induction l as [|x l IH]; simpl; [done|].
  intros [Hne Hl]%not_elem_of_cons.
  rewrite decide_False by done. by rewrite IH.
Qed.

Lemma counter_Dec_eq name n stats :
  counter (Dec name n stats) name = counter stats name - n.
Proof. unfold counter at 1, Dec. by rewrite lookup_insert_eq. Qed.

Lemma counter_Dec_ne name name' n stats :
  name ≠ name' → counter (Dec name n stats) name' = counter stats name'.
Proof. intros Hne. unfold counter, Dec. by rewrite lookup_insert_ne. Qed.

(** X1. The free list is a stack: the client that [onStreamDestroy] has just
    returned is the one the next [getAvailableClient] hands out, and the
    free list, the count and the client objects are then as they were before
    the two calls; no connection is opened. *)
Theorem destroy_then_get (connectOk : bool) (c : clientRef) (p : connPool R) :
  closed (client_of p c) = false →
  ∃ p', getAvailableClient connectOk (onStreamDestroy c p) = (Some c, NoFailure, p') ∧
        availableClients p' = availableClients p ∧
        totalClientCount p' = totalClientCount p ∧
        clients p' = clients p ∧
        out p' = out p.
Proof.
  intros Hopen. unfold onStreamDestroy. simpl.
  change (client_of _ c) with (client_of p c). rewrite Hopen. simpl.
  unfold getAvailableClient. simpl.
  rewrite length_app. simpl.
  replace (length (availableClients p) + 1 =? 0)%nat with false
    by (symmetry; apply Nat.eqb_neq; lia).
  replace (length (availableClients p) + 1 - 1)%nat
    with (length (availableClients p)) by lia.
  rewrite lookup_app_r by lia. rewrite Nat.sub_diag. simpl.
  eexists. split; [reflexivity|]. simpl.
  by rewrite take_app_length.
Qed.

(** X2. A close event marks the client closed and takes it out of the free
    list, the other free clients stay; a stream destroyed on that client
    afterwards does not bring it back. *)
Theorem closed_client_stays_out (c : clientRef) (event : ConnectionEvent)
    (p : connPool R) :
  IsClose event = true →
  NoDup (availableClients p) →
  closed (client_of (onConnectionEvent c event p) c) = true ∧
  (c ∉ availableClients (onConnectionEvent c event p)) ∧
  (∀ c', c' ≠ c → c' ∈ availableClients p →
         c' ∈ availableClients (onConnectionEvent c event p)) ∧
  availableClients (onStreamDestroy c (onConnectionEvent c event p))
    = availableClients (onConnectionEvent c event p).
Proof.
  intros Hclose Hnd. unfold onConnectionEvent. rewrite Hclose.
  set (p1 := if closeWithActiveReq (client_of p c) then _ else p).
  assert (availableClients p1 = availableClients p) as Ha.
  { unfold p1. destruct (closeWithActiveReq _); [|done].
    destruct (decide (event = LocalClose)); [done|].
    by destruct (decide (event = RemoteClose)). }
  clearbody p1. simpl. rewrite Ha.
  assert (closed (client_of
            (set_clients
               (<[c := set_closed
                         (client_of (set_available (remove_client c (availableClients p))
                            (set_total (uint64_wrap (totalClientCount p1 - 1)) p1)) c)]>
                  (clients p1))
               (set_available (remove_client c (availableClients p))
                  (set_total (uint64_wrap (totalClientCount p1 - 1)) p1))) c) = true)
    as Hclosed.
  { unfold client_of. simpl. by rewrite lookup_insert_eq. }
  split; [exact Hclosed|]. split; [by apply remove_client_gone|].
  split; [intros c' Hne Hin; by apply remove_client_other|].
  unfold onStreamDestroy.
  match goal with
  | |- context [closed (client_of ?q c)] =>
      replace (closed (client_of q c)) with true
  end; done.
Qed.

Lemma getAvailableClient_requests connectOk (p : connPool R) :
  requests (getAvailableClient connectOk p).2 = requests p.
Proof.
  unfold getAvailableClient.
  destruct (length (availableClients p) =? 0)%nat.
  - destruct (totalClientCount p <? Max (connections p)); [|done].
    unfold newActiveClient. by destruct connectOk.
  - by destruct (availableClients p !! _).
Qed.

(** X3. With an empty free list and room under the connection limit,
    [getAvailableClient] creates a client object that did not exist before,
    open and without streams, counts it, and starts its connect; when the
    connect succeeds the client is handed out and the two connection
    counters of host and cluster go up by one. *)
Theorem getAvailableClient_new_connection (p : connPool R) :
  availableClients p = [] →
  0 ≤ totalClientCount p < Max (connections p) →
  Max (connections p) < 2 ^ 64 →
  ∃ ac p', getAvailableClient true p = (Some ac, NoFailure, p') ∧
    clients p !! ac = None ∧
    clients p' = <[ac := zeroClient]> (clients p) ∧
    totalClientCount p' = totalClientCount p + 1 ∧
    availableClients p' = [] ∧
    out p' = out p ++ [EConnect ac true] ∧
    counter (hostStats p') "UpstreamConnectionTotal" =
      counter (hostStats p) "UpstreamConnectionTotal" + 1 ∧
    counter (hostStats p') "UpstreamConnectionActive" =
      counter (hostStats p) "UpstreamConnectionActive" + 1 ∧
    counter (clusterStats p') "UpstreamConnectionTotal" =
      counter (clusterStats p) "UpstreamConnectionTotal" + 1 ∧
    counter (clusterStats p') "UpstreamConnectionActive" =
      counter (clusterStats p) "UpstreamConnectionActive" + 1.
Proof.
  intros Hnil Htot Hmax. unfold getAvailableClient. rewrite Hnil. simpl.
  destruct (Z.ltb_spec (totalClientCount p) (Max (connections p))); [|lia].
  unfold newActiveClient. simpl. rewrite uint64_wrap_id by lia.
  eexists _, _. split; [reflexivity|]. simpl.
  split; [apply not_elem_of_dom, is_fresh|].
  rewrite Hnil. counters. done.
Qed.

(** X4. A connect that fails still uses up a connection slot: [NewStream]
    reports [ConnectionFailure] to the listener, opens no stream and leaves
    the requests limit alone, and [totalClientCount] has gone up by one.
    The event with which the connection reports the failure to the new
    client does not give the slot back: [ConnectFailed] counts
    UpstreamConnectionConFail and [ConnectTimeout] counts
    UpstreamRequestTimeout and closes the codec, for host and cluster, and
    the count stays; only a close event of that client takes the count down
    again. *)
Theorem NewStream_connect_failure (p : connPool R) :
  availableClients p = [] →
  0 ≤ totalClientCount p < Max (connections p) →
  Max (connections p) < 2 ^ 64 →
  (let ac := fresh (dom (clients p)) in
   let q := NewStream false p in
   out q = out p ++ [EConnect ac false; EOnFailure ConnectionFailure] ∧
   totalClientCount q = totalClientCount p + 1 ∧
   availableClients q = [] ∧
   requests q = requests p ∧
   (IsClose ConnectFailed = false →
      counter (hostStats (onConnectionEvent ac ConnectFailed q)) "UpstreamConnectionConFail" =
        counter (hostStats q) "UpstreamConnectionConFail" + 1 ∧
      counter (clusterStats (onConnectionEvent ac ConnectFailed q)) "UpstreamConnectionConFail" =
        counter (clusterStats q) "UpstreamConnectionConFail" + 1 ∧
      totalClientCount (onConnectionEvent ac ConnectFailed q) = totalClientCount p + 1 ∧
      availableClients (onConnectionEvent ac ConnectFailed q) = [] ∧
      out (onConnectionEvent ac ConnectFailed q) = out q) ∧
   (IsClose ConnectTimeout = false →
      counter (hostStats (onConnectionEvent ac ConnectTimeout q)) "UpstreamRequestTimeout" =
        counter (hostStats q) "UpstreamRequestTimeout" + 1 ∧
      counter (clusterStats (onConnectionEvent ac ConnectTimeout q)) "UpstreamRequestTimeout" =
        counter (clusterStats q) "UpstreamRequestTimeout" + 1 ∧
      totalClientCount (onConnectionEvent ac ConnectTimeout q) = totalClientCount p + 1 ∧
      availableClients (onConnectionEvent ac ConnectTimeout q) = [] ∧
      out (onConnectionEvent ac ConnectTimeout q) = out q ++ [ECodecClose ac]) ∧
   (∀ event, IsClose event = true →
      totalClientCount (onConnectionEvent ac event q) = totalClientCount p ∧
      availableClients (onConnectionEvent ac event q) = [] ∧
      closed (client_of (onConnectionEvent ac event q) ac) = true)).
Proof.
  intros Hnil Htot Hmax.
  assert (NewStream false p =
          emit [EOnFailure ConnectionFailure]
            (emit [EConnect (fresh (dom (clients p))) false]
               (set_clients (<[fresh (dom (clients p)) := zeroClient]> (clients p))
                  (set_total (totalClientCount p + 1) p)))) as ->.
  { unfold NewStream, getAvailableClient. rewrite Hnil. simpl.
    destruct (Z.ltb_spec (totalClientCount p) (Max (connections p))); [|lia].
    unfold newActiveClient. simpl. by rewrite uint64_wrap_id by lia. }
  cbv zeta. split; [simpl; by rewrite <- app_assoc|].
  split; [done|]. split; [done|]. split; [done|].
  split; [intros Hev | split; [intros Hev | intros event Hev]];
    unfold onConnectionEvent; rewrite Hev.
  - rewrite decide_False by done. rewrite decide_True by done. simpl.
    by rewrite !counter_Inc_eq.
  - rewrite decide_True by done. simpl.
    by rewrite !counter_Inc_eq, <- app_assoc.
  - unfold client_of.
    destruct (closeWithActiveReq _); repeat case_decide; simpl;
      rewrite uint64_wrap_id, Hnil, !lookup_insert_eq by lia;
      (split; [lia | done]).
Qed.

(** X5. [NewStream] with a client in hand and the requests limit not reached:
    the stream is opened on the codec of that client and the listener gets
    [OnReady]; the request counters (total and active) of host and cluster go
    up by one, the requests limit is increased once, and the overflow
    counters, the free list and the count are as [getAvailableClient] left
    them. *)
Theorem NewStream_ready (connectOk : bool) (p p1 : connPool R)
    (c : clientRef) (reason : PoolFailureReason) :
  getAvailableClient connectOk p = (Some c, reason, p1) →
  CanCreate (requests p) = true →
  out (NewStream connectOk p) = out p1 ++ [ECodecNewStream c; EOnReady c] ∧
  requests (NewStream connectOk p) = Increase (requests p) ∧
  counter (hostStats (NewStream connectOk p)) "UpstreamRequestTotal" =
    counter (hostStats p1) "UpstreamRequestTotal" + 1 ∧
  counter (hostStats (NewStream connectOk p)) "UpstreamRequestActive" =
    counter (hostStats p1) "UpstreamRequestActive" + 1 ∧
  counter (clusterStats (NewStream connectOk p)) "UpstreamRequestTotal" =
    counter (clusterStats p1) "UpstreamRequestTotal" + 1 ∧
  counter (clusterStats (NewStream connectOk p)) "UpstreamRequestActive" =
    counter (clusterStats p1) "UpstreamRequestActive" + 1 ∧
  counter (hostStats (NewStream connectOk p)) "UpstreamRequestPendingOverflow" =
    counter (hostStats p1) "UpstreamRequestPendingOverflow" ∧
  availableClients (NewStream connectOk p) = availableClients p1 ∧
  totalClientCount (NewStream connectOk p) = totalClientCount p1.
Proof.
  intros Hget Hcan.
  pose proof (getAvailableClient_requests connectOk p) as Hreq.
  rewrite Hget in Hreq. simpl in Hreq.
  unfold NewStream. rewrite Hget, Hreq, Hcan. simpl.
  rewrite Hreq. counters. done.
Qed.

(** X6. A stream that is opened and then destroyed leaves the active-request
    counters of host and cluster where they were, and the client is back at
    the end of the free list. *)
Theorem NewStream_then_destroy (connectOk : bool) (p p1 : connPool R)
    (c : clientRef) (reason : PoolFailureReason) :
  getAvailableClient connectOk p = (Some c, reason, p1) →
  CanCreate (requests p) = true →
  closed (client_of p1 c) = false →
  counter (hostStats (onStreamDestroy c (NewStream connectOk p))) "UpstreamRequestActive" =
    counter (hostStats p1) "UpstreamRequestActive" ∧
  counter (clusterStats (onStreamDestroy c (NewStream connectOk p))) "UpstreamRequestActive" =
    counter (clusterStats p1) "UpstreamRequestActive" ∧
  requests (onStreamDestroy c (NewStream connectOk p)) = Decrease (Increase (requests p)) ∧
  availableClients (onStreamDestroy c (NewStream connectOk p)) = availableClients p1 ++ [c].
Proof.
  intros Hget Hcan Hopen.
  pose proof (getAvailableClient_requests connectOk p) as Hreq.
  rewrite Hget in Hreq. simpl in Hreq.
  unfold NewStream. rewrite Hget, Hreq, Hcan. simpl.
  unfold onStreamDestroy. simpl.
  change (client_of _ c) with (client_of p1 c). rewrite Hopen. simpl.
  rewrite Hreq, !counter_Dec_eq. counters.
  repeat split; lia.
Qed.

Lemma NewStream_false_step (p : connPool R) :
  availableClients p = [] →
  0 ≤ totalClientCount p < Max (connections p) →
  Max (connections p) < 2 ^ 64 →
  availableClients (NewStream false p) = [] ∧
  totalClientCount (NewStream false p) = totalClientCount p + 1 ∧
  connections (NewStream false p) = connections p.
Proof.
  intros Hnil Htot Hmax. unfold NewStream, getAvailableClient. rewrite Hnil. simpl.
  destruct (Z.ltb_spec (totalClientCount p) (Max (connections p))); [|lia].
  unfold newActiveClient. simpl. rewrite uint64_wrap_id by lia. by rewrite Hnil.
Qed.

Lemma NewStream_false_iter (n : nat) (p : connPool R) :
  availableClients p = [] →
  0 ≤ totalClientCount p →
  totalClientCount p + Z.of_nat n ≤ Max (connections p) →
  Max (connections p) < 2 ^ 64 →
  availableClients (Nat.iter n (NewStream false) p) = [] ∧
  totalClientCount (Nat.iter n (NewStream false) p) = totalClientCount p + Z.of_nat n ∧
  connections (Nat.iter n (NewStream false) p) = connections p.
Proof.
  intros Hnil Hpos. induction n as [|n IH]; intros Hle Hmax.
  - simpl. split; [done|]. split; [lia | done].
  - destruct IH as (Ha & Ht & Hc); [lia | done |].
    simpl. destruct (NewStream_false_step (Nat.iter n (NewStream false) p))
      as (Ha' & Ht' & Hc'); [done | rewrite Ht, Hc; lia | by rewrite Hc |].
    split; [done|]. split; [lia | congruence].
Qed.

(** X7. Failed connects alone exhaust the pool: after as many failed
    [NewStream] calls as there were free slots, with no close event in
    between, the count stands at the limit although no client is in use,
    and every further [NewStream] is refused with [Overflow]. *)
Theorem connect_failures_exhaust_pool (n : nat) (p : connPool R) :
  availableClients p = [] →
  0 ≤ totalClientCount p →
  totalClientCount p + Z.of_nat n = Max (connections p) →
  Max (connections p) < 2 ^ 64 →
  totalClientCount (Nat.iter n (NewStream false) p) = Max (connections p) ∧
  availableClients (Nat.iter n (NewStream false) p) = [] ∧
  ∀ connectOk,
    out (NewStream connectOk (Nat.iter n (NewStream false) p)) =
      out (Nat.iter n (NewStream false) p) ++ [EOnFailure Overflow] ∧
    totalClientCount (NewStream connectOk (Nat.iter n (NewStream false) p)) =
      Max (connections p).
Proof.
  intros Hnil Hpos Hsum Hmax.
  destruct (NewStream_false_iter n p) as (Ha & Ht & Hc); [done | done | lia | done |].
  split; [lia|]. split; [done|]. intros connectOk.
  set (q := Nat.iter n (NewStream false) p) in *. clearbody q.
  unfold NewStream, getAvailableClient. rewrite Ha. simpl.
  rewrite Ht, Hc.
  destruct (Z.ltb_spec (totalClientCount p + Z.of_nat n) (Max (connections p))); [lia|].
  simpl. split; [done | lia].
Qed.

Lemma onStreamReset_connection c reason (p : connPool R) :
  reason = StreamConnectionTermination ∨ reason = StreamConnectionFailed →
  closeWithActiveReq (client_of (onStreamReset c reason p) c) = true ∧
  hostStats (onStreamReset c reason p) =
    Inc "UpstreamRequestFailureEject" 1 (hostStats p) ∧
  clusterStats (onStreamReset c reason p) =
    Inc "UpstreamRequestFailureEject" 1 (clusterStats p).
Proof.
  intros Hreason. unfold onStreamReset. rewrite decide_True by done.
  unfold client_of. simpl. by rewrite lookup_insert_eq.
Qed.

Lemma onStreamReset_stream c reason (p : connPool R) :
  reason = StreamLocalReset ∨ reason = StreamRemoteReset →
  closeWithActiveReq (client_of (onStreamReset c reason p) c)
    = closeWithActiveReq (client_of p c) ∧
  (hostStats (onStreamReset c reason p) =
     Inc "UpstreamRequestLocalReset" 1 (hostStats p) ∨
   hostStats (onStreamReset c reason p) =
     Inc "UpstreamRequestRemoteReset" 1 (hostStats p)) ∧
  (clusterStats (onStreamReset c reason p) =
     Inc "UpstreamRequestLocalReset" 1 (clusterStats p) ∨
   clusterStats (onStreamReset c reason p) =
     Inc "UpstreamRequestRemoteReset" 1 (clusterStats p)).
Proof.
  intros [-> | ->]; unfold onStreamReset; simpl; (split; [done|]);
    split; (by left) || (by right).
Qed.

Lemma onConnectionEvent_close_stats c event (q : connPool R) :
  IsClose event = true →
  hostStats (onConnectionEvent c event q) =
    (if closeWithActiveReq (client_of q c) then
       if decide (event = LocalClose) then
         Inc "UpstreamConnectionLocalCloseWithActiveRequest" 1 (hostStats q)
       else if decide (event = RemoteClose) then
         Inc "UpstreamConnectionRemoteCloseWithActiveRequest" 1 (hostStats q)
       else hostStats q
     else hostStats q) ∧
  clusterStats (onConnectionEvent c event q) =
    (if closeWithActiveReq (client_of q c) then
       if decide (event = LocalClose) then
         Inc "UpstreamConnectionLocalCloseWithActiveRequest" 1 (clusterStats q)
       else if decide (event = RemoteClose) then
         Inc "UpstreamConnectionRemoteCloseWithActiveRequest" 1 (clusterStats q)
       else clusterStats q
     else clusterStats q).
Proof.
  intros Hclose. unfold onConnectionEvent. rewrite Hclose.
  destruct (closeWithActiveReq (client_of q c)); [|done].
  destruct (decide (event = LocalClose)); [done|].
  by destruct (decide (event = RemoteClose)).
Qed.

(** The counter a close event bumps for a client that was reset with
    requests under way. *)
Definition activeCloseCounter (event : ConnectionEvent) : string :=
  if decide (event = LocalClose)
  then "UpstreamConnectionLocalCloseWithActiveRequest"
  else "UpstreamConnectionRemoteCloseWithActiveRequest".

(** X8. A stream reset caused by the connection (termination or failure)
    followed by the local or remote close event of that client counts one
    close-with-active-request, for host and cluster, besides the failure
    eject of the reset; after a local or remote stream reset of a client not
    marked before, the close event counts none. *)
Theorem close_with_active_request (c : clientRef) (event : ConnectionEvent)
    (p : connPool R) :
  event = LocalClose ∨ event = RemoteClose →
  IsClose event = true →
  (∀ reason, reason = StreamConnectionTermination ∨ reason = StreamConnectionFailed →
     counter (hostStats (onConnectionEvent c event (onStreamReset c reason p)))
             (activeCloseCounter event) =
       counter (hostStats p) (activeCloseCounter event) + 1 ∧
     counter (clusterStats (onConnectionEvent c event (onStreamReset c reason p)))
             (activeCloseCounter event) =
       counter (clusterStats p) (activeCloseCounter event) + 1 ∧
     counter (hostStats (onConnectionEvent c event (onStreamReset c reason p)))
             "UpstreamRequestFailureEject" =
       counter (hostStats p) "UpstreamRequestFailureEject" + 1) ∧
  (∀ reason, reason = StreamLocalReset ∨ reason = StreamRemoteReset →
     closeWithActiveReq (client_of p c) = false →
     counter (hostStats (onConnectionEvent c event (onStreamReset c reason p)))
             (activeCloseCounter event) =
       counter (hostStats p) (activeCloseCounter event) ∧
     counter (clusterStats (onConnectionEvent c event (onStreamReset c reason p)))
             (activeCloseCounter event) =
       counter (clusterStats p) (activeCloseCounter event)).
Proof.
  intros Hev Hclose. split.
  - intros reason Hreason.
    destruct (onStreamReset_connection c reason p Hreason) as (Hmark & Hh & Hc).
    destruct (onConnectionEvent_close_stats c event (onStreamReset c reason p) Hclose)
      as [-> ->]. rewrite Hmark, Hh, Hc.
    unfold activeCloseCounter.
    destruct Hev as [-> | ->]; simpl; counters; done.
  - intros reason Hreason Hno.
    destruct (onStreamReset_stream c reason p Hreason) as (Hmark & Hh & Hc).
    destruct (onConnectionEvent_close_stats c event (onStreamReset c reason p) Hclose)
      as [-> ->]. rewrite Hmark, Hno.
    unfold activeCloseCounter.
    destruct Hh as [-> | ->], Hc as [-> | ->], Hev as [-> | ->];
      simpl; counters; done.
Qed.

(** X9. [onStreamReset] touches nothing but statistics and the
    closeWithActiveReq mark: the free list, the count, the requests limit,
    the closed flag of every client and the calls made so far are as
    before. *)
Theorem onStreamReset_only_statistics (c : clientRef)
    (reason : StreamResetReason) (p : connPool R) :
  availableClients (onStreamReset c reason p) = availableClients p ∧
  totalClientCount (onStreamReset c reason p) = totalClientCount p ∧
  requests (onStreamReset c reason p) = requests p ∧
  out (onStreamReset c reason p) = out p ∧
  ∀ c', closed (client_of (onStreamReset c reason p) c') = closed (client_of p c').
Proof.
  unfold onStreamReset. destruct reason; simpl; repeat split; try done.
  all: intros c'; unfold client_of; simpl;
    (destruct (decide (c' = c)) as [->|Hne];
      [by rewrite lookup_insert_eq | by rewrite lookup_insert_ne]).
Qed.

End props.

(** *** The properties at work on a concrete pool *)

#[local] Existing Instance countingResource.
#[local] Existing Instance plainEvents.

Lemma destroy_then_get_witness :
  ∃ p', getAvailableClient true
          (onStreamDestroy 2%positive one_idle)
        = (Some 2%positive, NoFailure, p') ∧
        availableClients p' = [1%positive].
Proof.
  destruct (destroy_then_get true 2%positive one_idle eq_refl)
    as (p' & Hget & Ha & _).
  exists p'. split; [exact Hget | exact Ha].
Defined.

Lemma closed_client_stays_out_witness :
  availableClients
    (onStreamDestroy 1%positive
       (onConnectionEvent 1%positive RemoteClose one_idle))
  = availableClients
      (onConnectionEvent 1%positive RemoteClose one_idle).
Proof.
  exact (proj2 (proj2 (proj2
    (closed_client_stays_out
       1%positive RemoteClose one_idle eq_refl (NoDup_singleton _))))).
Defined.

Lemma getAvailableClient_new_connection_witness :
  ∃ ac p', getAvailableClient true no_client
             = (Some ac, NoFailure, p') ∧
           totalClientCount p' = 1.
Proof.
  destruct (getAvailableClient_new_connection no_client)
    as (ac & p' & Hget & _ & _ & Htot & _);
    [reflexivity | cbn; lia | cbn; lia |].
  exists ac, p'. split; [exact Hget | exact Htot].
Defined.

Lemma NewStream_connect_failure_witness :
  totalClientCount (NewStream false no_client) = 1 ∧
  totalClientCount
    (onConnectionEvent 1%positive ConnectFailed (NewStream false no_client)) = 1 ∧
  totalClientCount
    (onConnectionEvent 1%positive RemoteClose (NewStream false no_client)) = 0.
Proof.
  destruct (NewStream_connect_failure no_client eq_refl)
    as (_ & Htot & _ & _ & Hfail & _ & Hclose); [cbn; lia | cbn; lia |].
  split; [exact Htot|]. split.
  - exact (proj1 (proj2 (proj2 (Hfail eq_refl)))).
  - exact (proj1 (Hclose RemoteClose eq_refl)).
Defined.

Lemma NewStream_ready_witness :
  out (NewStream true one_idle)
    = [ECodecNewStream 1%positive; EOnReady 1%positive] ∧
  requests (NewStream true one_idle) = (1, 8).
Proof.
  destruct (NewStream_ready true one_idle
              (set_available [] one_idle) 1%positive NoFailure)
    as (Hout & Hreq & _); [reflexivity | reflexivity |].
  split; [exact Hout | exact Hreq].
Defined.

Lemma NewStream_then_destroy_witness :
  availableClients
    (onStreamDestroy 1%positive
       (NewStream true one_idle)) = [1%positive].
Proof.
  refine (proj2 (proj2 (proj2
    (NewStream_then_destroy true one_idle (set_available [] one_idle)
       1%positive NoFailure _ _ _)))); reflexivity.
Defined.

Lemma connect_failures_exhaust_pool_witness :
  totalClientCount (Nat.iter 2 (NewStream false) no_client) = 2 ∧
  out (NewStream true
         (Nat.iter 2 (NewStream false) no_client))
    = out (Nat.iter 2 (NewStream false) no_client)
        ++ [EOnFailure Overflow].
Proof.
  destruct (connect_failures_exhaust_pool 2 no_client)
    as (Htot & _ & Hnext); [reflexivity | cbn; lia | reflexivity | cbn; lia |].
  split; [exact Htot | exact (proj1 (Hnext true))].
Defined.

Lemma close_with_active_request_witness :
  counter
    (hostStats
       (onConnectionEvent 1%positive LocalClose
          (onStreamReset 1%positive StreamConnectionTermination one_idle)))
    "UpstreamConnectionLocalCloseWithActiveRequest" = 1.
Proof.
  exact (proj1 (proj1
    (close_with_active_request
       1%positive LocalClose one_idle (or_introl eq_refl) eq_refl)
    StreamConnectionTermination (or_introl eq_refl))).
Defined.

End ConnPoolProps.

(* ===================================================================== *)
(** ** More on the HTTP/1 stream connection *)
(* ===================================================================== *)

Module HttpStreamProps.
Import Types HttpStream.

(** *** The pipe end to end *)

(** [Dispatch(buffer)] together with the reader it feeds. The channel is a
    rendezvous, so the two goroutines can only alternate: the dispatcher
    sends, the reader runs one [Read], the dispatcher takes the sentinel and
    tests the buffer again. [reads] are the slices the reader passes to its
    successive [Read] calls; the result lists what each of them returned.
    With bytes left and no reader the dispatcher stays blocked. *)
Fixpoint Dispatch (reads : list (list byte)) (buffer : bufRef)
    (conn : streamConnection)
  : outcome (list (nat * list byte) * streamConnection) :=
  match bufs conn !! buffer with
  | None => Panicked
  | Some b =>
      if (0 <? Len b)%nat then
        match reads with
        | [] => Blocked
        | p :: reads' =>
            match Dispatch_send buffer conn with
            | Done c1 =>
                match Read p c1 with
                | Done (n, _, p', c2) =>
                    match Dispatch_wait c2 with
                    | Done c3 =>
                        match Dispatch reads' buffer c3 with
                        | Done (rs, c4) => Done ((n, p') :: rs, c4)
                        | Blocked => Blocked
                        | Panicked => Panicked
                        end
                    | Blocked => Blocked
                    | Panicked => Panicked
                    end
                | Blocked => Blocked
                | Panicked => Panicked
                end
            | Blocked => Blocked
            | Panicked => Panicked
            end
        end
      else Done ([], conn)
  end.

(** The bytes one [Read] call delivered: the first [n] bytes of its slice. *)
Definition delivered (r : nat * list byte) : list byte := take r.1 r.2.

Lemma Dispatch_round p buffer conn (data : IoBuffer) :
  bufChan conn = Open None →
  bufs conn !! buffer = Some data →
  (0 < length data)%nat →
  ∃ c3, Dispatch_send buffer conn
          = Done {| bufChan := Open (Some (Some buffer)); bufs := bufs conn |} ∧
        Read p {| bufChan := Open (Some (Some buffer)); bufs := bufs conn |}
          = Done (Nat.min (length p) (length data), None,
                  take (Nat.min (length p) (length data)) data ++
                    drop (Nat.min (length p) (length data)) p,
                  {| bufChan := Open (Some None); bufs := bufs c3 |}) ∧
        Dispatch_wait {| bufChan := Open (Some None); bufs := bufs c3 |} = Done c3 ∧
        bufChan c3 = Open None ∧
        bufs c3 = <[buffer := drop (Nat.min (length p) (length data)) data]> (bufs conn).
Proof.
  intros Hch Hb Hlen.
  exists {| bufChan := Open None;
            bufs := <[buffer := drop (Nat.min (length p) (length data)) data]> (bufs conn) |}.
  split.
  - unfold Dispatch_send. rewrite Hb. unfold Len.
    destruct (Nat.ltb_spec 0 (length data)); [|lia]. by rewrite Hch.
  - split; [|done].
    by rewrite (Read_buffer p
         {| bufChan := Open (Some (Some buffer)); bufs := bufs conn |}
         buffer data eq_refl Hb).
Qed.

(** X10. Every byte of a dispatched buffer reaches the reader, once and in
    order: when the reader's slices are non-empty and together at least as
    long as the buffer, [Dispatch] returns, the pieces the [Read] calls
    delivered add up to the content of the buffer, the buffer is drained
    and the channel is idle again. *)
Theorem pipe_delivers_all (reads : list (list byte)) (buffer : bufRef)
    (conn : streamConnection) (data : IoBuffer) :
  bufChan conn = Open None →
  bufs conn !! buffer = Some data →
  Forall (λ p, 0 < length p)%nat reads →
  (length data ≤ sum_list (length <$> reads))%nat →
  ∃ rs conn', Dispatch reads buffer conn = Done (rs, conn') ∧
    concat (delivered <$> rs) = data ∧
    bufs conn' !! buffer = Some [] ∧
    bufChan conn' = Open None ∧
    (length rs ≤ length reads)%nat.
Proof.
  revert conn data. induction reads as [|p reads IH];
    intros conn data Hch Hb Hpos Hsum.
  - simpl in Hsum. destruct data; [|simpl in Hsum; lia].
    exists [], conn. simpl. rewrite Hb. simpl. done.
  - destruct (decide (length data = 0)%nat) as [Hz|Hnz].
    + apply length_zero_iff_nil in Hz. subst data.
      exists [], conn. simpl. rewrite Hb. simpl. repeat split; try done. lia.
    + apply Forall_cons in Hpos as [Hp Hpos].
      destruct (Dispatch_round p buffer conn data Hch Hb) as (c3 & Hs & Hr & Hw & Hc3 & Hb3);
        [lia|].
      set (n := Nat.min (length p) (length data)) in *.
      destruct (IH c3 (drop n data)) as (rs & conn' & Hrun & Hcat & Hbuf & Hidle & Hlen).
      { done. }
      { rewrite Hb3. by rewrite lookup_insert_eq. }
      { done. }
      { rewrite length_drop.
        change (length data ≤ length p + sum_list (length <$> reads))%nat in Hsum.
        unfold n. lia. }
      exists ((n, take n data ++ drop n p) :: rs), conn'.
      split.
      * simpl. rewrite Hb. unfold Len.
        destruct (Nat.ltb_spec 0 (length data)); [|lia].
        rewrite Hs, Hr, Hw, Hrun. done.
      * split; [|split; [done|split; [done|simpl; lia]]].
        rewrite fmap_cons. change (concat (?x :: ?l)) with (x ++ concat l).
        rewrite Hcat. unfold delivered. simpl.
        rewrite take_app_le by (rewrite length_take; unfold n; lia).
        rewrite take_take, Nat.min_id. apply take_drop.
Qed.

(** A drained buffer is not sent at all: [Dispatch] returns at once,
    whether or not a reader is there. *)
Lemma Dispatch_empty reads buffer conn :
  bufs conn !! buffer = Some ([] : IoBuffer) →
  Dispatch reads buffer conn = Done ([], conn).
Proof. intros Hb. destruct reads; simpl; by rewrite Hb. Qed.

Lemma pipe_delivers_all_witness :
  ∃ rs conn',
    Dispatch [HttpDetect.bytes "..."; HttpDetect.bytes "...."] 1%positive conn_idle
      = Done (rs, conn') ∧
    concat (delivered <$> rs) = HttpDetect.bytes "hello".
Proof.
  destruct (pipe_delivers_all
              [HttpDetect.bytes "..."; HttpDetect.bytes "...."] 1%positive
              conn_idle (HttpDetect.bytes "hello") eq_refl eq_refl)
    as (rs & conn' & Hrun & Hcat & _).
  - repeat constructor.
  - simpl. lia.
  - exists rs, conn'. split; [exact Hrun | exact Hcat].
Defined.

(** *** Delivery of responses *)

(** The events [handleResponse] makes for a response. *)
Definition response_events (sid : Z) (r : Response) : list effect :=
  EOnReceiveHeaders sid (resp_statusCode r) (bool_decide (resp_body r = [])) ::
  (if decide (resp_body r = []) then []
   else [EOnReceiveData sid (resp_body r) true]).

Lemma handleResponse_some s r :
  response s = Some r →
  handleResponse s =
    ({| id := id s; readDisableCount := readDisableCount s; request := None;
        response := None; streamCbs := streamCbs s |},
     response_events (id s) r).
Proof.
  intros Hr. unfold handleResponse, response_events. rewrite Hr.
  by destruct (resp_body r) as [|b body].
Qed.

(** X11. A response is delivered once: [handleResponse] hands the headers to
    the receiver, with end-of-stream exactly when the body is empty, then a
    non-empty body as one data event that ends the stream; it lets go of
    request and response, so that a second call delivers nothing. *)
Theorem handleResponse_once (s : stream) (r : Response) :
  response s = Some r →
  (handleResponse s).2 =
    EOnReceiveHeaders (id s) (resp_statusCode r) (bool_decide (resp_body r = [])) ::
    (if decide (resp_body r = []) then []
     else [EOnReceiveData (id s) (resp_body r) true]) ∧
  request (handleResponse s).1 = None ∧
  response (handleResponse s).1 = None ∧
  handleResponse (handleResponse s).1 = ((handleResponse s).1, []).
Proof.
  intros Hr. rewrite (handleResponse_some s r Hr). simpl.
  repeat split; done.
Qed.

(** [atomic.AddInt32]: the sum wraps around in 32 bits, two's complement. *)
Definition int32_wrap (z : Z) : Z := (z + 2 ^ 31) mod 2 ^ 32 - 2 ^ 31.

(** [clientStream.ReadDisable] *)
Definition ReadDisable (disable : bool) (s : stream) : stream * list effect :=
  if disable then
    ({| id := id s; readDisableCount := int32_wrap (readDisableCount s + 1);
        request := request s; response := response s;
        streamCbs := streamCbs s |}, [])
  else
    let newCount := int32_wrap (readDisableCount s - 1) in
    let s1 := {| id := id s; readDisableCount := newCount;
                 request := request s; response := response s;
                 streamCbs := streamCbs s |} in
    if newCount <=? 0 then handleResponse s1 else (s1, []).

Lemma int32_wrap_id z : - 2 ^ 31 ≤ z < 2 ^ 31 → int32_wrap z = z.
Proof. intros Hz. unfold int32_wrap. rewrite Z.mod_small; lia. Qed.

(** X12. A response that is decoded while reading is disabled on the current
    stream is kept and not delivered; the loop goes on to the next read.
    The [ReadDisable(false)] that brings the count back to zero delivers it,
    an earlier one (the count still above zero) does not. *)
Theorem disabled_response_is_held (s : stream) (r : Response)
    (csc : clientStreamConnection) :
  csc_stream csc = Some s →
  0 < readDisableCount s < 2 ^ 31 →
  resp_connectionClose r = false →
  ∃ s1, serve [InDecoded r] csc =
          (Waiting, [], {| csc_stream := Some s1; csc_out := csc_out csc |}) ∧
    response s1 = Some r ∧
    readDisableCount s1 = readDisableCount s ∧
    (readDisableCount s = 1 →
       (ReadDisable false s1).2 = response_events (id s) r ∧
       response (ReadDisable false s1).1 = None ∧
       readDisableCount (ReadDisable false s1).1 = 0) ∧
    (1 < readDisableCount s →
       (ReadDisable false s1).2 = [] ∧
       response (ReadDisable false s1).1 = Some r ∧
       readDisableCount (ReadDisable false s1).1 = readDisableCount s - 1).
Proof.
  intros Hs Hcount Hkeep. eexists. simpl. rewrite Hs. simpl.
  destruct (Z.leb_spec (readDisableCount s) 0); [lia|].
  rewrite Hkeep. rewrite app_nil_r. split; [reflexivity|]. simpl.
  split; [done|]. split; [done|]. split.
  - intros H1. unfold ReadDisable. simpl. rewrite H1. simpl.
    unfold handleResponse. simpl.
    split; [unfold response_events; by destruct (resp_body r)|].
    split; [done | reflexivity].
  - intros H1. unfold ReadDisable. simpl.
    rewrite int32_wrap_id by lia.
    destruct (Z.leb_spec (readDisableCount s - 1) 0); [lia|]. done.
Qed.

(** X13. A response that asks to close the connection is delivered like any
    other; then the transport is closed with [NoFlush] and [LocalClose], the
    loop returns and later input stays unread. *)
Theorem serve_close_response (pre rest : list input) (r : Response)
    (csc csc1 : clientStreamConnection) (s : stream) :
  serve pre csc = (Waiting, [], csc1) →
  csc_stream csc1 = Some s →
  readDisableCount s ≤ 0 →
  resp_connectionClose r = true →
  serve (pre ++ InDecoded r :: rest) csc =
    (Returned, rest,
     {| csc_stream :=
          Some {| id := id s; readDisableCount := readDisableCount s;
                  request := None; response := None; streamCbs := streamCbs s |};
        csc_out := csc_out csc1 ++ response_events (id s) r ++
                   [EConnClose NoFlush LocalClose] |}).
Proof.
  intros Hpre Hs Hcount Hclose. rewrite (serve_app _ _ _ _ Hpre). simpl.
  rewrite Hs. simpl.
  destruct (Z.leb_spec (readDisableCount s) 0); [|lia].
  rewrite handleResponse_some with (r := r) by done. simpl.
  rewrite Hclose. unfold emit. simpl. by rewrite <- app_assoc.
Qed.

(** *** Listener removal *)

Lemma remove_first_length cb (l : list listener) :
  cb ∈ l → S (length (remove_first cb l)) = length l.
Proof.
  induction l as [|x l IH]; simpl.
  - intros Hin. by apply elem_of_nil in Hin.
  - intros Hin. destruct (decide (x = cb)); [done|].
    apply elem_of_cons in Hin as [->|Hin]; [done|]. simpl. by rewrite IH.
Qed.

(** X14. [RemoveEventListener] does what removal by identity would do exactly
    when the listener passed is the first of the list: for a listener that
    is registered once, in a list without repetitions, the result equals
    the list without that listener if and only if the listener is at the
    head. *)
Theorem RemoveEventListener_right_iff_first (cb : listener) (s : stream) :
  cb ∈ streamCbs s →
  NoDup (streamCbs s) →
  streamCbs (RemoveEventListener cb s) = remove_first cb (streamCbs s)
  ↔ head (streamCbs s) = Some cb.
Proof.
  intros Hin Hnd. rewrite RemoveEventListener_tail.
  destruct (streamCbs s) as [|x l]; [by apply elem_of_nil in Hin|].
  simpl. destruct (decide (x = cb)) as [->|Hne].
  - done.
  - split; [|by intros [= ->]].
    intros Heq. exfalso. apply NoDup_cons in Hnd as [Hx _].
    apply Hx. rewrite Heq. by apply elem_of_cons; left.
Qed.

(** *** The properties at work *)

Definition ok_response (body : string) (close : bool) : Response :=
  {| resp_statusCode := 200; resp_connectionClose := close;
     resp_header := ∅; resp_body := HttpDetect.bytes body |}.

Definition waiting_stream (disabled : Z) (r : option Response) : stream :=
  {| id := 7; readDisableCount := disabled; request := None; response := r;
     streamCbs := [] |}.

Lemma handleResponse_once_witness :
  (handleResponse (waiting_stream 0 (Some (ok_response "ok" false)))).2 =
    [EOnReceiveHeaders 7 200 false; EOnReceiveData 7 (HttpDetect.bytes "ok") true].
Proof.
  exact (proj1 (handleResponse_once
                  (waiting_stream 0 (Some (ok_response "ok" false))) _ eq_refl)).
Defined.

Lemma disabled_response_is_held_witness :
  ∃ s1, serve [InDecoded (ok_response "" false)]
          {| csc_stream := Some (waiting_stream 1 None); csc_out := [] |} =
          (Waiting, [], {| csc_stream := Some s1; csc_out := [] |}) ∧
        (ReadDisable false s1).2 = [EOnReceiveHeaders 7 200 true].
Proof.
  destruct (disabled_response_is_held (waiting_stream 1 None) (ok_response "" false)
              {| csc_stream := Some (waiting_stream 1 None); csc_out := [] |}
              eq_refl ltac:(simpl; lia) eq_refl)
    as (s1 & Hrun & _ & _ & Hone & _).
  exists s1. split; [exact Hrun|]. exact (proj1 (Hone eq_refl)).
Defined.

Lemma serve_close_response_witness :
  serve ([InNewStream 7] ++ InDecoded (ok_response "" true) :: [InDecodeError])
        {| csc_stream := None; csc_out := [] |} =
  (Returned, [InDecodeError],
   {| csc_stream := Some (waiting_stream 0 None);
      csc_out := [EOnReceiveHeaders 7 200 true; EConnClose NoFlush LocalClose] |}).
Proof.
  refine (serve_close_response [InNewStream 7] [InDecodeError] (ok_response "" true)
            {| csc_stream := None; csc_out := [] |} _ _ eq_refl eq_refl _ eq_refl).
  simpl. lia.
Defined.

Lemma RemoveEventListener_right_iff_first_witness :
  streamCbs (RemoveEventListener 1%positive (stream_with [1; 2]%positive))
    = remove_first 1%positive [1; 2]%positive.
Proof.
  apply (RemoveEventListener_right_iff_first 1%positive (stream_with [1; 2]%positive)).
  - apply elem_of_cons. by left.
  - apply (bool_decide_unpack _). reflexivity.
  - reflexivity.
Defined.

End HttpStreamProps.

(* ===================================================================== *)
(** ** More on the metrics handoff *)
(* ===================================================================== *)

Module TransferProps.
Import Types Transfer.

(** *** Reading into a registry that is not empty *)

(** A metric of the receiver can take in a metric of the sender when the
    key is new or holds a metric of the same kind. *)
Definition compatible (old : option metric) (v : metric) : Prop :=
  match old, v with
  | _, Meter => True
  | None, _ => True
  | Some (Counter _), Counter _ => True
  | Some (Gauge _), Gauge _ => True
  | Some (Histogram _), Histogram _ => True
  | _, _ => False
  end.

(** What the receiver holds afterwards: counts add up, a gauge takes the
    new value, the sample of a histogram grows by the new values. *)
Definition merged (old : option metric) (v : metric) : option metric :=
  match v, old with
  | Counter n, Some (Counter c) => Some (Counter (c + n))
  | Counter n, _ => Some (Counter n)
  | Gauge g, _ => Some (Gauge g)
  | Histogram vs, Some (Histogram hs) => Some (Histogram (hs ++ vs))
  | Histogram vs, _ => Some (Histogram vs)
  | Meter, _ => old
  end.

Lemma applyData_merge kv d (s : store) :
  transferData kv = Some d → compatible (s !! kv.1) kv.2 →
  ∃ s', applyData d s = Done s' ∧ s' !! kv.1 = merged (s !! kv.1) kv.2 ∧
        ∀ k, k ≠ kv.1 → s' !! k = s !! k.
Proof.
  destruct kv as [key v]. unfold transferData. simpl. intros Hd Hc.
  destruct v as [count|value|values|]; [| | |discriminate];
    injection Hd as <-; unfold applyData; simpl.
  - unfold CounterInc.
    destruct (s !! key) as [[c| | |]|] eqn:Hs; simpl in Hc; try done;
      (eexists; split; [reflexivity|]);
      (split; [by rewrite lookup_insert_eq|]);
      intros k Hne; by rewrite lookup_insert_ne.
  - unfold GaugeUpdate.
    destruct (s !! key) as [[| g | |]|] eqn:Hs; simpl in Hc; try done;
      (eexists; split; [reflexivity|]);
      (split; [by rewrite lookup_insert_eq|]);
      intros k Hne; by rewrite lookup_insert_ne.
  - unfold HistogramGet.
    destruct (s !! key) as [[| | hs |]|] eqn:Hs; simpl in Hc; try done.
    + eexists. split; [reflexivity|].
      destruct (foldl_HistogramUpdate key values s hs Hs) as [Hk Hother].
      split; [exact Hk|]. exact Hother.
    + eexists. split; [reflexivity|].
      destruct (foldl_HistogramUpdate key values (<[key := Histogram []]> s) [])
        as [Hk Hother]; [by rewrite lookup_insert_eq|].
      split; [exact Hk|]. intros k Hne. rewrite (Hother k Hne).
      by rewrite lookup_insert_ne.
Qed.

Lemma applyAll_merge (es : list (string * metric)) (s : store) :
  NoDup es.*1 → (∀ k v, (k, v) ∈ es → compatible (s !! k) v) →
  ∃ s', applyAll (omap transferData es) s = Done s' ∧
        (∀ k v, (k, v) ∈ es → s' !! k = merged (s !! k) v) ∧
        (∀ k, k ∉ es.*1 → s' !! k = s !! k).
Proof.
  revert s. induction es as [|[key v] es IH]; intros s Hnd Hcomp.
  - exists s. split; [done|]. split; [|done]. intros k v Hin.
    by apply elem_of_nil in Hin.
  - simpl in Hnd. apply NoDup_cons in Hnd as [Hkey Hnd].
    assert (compatible (s !! key) v) as Hcv
      by (apply Hcomp; by apply elem_of_cons; left).
    assert (∀ k v', (k, v') ∈ es → k ≠ key) as Hothers.
    { intros k v' Hin ->. apply Hkey. apply list_elem_of_fmap. by exists (key, v'). }
    destruct (transferData (key, v)) as [d|] eqn:Hd.
    + destruct (applyData_merge (key, v) d s Hd Hcv) as (s1 & Hrun & Hk & Hother).
      simpl in Hk, Hother.
      destruct (IH s1 Hnd) as (s' & Hall & Hes & Hrest).
      { intros k v' Hin. rewrite Hother by (by eapply Hothers).
        apply Hcomp. by apply elem_of_cons; right. }
      exists s'. simpl. rewrite Hd. simpl. rewrite Hrun. split; [exact Hall|].
      split.
      * intros k v' [[= -> ->]|Hin]%elem_of_cons.
        -- by rewrite (Hrest key Hkey).
        -- rewrite (Hes k v' Hin). by rewrite Hother by (by eapply Hothers).
      * intros k Hk'. simpl in Hk'. apply not_elem_of_cons in Hk' as [Hne Hk'].
        rewrite (Hrest k Hk'). by apply Hother.
    + assert (v = Meter) as -> by (by destruct v).
      destruct (IH s Hnd) as (s' & Hall & Hes & Hrest).
      { intros k v' Hin. apply Hcomp. by apply elem_of_cons; right. }
      exists s'. simpl. split; [exact Hall|]. split.
      * intros k v' [[= -> ->]|Hin]%elem_of_cons; [|by apply Hes].
        simpl. by apply Hrest.
      * intros k Hk'. simpl in Hk'. apply not_elem_of_cons in Hk' as [Hne Hk'].
        by apply Hrest.
Qed.

Lemma applyTransfers_merge (ms : list Metrics) (reg : registry) :
  NoDup (metricsId <$> ms) →
  (∀ m, m ∈ ms → NoDup (mEach m).*1) →
  (∀ m key v, m ∈ ms → (key, v) ∈ mEach m →
     compatible (lookup_metric reg (metricsId m) key) v) →
  ∃ reg', applyTransfers (transferStats <$> ms) reg = Done reg' ∧
    (∀ m key v, m ∈ ms → (key, v) ∈ mEach m →
       lookup_metric reg' (metricsId m) key =
         merged (lookup_metric reg (metricsId m) key) v) ∧
    (∀ i, i ∉ metricsId <$> ms → reg' !! i = reg !! i).
Proof.
  revert reg. induction ms as [|m ms IH]; intros reg Hnd Hkeys Hcomp.
  - exists reg. split; [done|]. split; [|done]. intros m key v Hin.
    by apply elem_of_nil in Hin.
  - simpl in Hnd. apply NoDup_cons in Hnd as [Hid Hnd].
    assert (∀ k, NewMetrics (mType m) (mLabels m) reg !! k
                 = lookup_metric reg (metricsId m) k) as Hnew.
    { intros k. unfold NewMetrics, lookup_metric, metricsId.
      destruct (reg !! (mType m, mLabels m)); simpl; [done | apply lookup_empty]. }
    destruct (applyAll_merge (mEach m) (NewMetrics (mType m) (mLabels m) reg))
      as (s' & Hall & Hes & _).
    { apply Hkeys. by apply elem_of_cons; left. }
    { intros k v Hin. rewrite Hnew. apply Hcomp; [by apply elem_of_cons; left | done]. }
    assert (∀ m', m' ∈ ms → metricsId m' ≠ metricsId m) as Hothers.
    { intros m' Hm' Heq. apply Hid. rewrite <- Heq. apply list_elem_of_fmap. by exists m'. }
    destruct (IH (<[metricsId m := s']> reg) Hnd) as (reg' & Hrun & Hms & Hrest).
    { intros m' Hm'. apply Hkeys. by apply elem_of_cons; right. }
    { intros m' key v Hm' Hin. unfold lookup_metric.
      rewrite lookup_insert_ne by (intros Heq; by apply (Hothers m' Hm')).
      apply Hcomp; [by apply elem_of_cons; right | done]. }
    exists reg'. simpl.
    change (mType m, mLabels m) with (metricsId m).
    rewrite Hall. split; [exact Hrun|]. split.
    + intros m' key v [->|Hin]%elem_of_cons Hkv.
      * unfold lookup_metric at 1. rewrite (Hrest _ Hid), lookup_insert_eq. simpl.
        rewrite (Hes key v Hkv). by rewrite Hnew.
      * rewrite (Hms m' key v Hin Hkv). unfold lookup_metric.
        by rewrite lookup_insert_ne by (intros Heq; by apply (Hothers m' Hin)).
    + intros i Hi. simpl in Hi. apply not_elem_of_cons in Hi as [Hne Hi].
      rewrite (Hrest i Hi). by rewrite lookup_insert_ne.
Qed.

(** X15. The receiver merges: read into a registry that already holds metrics
    of the same kinds under the same keys, the transfer adds each count to
    the count that is there, overwrites each gauge and appends the sample
    values of each histogram; stores that the transfer does not name are
    left alone. The handoff is therefore not idempotent. *)
Theorem transfer_merges `{Gob} (metrics : list Metrics) (b : list byte)
    (reg : registry) :
  NoDup (metricsId <$> metrics) →
  (∀ m, m ∈ metrics → NoDup (mEach m).*1) →
  (∀ m key v, m ∈ metrics → (key, v) ∈ mEach m →
     compatible (lookup_metric reg (metricsId m) key) v) →
  makesTransferData metrics = Some b →
  ∃ reg', readTransferData b reg = Done (None, reg') ∧
    (∀ m key v, m ∈ metrics → (key, v) ∈ mEach m →
       lookup_metric reg' (metricsId m) key =
         match v, lookup_metric reg (metricsId m) key with
         | Counter n, Some (Counter c) => Some (Counter (c + n))
         | Counter n, _ => Some (Counter n)
         | Gauge g, _ => Some (Gauge g)
         | Histogram vs, Some (Histogram hs) => Some (Histogram (hs ++ vs))
         | Histogram vs, _ => Some (Histogram vs)
         | Meter, old => old
         end) ∧
    (∀ i, i ∉ metricsId <$> metrics → reg' !! i = reg !! i).
Proof.
  intros Hids Hkeys Hcomp Hmake. unfold makesTransferData in Hmake.
  apply gob_roundtrip in Hmake.
  destruct (applyTransfers_merge metrics reg Hids Hkeys Hcomp)
    as (reg' & Hrun & Hms & Hrest).
  exists reg'. unfold readTransferData. rewrite Hmake, Hrun.
  split; [done|]. split; [|exact Hrest].
  intros m key v Hm Hkv. rewrite (Hms m key v Hm Hkv). unfold merged.
  by destruct v.
Qed.

(** A host store of the receiver that has counted ten requests. *)
Definition ten_requests : registry :=
  {[ metricsId host_store := {[ "request_total"%string := Counter 10 ]} ]}.

Lemma transfer_merges_witness :
  ∃ b reg',
    @makesTransferData digitGob [host_store] = Some b ∧
    @readTransferData digitGob b ten_requests = Done (None, reg') ∧
    lookup_metric reg' (metricsId host_store) "request_total" = Some (Counter 15).
Proof.
  exists (pos_bytes (encode (transferStats <$> [host_store]))).
  destruct (@transfer_merges digitGob [host_store]
              (pos_bytes (encode (transferStats <$> [host_store]))) ten_requests)
    as (reg' & Hread & Hreg & _).
  - apply NoDup_singleton.
  - intros m ->%list_elem_of_singleton. apply (bool_decide_unpack _). reflexivity.
  - intros m key v ->%list_elem_of_singleton Hin. simpl in Hin.
    rewrite !elem_of_cons, elem_of_nil in Hin.
    destruct Hin as [[= -> ->]|[[= -> ->]|[[= -> ->]|[[= -> ->]|[]]]]];
      vm_compute; exact I.
  - reflexivity.
  - exists reg'. split; [reflexivity|]. split; [exact Hread|].
    assert (host_store ∈ [host_store]) as Hin by (by apply list_elem_of_singleton).
    assert (("request_total"%string, Counter 5) ∈ mEach host_store) as Hkv
      by (simpl; apply elem_of_cons; by left).
    exact (Hreg host_store _ _ Hin Hkv).
Defined.

(** *** Records without values *)

Lemma applyAll_app (ds1 ds2 : list TransferData) (s s1 : store) :
  applyAll ds1 s = Done s1 → applyAll (ds1 ++ ds2) s = applyAll ds2 s1.
Proof.
  revert s. induction ds1 as [|d ds1 IH]; intros s; simpl.
  - by intros [= <-].
  - destruct (applyData d s); [apply IH | discriminate | discriminate].
Qed.

Lemma applyTransfers_app (ts1 ts2 : list TransferStats) (reg reg1 : registry) :
  applyTransfers ts1 reg = Done reg1 →
  applyTransfers (ts1 ++ ts2) reg = applyTransfers ts2 reg1.
Proof.
  revert reg. induction ts1 as [|t ts1 IH]; intros reg; simpl.
  - by intros [= <-].
  - destruct (applyAll (Data t) _); [apply IH | discriminate | discriminate].
Qed.

(** X16. A counter or gauge record that carries no value makes
    [readTransferData] panic on the index 0, wherever the record stands in
    the transfer; no error is returned, and what was applied before the
    record is not rolled back. *)
Theorem missing_value_panics `{Gob} (b : list byte)
    (pre post : list TransferStats) (t : TransferStats)
    (dpre dpost : list TransferData) (d : TransferData)
    (reg reg1 : registry) (s1 : store) :
  gobDecode b = Some (pre ++ t :: post) →
  applyTransfers pre reg = Done reg1 →
  Data t = dpre ++ d :: dpost →
  applyAll dpre (NewMetrics (StatsType t) (Labels t) reg1) = Done s1 →
  MetricsType d = metricsCounter ∨ MetricsType d = metricsGauge →
  MetricsValues d = [] →
  readTransferData b reg = Panicked.
Proof.
  intros Hdec Hpre Hdata Hdpre Hkind Hnone.
  unfold readTransferData. rewrite Hdec.
  rewrite (applyTransfers_app _ _ _ _ Hpre). simpl.
  rewrite Hdata, (applyAll_app _ _ _ _ Hdpre). simpl.
  unfold applyData. rewrite Hnone.
  destruct Hkind as [-> | ->]; done.
Qed.

(** A transfer whose only record is a counter without a value. *)
Definition bare_counter : list TransferStats :=
  [{| StatsType := "host"; Labels := ∅;
      Data := [{| MetricsType := metricsCounter; MetricsKey := "request_total";
                  MetricsValues := [] |}] |}].

Lemma missing_value_panics_witness :
  @readTransferData digitGob (pos_bytes (encode bare_counter)) ∅ = Panicked.
Proof.
  eapply (@missing_value_panics digitGob (pos_bytes (encode bare_counter))
            [] [] _ [] [] _ ∅ ∅ ∅).
  - simpl. rewrite bytes_pos_bytes. simpl. apply decode_encode.
  - reflexivity.
  - reflexivity.
  - reflexivity.
  - left. reflexivity.
  - reflexivity.
Defined.

End TransferProps.

(* ===================================================================== *)
(** ** The transfer socket *)
(* ===================================================================== *)

Module TransferSocket.
Import Types Transfer.

(** *** Big-endian length prefix *)

(** The conversion [byte(v)]: the low eight bits. *)
Definition byte_of_Z (z : Z) : byte :=
  default x00 (Byte.of_N (Z.to_N (z mod 256))).

(** The conversion [uint32(b)] of a byte. *)
Definition Z_of_byte (b : byte) : Z := Z.of_N (Byte.to_N b).

(** The conversion [uint32(n)] of an [int]. *)
Definition uint32 (z : Z) : Z := z mod 2 ^ 32.

(** [binary.BigEndian.PutUint32] on a slice of four bytes. *)
Definition PutUint32 (v : Z) : list byte :=
  [byte_of_Z (Z.shiftr v 24); byte_of_Z (Z.shiftr v 16);
   byte_of_Z (Z.shiftr v 8); byte_of_Z v].

(** [binary.BigEndian.Uint32]; a slice shorter than four bytes is an index
    out of range. *)
Definition Uint32 (b : list byte) : option Z :=
  match b with
  | b0 :: b1 :: b2 :: b3 :: _ =>
      Some (Z.lor (Z.lor (Z.lor (Z_of_byte b3) (Z.shiftl (Z_of_byte b2) 8))
                         (Z.shiftl (Z_of_byte b1) 16))
                  (Z.shiftl (Z_of_byte b0) 24))
  | _ => None
  end.

(** *** The connection *)

(** What successive [conn.Read] calls meet on one end of the socket: bytes
    that have arrived together, or an error (the peer closed, a deadline
    passed). With nothing left the read waits. *)
Inductive readEvent :=
  | Chunk (bs : list byte)
  | ReadFails.

(** One end of the socket: what is still to be read, and what has been
    written so far; [broken] makes every write fail. *)
Record conn := {
  incoming : list readEvent;
  written : list byte;
  broken : bool
}.

Inductive error :=
  | connError                       (* an error of the connection *)
  | parseError (e : Transfer.error) (* the error of [readTransferData] *).

(** [conn.Write(p)]: whether it failed, and the connection. *)
Definition connWrite (p : list byte) (c : conn) : bool * conn :=
  if broken c then (true, c)
  else (false, {| incoming := incoming c; written := written c ++ p;
                  broken := false |}).

(** One [conn.Read] into a slice of [k] bytes: the bytes read or the error,
    and what is left to read. Of a chunk longer than the slice the rest
    stays for the next read. *)
Definition connRead (k : nat) (evs : list readEvent)
  : outcome (option (list byte) * list readEvent) :=
  match evs with
  | [] => Blocked
  | ReadFails :: rest => Done (None, rest)
  | Chunk bs :: rest =>
      Done (Some (take k bs),
            if (length bs <=? k)%nat then rest else Chunk (drop k bs) :: rest)
  end.

(** The loop of [read], with [k] bytes still missing after the bytes [acc]:
    each turn is one [conn.Read(b[off:])]. A chunk shorter than [k] is taken
    whole and the loop goes on; a longer one is taken up to [k] bytes, the
    rest of it stays for the next read. *)
Fixpoint read_loop (evs : list readEvent) (acc : list byte) (k : nat)
  : outcome (option (list byte) * list readEvent) :=
  match evs with
  | [] => Blocked
  | ReadFails :: rest => Done (None, rest)
  | Chunk bs :: rest =>
      if (length bs <? k)%nat then read_loop rest (acc ++ bs) (k - length bs)
      else Done (Some (acc ++ take k bs),
                 if (length bs =? k)%nat then rest
                 else Chunk (drop k bs) :: rest)
  end.

(** [read(conn, size)]: the bytes or the error, and what is left to read. *)
Definition read (size : nat) (evs : list readEvent)
  : outcome (option (list byte) * list readEvent) :=
  if (size =? 0)%nat then Done (Some [], evs)
  else read_loop evs [] size.

(** [readHeader] *)
Definition readHeader (evs : list readEvent)
  : outcome (option nat * list readEvent) :=
  match read 4 evs with
  | Done (Some b, evs') =>
      match Uint32 b with
      | Some n => Done (Some (Z.to_nat n), evs')
      | None => Panicked
      end
  | Done (None, evs') => Done (None, evs')
  | Blocked => Blocked
  | Panicked => Panicked
  end.

(** [handler]: the error it returns, what is left to read, the registry. *)
Definition handler `{Gob} (evs : list readEvent) (reg : registry)
  : outcome (option error * list readEvent * registry) :=
  match readHeader evs with
  | Done (Some size, evs1) =>
      match read size evs1 with
      | Done (Some body, evs2) =>
          match readTransferData body reg with
          | Done (None, reg') => Done (None, evs2, reg')
          | Done (Some e, reg') => Done (Some (parseError e), evs2, reg')
          | Blocked => Blocked
          | Panicked => Panicked
          end
      | Done (None, evs2) => Done (Some connError, evs2, reg)
      | Blocked => Blocked
      | Panicked => Panicked
      end
  | Done (None, evs1) => Done (Some connError, evs1, reg)
  | Blocked => Blocked
  | Panicked => Panicked
  end.

(** [serveConn]: the connection with the status byte written, and the
    registry. *)
Definition serveConn `{Gob} (c : conn) (reg : registry)
  : outcome (conn * registry) :=
  match handler (incoming c) reg with
  | Done (err, evs, reg') =>
      let b := match err with
               | Some _ => [x01]
               | None => [x00]
               end in
      Done ((connWrite b {| incoming := evs; written := written c;
                            broken := broken c |}).2, reg')
  | Blocked => Blocked
  | Panicked => Panicked
  end.

(** [transferMetrics] on the outcome of the dial ([None]: the dial failed).
    A failed write of the header ends the call, a failed write of the body
    is only logged; with [wait] the reply is read, under a deadline, and
    logged. *)
Definition transferMetrics (body : list byte) (wait : bool) (dial : option conn)
  : option conn :=
  match dial with
  | None => None
  | Some c =>
      let header := PutUint32 (uint32 (Z.of_nat (length body))) in
      let '(failed, c1) := connWrite header c in
      if failed then Some c1
      else
        let c2 := (connWrite body c1).2 in
        if wait then
          match connRead 1 (incoming c2) with
          | Done (_, evs) =>
              Some {| incoming := evs; written := written c2;
                      broken := broken c2 |}
          | _ => Some c2
          end
        else Some c2
  end.

(** The stream [evs] carries the bytes [bs], cut into chunks in some way,
    and goes on with [rest]. *)
Definition carries (evs : list readEvent) (bs : list byte)
    (rest : list readEvent) : Prop :=
  ∃ chunks, evs = (Chunk <$> chunks) ++ rest ∧ concat chunks = bs.

(** What [handler] makes of the outcome of [readTransferData]. *)
Definition handled (r : outcome (option Transfer.error * registry))
    (evs : list readEvent)
  : outcome (option error * list readEvent * registry) :=
  match r with
  | Done (None, reg') => Done (None, evs, reg')
  | Done (Some e, reg') => Done (Some (parseError e), evs, reg')
  | Blocked => Blocked
  | Panicked => Panicked
  end.

(** *** Length prefix *)

Lemma Z_of_byte_of_Z z : Z_of_byte (byte_of_Z z) = z mod 256.
Proof.
  unfold Z_of_byte, byte_of_Z.
  pose proof (Z.mod_pos_bound z 256 ltac:(lia)) as Hb.
  destruct (Byte.of_N (Z.to_N (z mod 256))) as [b|] eqn:Hof; simpl.
  - apply Byte.to_of_N in Hof. rewrite Hof. lia.
  - apply Byte.of_N_None_iff in Hof. lia.
Qed.

Lemma byte_bits z n :
  0 ≤ n → Z.testbit (z mod 256) n = Z.testbit z n && (n <? 8).
Proof.
  intros Hn. change 256 with (2 ^ 8). rewrite <- Z.land_ones by lia.
  rewrite Z.land_spec, Z.testbit_ones_nonneg by lia. done.
Qed.

Lemma Uint32_PutUint32 v : 0 ≤ v < 2 ^ 32 → Uint32 (PutUint32 v) = Some v.
Proof.
  intros Hv. unfold Uint32, PutUint32. rewrite !Z_of_byte_of_Z. f_equal.
  apply Z.bits_inj'. intros n Hn.
  rewrite !Z.lor_spec, !Z.shiftl_spec by lia.
  destruct (Z.ltb_spec n 8).
  { rewrite byte_bits by lia. rewrite !(Z.testbit_neg_r _ (n - _)) by lia.
    destruct (Z.ltb_spec n 8); [|lia]. by rewrite !orb_false_r, andb_true_r. }
  destruct (Z.ltb_spec n 16).
  { rewrite !byte_bits by lia.
    rewrite !(Z.testbit_neg_r _ (n - 16)), !(Z.testbit_neg_r _ (n - 24)) by lia.
    rewrite Z.shiftr_spec by lia.
    destruct (Z.ltb_spec n 8); [lia|]. destruct (Z.ltb_spec (n - 8) 8); [|lia].
    rewrite !andb_false_r, !orb_false_r, andb_true_r. simpl. f_equal. lia. }
  destruct (Z.ltb_spec n 24).
  { rewrite !byte_bits by lia. rewrite !(Z.testbit_neg_r _ (n - 24)) by lia.
    rewrite !Z.shiftr_spec by lia.
    destruct (Z.ltb_spec n 8); [lia|]. destruct (Z.ltb_spec (n - 8) 8); [lia|].
    destruct (Z.ltb_spec (n - 16) 8); [|lia].
    rewrite !andb_false_r, !orb_false_r, andb_true_r. simpl. f_equal. lia. }
  rewrite !byte_bits by lia. rewrite !Z.shiftr_spec by lia.
  destruct (Z.ltb_spec n 8); [lia|]. destruct (Z.ltb_spec (n - 8) 8); [lia|].
  destruct (Z.ltb_spec (n - 16) 8); [lia|].
  rewrite !andb_false_r. simpl.
  destruct (Z.ltb_spec (n - 24) 8).
  - rewrite andb_true_r. f_equal. lia.
  - rewrite andb_false_r. symmetry.
    apply Z.testbit_false; [lia|].
    rewrite Z.div_small; [done|]. split; [lia|].
    apply Z.lt_le_trans with (2 ^ 32); [lia|]. apply Z.pow_le_mono_r; lia.
Qed.

Lemma header_size (body : list byte) :
  Z.of_nat (length body) < 2 ^ 32 →
  Uint32 (PutUint32 (uint32 (Z.of_nat (length body))))
    = Some (Z.of_nat (length body)).
Proof.
  intros Hlen. unfold uint32. rewrite Z.mod_small by lia.
  apply Uint32_PutUint32. lia.
Qed.

(** *** Reading exactly [size] bytes *)

(** One turn of [read_loop] is one [connRead]. *)
Lemma read_loop_connRead evs acc k :
  (0 < k)%nat →
  read_loop evs acc k =
    match connRead k evs with
    | Done (Some bs, evs') =>
        if (length bs =? k)%nat then Done (Some (acc ++ bs), evs')
        else read_loop evs' (acc ++ bs) (k - length bs)
    | Done (None, evs') => Done (None, evs')
    | Blocked => Blocked
    | Panicked => Panicked
    end.
Proof.
  intros Hk. destruct evs as [|[bs|] rest]; simpl; [done| |done].
  rewrite length_take.
  destruct (Nat.ltb_spec (length bs) k).
  - destruct (Nat.leb_spec (length bs) k); [|lia].
    destruct (Nat.eqb_spec (k `min` length bs)%nat k); [lia|].
    rewrite take_ge by lia. f_equal. lia.
  - destruct (Nat.eqb_spec (k `min` length bs)%nat k) as [_|]; [|lia].
    destruct (Nat.eqb_spec (length bs) k), (Nat.leb_spec (length bs) k);
      try done; lia.
Qed.

Lemma read_loop_carries chunks rest acc (data more : list byte) k :
  concat chunks = data ++ more →
  length data = k → (0 < k)%nat →
  ∃ evs', read_loop ((Chunk <$> chunks) ++ rest) acc k = Done (Some (acc ++ data), evs') ∧
          carries evs' more rest.
Proof.
  revert acc data k. induction chunks as [|c cs IH]; intros acc data k Hcat Hlen Hk.
  - simpl in Hcat. symmetry in Hcat. apply app_eq_nil in Hcat as [-> _].
    simpl in Hlen. lia.
  - simpl in Hcat. rewrite fmap_cons, <- app_comm_cons. cbn [read_loop].
    destruct (Nat.ltb_spec (length c) k) as [Hlt|Hge].
    + assert (c = take (length c) data) as Hc.
      { pose proof (f_equal (take (length c)) Hcat) as Ht.
        rewrite take_app_length in Ht. by rewrite take_app_le in Ht by lia. }
      assert (concat cs = drop (length c) data ++ more) as Hcs.
      { pose proof (f_equal (drop (length c)) Hcat) as Hd.
        rewrite drop_app_length in Hd. by rewrite drop_app_le in Hd by lia. }
      destruct (IH (acc ++ c) (drop (length c) data) (k - length c)%nat Hcs)
        as (evs' & Hrun & Hcar); [rewrite length_drop; lia | lia |].
      exists evs'. split; [|done]. rewrite Hrun. do 3 f_equal.
      rewrite <- app_assoc. f_equal. rewrite Hc at 1. apply take_drop.
    + assert (take k c = data) as Hdata.
      { pose proof (f_equal (take k) Hcat) as Ht.
        rewrite !take_app_le in Ht by lia. rewrite Ht. apply take_ge. lia. }
      assert (drop k c ++ concat cs = more) as Hmore.
      { pose proof (f_equal (drop k) Hcat) as Hd.
        rewrite drop_app_le in Hd by lia. rewrite drop_app_ge in Hd by lia.
        rewrite Hlen, Nat.sub_diag in Hd. done. }
      eexists. split; [by rewrite Hdata|].
      destruct (Nat.eqb_spec (length c) k) as [Heq|Hne].
      * exists cs. split; [done|]. rewrite <- Hmore.
        by rewrite drop_ge by lia.
      * exists (drop k c :: cs). split; [done|]. done.
Qed.

Lemma read_carries evs (data more : list byte) rest :
  carries evs (data ++ more) rest →
  ∃ evs', read (length data) evs = Done (Some data, evs') ∧ carries evs' more rest.
Proof.
  intros (chunks & -> & Hcat). unfold read.
  destruct (Nat.eqb_spec (length data) 0) as [Hz|Hnz].
  - apply length_zero_iff_nil in Hz. subst data.
    eexists. split; [done|]. by exists chunks.
  - destruct (read_loop_carries chunks rest [] data more (length data) Hcat)
      as (evs' & Hrun & Hcar); [done | lia |].
    exists evs'. by split.
Qed.

Lemma read_loop_short evs (bs : list byte) rest acc k :
  carries evs bs (ReadFails :: rest) → (length bs < k)%nat →
  read_loop evs acc k = Done (None, rest).
Proof.
  intros (chunks & -> & <-). revert acc k.
  induction chunks as [|c cs IH]; intros acc k Hlen; [done|].
  rewrite fmap_cons, <- app_comm_cons. cbn [read_loop].
  simpl in Hlen. rewrite length_app in Hlen.
  destruct (Nat.ltb_spec (length c) k); [|lia]. apply IH. lia.
Qed.

(** *** The frame, written and read back *)

(** What [transferMetrics] puts on the socket for a body. *)
Definition frame (body : list byte) : list byte :=
  PutUint32 (uint32 (Z.of_nat (length body))) ++ body.

Lemma transferMetrics_written body wait c :
  broken c = false →
  ∃ c', transferMetrics body wait (Some c) = Some c' ∧
        written c' = written c ++ frame body.
Proof.
  intros Hok. unfold transferMetrics, connWrite. rewrite Hok. simpl.
  destruct wait.
  - destruct (connRead 1 (incoming c)) as [[r evs]| |];
      (eexists; split; [reflexivity|]); simpl; by rewrite <- app_assoc.
  - eexists. split; [reflexivity|]. simpl. by rewrite <- app_assoc.
Qed.

Lemma handler_frame `{Gob} (body : list byte) (evs rest : list readEvent)
    (reg : registry) :
  Z.of_nat (length body) < 2 ^ 32 →
  carries evs (frame body) rest →
  ∃ evs', handler evs reg = handled (readTransferData body reg) evs' ∧
          carries evs' [] rest.
Proof.
  intros Hlen Hcar. unfold frame in Hcar.
  destruct (read_carries evs _ _ rest Hcar) as (evs1 & Hhead & Hcar1).
  change (length (PutUint32 _)) with 4%nat in Hhead.
  rewrite <- (app_nil_r body) in Hcar1.
  destruct (read_carries evs1 _ _ rest Hcar1) as (evs2 & Hbody & Hcar2).
  exists evs2. split; [|done].
  unfold handler, readHeader. rewrite Hhead, (header_size body Hlen).
  rewrite Nat2Z.id, Hbody. unfold handled.
  by destruct (readTransferData body reg) as [[[e|] reg']| |].
Qed.

(** X17. The length prefix does its work whatever way the socket cuts the
    bytes: for a body shorter than 2^32 bytes, [handler] reading the frame
    that [transferMetrics] wrote, in chunks of any sizes, hands exactly the
    body to [readTransferData], returns what that returns, and leaves the
    bytes after the frame unread. *)
Theorem frame_roundtrip `{Gob} (body : list byte) (wait : bool)
    (client client' : conn) (evs rest : list readEvent) (reg : registry) :
  Z.of_nat (length body) < 2 ^ 32 →
  broken client = false →
  written client = [] →
  transferMetrics body wait (Some client) = Some client' →
  carries evs (written client') rest →
  ∃ evs', carries evs' [] rest ∧
    handler evs reg =
      match readTransferData body reg with
      | Done (None, reg') => Done (None, evs', reg')
      | Done (Some e, reg') => Done (Some (parseError e), evs', reg')
      | Blocked => Blocked
      | Panicked => Panicked
      end.
Proof.
  intros Hlen Hok Hnew Hsend Hcar.
  destruct (transferMetrics_written body wait client Hok) as (c' & Hc' & Hw).
  rewrite Hsend in Hc'. injection Hc' as <-. rewrite Hw, Hnew in Hcar.
  destruct (handler_frame body evs rest reg Hlen Hcar) as (evs' & Hrun & Hcar').
  exists evs'. split; [done|]. by rewrite Hrun.
Qed.

(** X18. A frame that breaks off is refused: when the connection fails before
    the whole frame has arrived, be it inside the length prefix or inside the
    body, [serveConn] answers with the status byte 1 and the registry is as
    it was. *)
Theorem truncated_frame_is_refused `{Gob} (body pre suffix : list byte)
    (server : conn) (rest : list readEvent) (reg : registry) :
  Z.of_nat (length body) < 2 ^ 32 →
  pre ++ suffix = frame body →
  suffix ≠ [] →
  carries (incoming server) pre (ReadFails :: rest) →
  broken server = false →
  serveConn server reg =
    Done ({| incoming := rest; written := written server ++ [x01];
             broken := false |}, reg).
Proof.
  intros Hlen Hsplit Hsuffix Hcar Hok.
  assert (length pre < 4 + length body)%nat as Hshort.
  { pose proof (f_equal length Hsplit) as Hl. unfold frame in Hl.
    rewrite !length_app in Hl. change (length (PutUint32 _)) with 4%nat in Hl.
    destruct suffix; [done|]. simpl in Hl. lia. }
  assert (handler (incoming server) reg = Done (Some connError, rest, reg)) as Hrun.
  { unfold handler, readHeader.
    destruct (decide (length pre < 4)%nat) as [Hlt|Hge].
    - unfold read. simpl. by rewrite (read_loop_short _ pre rest [] 4 Hcar Hlt).
    - assert (take 4 pre = PutUint32 (uint32 (Z.of_nat (length body)))) as Hhead.
      { pose proof (f_equal (take 4) Hsplit) as Ht. unfold frame in Ht.
        rewrite take_app_le in Ht by lia. by rewrite take_app_length' in Ht. }
      rewrite <- (take_drop 4 pre), Hhead in Hcar.
      destruct (read_carries _ _ _ _ Hcar) as (evs1 & Hread & Hcar1).
      change (length (PutUint32 _)) with 4%nat in Hread.
      rewrite Hread, (header_size body Hlen), Nat2Z.id.
      unfold read.
      destruct (Nat.eqb_spec (length body) 0) as [Hz|Hnz].
      + lia.
      + rewrite (read_loop_short _ _ rest [] (length body) Hcar1); [done|].
        rewrite length_drop. lia. }
  unfold serveConn. rewrite Hrun. unfold connWrite. simpl. by rewrite Hok.
Qed.

(** X19. The handoff end to end: the sender encodes its registry and writes the
    frame, the receiver starts from an empty registry and reads the socket
    in chunks of any sizes. [serveConn] then answers with the status byte 0
    and the receiver holds every counter, gauge and histogram of the sender
    with the same values. *)
Theorem handoff_over_socket `{Gob} (metrics : list Metrics) (body : list byte)
    (wait : bool) (client client' server : conn) (rest : list readEvent) :
  NoDup (metricsId <$> metrics) →
  (∀ m, m ∈ metrics → NoDup (mEach m).*1) →
  makesTransferData metrics = Some body →
  Z.of_nat (length body) < 2 ^ 32 →
  broken client = false →
  written client = [] →
  transferMetrics body wait (Some client) = Some client' →
  carries (incoming server) (written client') rest →
  broken server = false →
  ∃ server' reg, serveConn server ∅ = Done (server', reg) ∧
    written server' = written server ++ [x00] ∧
    ∀ m key v, m ∈ metrics → (key, v) ∈ mEach m →
      lookup_metric reg (metricsId m) key =
        match v with
        | Meter => None
        | _ => Some v
        end.
Proof.
  intros Hids Hkeys Hmake Hlen Hok Hnew Hsend Hcar Hsrv.
  destruct (transferMetrics_written body wait client Hok) as (c' & Hc' & Hw).
  rewrite Hsend in Hc'. injection Hc' as <-. rewrite Hw, Hnew in Hcar.
  destruct (handler_frame body (incoming server) rest ∅ Hlen Hcar)
    as (evs' & Hrun & _).
  unfold makesTransferData in Hmake. apply gob_roundtrip in Hmake.
  destruct (applyTransfers_metrics metrics ∅ Hids Hkeys)
    as (reg & Happly & Hms & _); [intros m _; apply lookup_empty|].
  assert (readTransferData body ∅ = Done (None, reg)) as Hread.
  { unfold readTransferData. by rewrite Hmake, Happly. }
  rewrite Hread in Hrun. simpl in Hrun.
  eexists _, reg. unfold serveConn. rewrite Hrun. split; [reflexivity|].
  unfold connWrite. simpl. rewrite Hsrv. simpl. split; [done|].
  intros m key v Hm Hkv. by rewrite (Hms m key v Hm Hkv).
Qed.

(** *** The socket at work *)

Definition fresh_conn (evs : list readEvent) : conn :=
  {| incoming := evs; written := []; broken := false |}.

Definition two_bytes : list byte := [x0a; x0b].

Lemma frame_roundtrip_witness :
  ∃ evs',
    @handler digitGob [Chunk [x00; x00; x00]; Chunk [x02; x0a]; Chunk [x0b]] ∅ =
      match @readTransferData digitGob two_bytes ∅ with
      | Done (None, reg') => Done (None, evs', reg')
      | Done (Some e, reg') => Done (Some (parseError e), evs', reg')
      | Blocked => Blocked
      | Panicked => Panicked
      end.
Proof.
  destruct (@frame_roundtrip digitGob two_bytes false (fresh_conn [])
              {| incoming := []; written := frame two_bytes; broken := false |}
              [Chunk [x00; x00; x00]; Chunk [x02; x0a]; Chunk [x0b]] [] ∅)
    as (evs' & _ & Hrun).
  - reflexivity.
  - reflexivity.
  - reflexivity.
  - reflexivity.
  - exists [[x00; x00; x00]; [x02; x0a]; [x0b]]. split; reflexivity.
  - exists evs'. exact Hrun.
Defined.

Lemma truncated_frame_is_refused_witness :
  @serveConn digitGob (fresh_conn [Chunk [x00; x00]; ReadFails]) ∅ =
    Done ({| incoming := []; written := [x01]; broken := false |}, ∅).
Proof.
  apply (@truncated_frame_is_refused digitGob two_bytes [x00; x00]
           [x00; x02; x0a; x0b] (fresh_conn [Chunk [x00; x00]; ReadFails]) [] ∅).
  - reflexivity.
  - reflexivity.
  - discriminate.
  - exists [[x00; x00]]. split; reflexivity.
  - reflexivity.
Defined.

(** The encoded registry of the sender. *)
Definition host_body : list byte :=
  pos_bytes (encode (transferStats <$> [host_store])).

Lemma handoff_over_socket_witness :
  ∃ server' reg,
    @serveConn digitGob (fresh_conn [Chunk (frame host_body)]) ∅ = Done (server', reg) ∧
    written server' = [x00] ∧
    lookup_metric reg (metricsId host_store) "request_total" = Some (Counter 5).
Proof.
  destruct (@handoff_over_socket digitGob [host_store] host_body false
              (fresh_conn [])
              {| incoming := []; written := frame host_body; broken := false |}
              (fresh_conn [Chunk (frame host_body)]) [])
    as (server' & reg & Hrun & Hw & Hreg).
  - apply NoDup_singleton.
  - intros m ->%list_elem_of_singleton. apply (bool_decide_unpack _). reflexivity.
  - reflexivity.
  - vm_compute. reflexivity.
  - reflexivity.
  - reflexivity.
  - reflexivity.
  - exists [frame host_body]. split; [reflexivity|].
    change (concat [frame host_body]) with (frame host_body ++ []).
    apply app_nil_r.
  - reflexivity.
  - exists server', reg. split; [exact Hrun|]. split; [exact Hw|].
    apply (Hreg host_store "request_total"%string (Counter 5)).
    + by apply list_elem_of_singleton.
    + simpl. apply elem_of_cons. by left.
Defined.

End TransferSocket.

(* ===================================================================== *)
(** ** Request headers across the proxy *)
(* ===================================================================== *)

Module HttpHeaders.
Import Types.

(** The header names of package [protocol] under which the request line
    travels through the proxy; their values are declared outside the files
    at hand. *)
Class HeaderKeys := {
  MosnHeaderHostKey : string;
  IstioHeaderHostKey : string;
  MosnHeaderMethod : string;
  MosnHeaderPathKey : string;
  MosnHeaderQueryStringKey : string
}.

(** Modelled from the spec: the request header map [mosnhttp.RequestHeader]
    (package [protocol/http] is not among the files), a mapping from name to
    value over fasthttp's request header with its method, request URI and
    host; [Get] tells whether the name is present. *)
Record RequestHeader := {
  Method : string;
  RequestURI : string;
  Host : string;
  kv : gmap string string
}.

Definition Get (key : string) (h : RequestHeader) : option string := kv h !! key.
Definition Set_ (key value : string) (h : RequestHeader) : RequestHeader :=
  {| Method := Method h; RequestURI := RequestURI h; Host := Host h;
     kv := <[key := value]> (kv h) |}.
Definition Del (key : string) (h : RequestHeader) : RequestHeader :=
  {| Method := Method h; RequestURI := RequestURI h; Host := Host h;
     kv := delete key (kv h) |}.
Definition SetMethod (m : string) (h : RequestHeader) : RequestHeader :=
  {| Method := m; RequestURI := RequestURI h; Host := Host h; kv := kv h |}.
Definition SetRequestURI (u : string) (h : RequestHeader) : RequestHeader :=
  {| Method := Method h; RequestURI := u; Host := Host h; kv := kv h |}.
Definition SetHost (a : string) (h : RequestHeader) : RequestHeader :=
  {| Method := Method h; RequestURI := RequestURI h; Host := a; kv := kv h |}.

(** What [request.URI()] gives for a decoded request. *)
Record URI := {
  uri_host : string;
  uri_path : string;
  uri_query : string
}.

Section headers.
Context `{HeaderKeys}.

(** [serverStream.handleRequest], the header it hands to the receiver. *)
Definition handleRequest (uri : URI) (header : RequestHeader) : RequestHeader :=
  let header := Set_ MosnHeaderHostKey (uri_host uri) header in
  let header := Set_ IstioHeaderHostKey (uri_host uri) header in
  let header := Set_ MosnHeaderMethod (Method header) header in
  let header := Set_ MosnHeaderPathKey (uri_path uri) header in
  if (0 <? String.length (uri_query uri))%nat
  then Set_ MosnHeaderQueryStringKey (uri_query uri) header
  else header.

(** [clientStream.AppendHeaders], the header it leaves in the request that
    goes upstream; [remoteAddr] is the address of the upstream
    connection. *)
Definition AppendHeaders (remoteAddr : string) (headers : RequestHeader)
    (endStream : bool) : RequestHeader :=
  let headers := if endStream then SetMethod "GET" headers
                 else SetMethod "POST" headers in
  let uri := ""%string in
  let '(headers, uri) :=
    match Get MosnHeaderPathKey headers with
    | Some path =>
        if decide (path ≠ ""%string)
        then (Del MosnHeaderPathKey headers, (uri +:+ path)%string)
        else (headers, (uri +:+ "/")%string)
    | None => (headers, (uri +:+ "/")%string)
    end in
  let '(headers, uri) :=
    match Get MosnHeaderQueryStringKey headers with
    | Some queryString =>
        if decide (queryString ≠ ""%string)
        then (Del MosnHeaderQueryStringKey headers,
              (uri +:+ ("?" +:+ queryString))%string)
        else (headers, uri)
    | None => (headers, uri)
    end in
  let headers := SetRequestURI uri headers in
  let headers :=
    match Get MosnHeaderMethod headers with
    | Some method => SetMethod method (Del MosnHeaderMethod headers)
    | None => headers
    end in
  let headers :=
    match Get MosnHeaderHostKey headers with
    | Some host => SetHost host (Del MosnHeaderHostKey headers)
    | None => SetHost remoteAddr headers
    end in
  match Get IstioHeaderHostKey headers with
  | Some host => SetHost host (Del IstioHeaderHostKey headers)
  | None => headers
  end.

(** The five names are different names. *)
Definition keys_distinct : Prop :=
  NoDup [MosnHeaderHostKey; IstioHeaderHostKey; MosnHeaderMethod;
         MosnHeaderPathKey; MosnHeaderQueryStringKey].

Lemma keys_ne :
  keys_distinct →
  MosnHeaderHostKey ≠ IstioHeaderHostKey ∧ MosnHeaderHostKey ≠ MosnHeaderMethod ∧
  MosnHeaderHostKey ≠ MosnHeaderPathKey ∧ MosnHeaderHostKey ≠ MosnHeaderQueryStringKey ∧
  IstioHeaderHostKey ≠ MosnHeaderMethod ∧ IstioHeaderHostKey ≠ MosnHeaderPathKey ∧
  IstioHeaderHostKey ≠ MosnHeaderQueryStringKey ∧
  MosnHeaderMethod ≠ MosnHeaderPathKey ∧ MosnHeaderMethod ≠ MosnHeaderQueryStringKey ∧
  MosnHeaderPathKey ≠ MosnHeaderQueryStringKey.
Proof.
  unfold keys_distinct. intros Hd.
  apply NoDup_cons in Hd as [H1 Hd]. apply NoDup_cons in Hd as [H2 Hd].
  apply NoDup_cons in Hd as [H3 Hd]. apply NoDup_cons in Hd as [H4 _].
  rewrite !not_elem_of_cons in H1. rewrite !not_elem_of_cons in H2.
  rewrite !not_elem_of_cons in H3. rewrite !not_elem_of_cons in H4.
  destruct H1 as (? & ? & ? & ? & _), H2 as (? & ? & ? & _),
    H3 as (? & ? & _), H4 as (? & _).
  repeat split; assumption.
Qed.

(** The path of the request line that [AppendHeaders] assembles. *)
Definition path_part (h : RequestHeader) : string :=
  match Get MosnHeaderPathKey h with
  | Some path => if decide (path ≠ ""%string) then path else "/"%string
  | None => "/"%string
  end.

(** The request URI that [AppendHeaders] assembles. *)
Definition uri_of (h : RequestHeader) : string :=
  match Get MosnHeaderQueryStringKey h with
  | Some queryString =>
      if decide (queryString ≠ ""%string)
      then (path_part h +:+ ("?" +:+ queryString))%string
      else path_part h
  | None => path_part h
  end.

(** The names that [AppendHeaders] takes out of the header. *)
Definition stripped (h : RequestHeader) (k : string) : Prop :=
  k = MosnHeaderMethod ∨ k = MosnHeaderHostKey ∨ k = IstioHeaderHostKey ∨
  (k = MosnHeaderPathKey ∧ Get MosnHeaderPathKey h ≠ Some ""%string) ∨
  (k = MosnHeaderQueryStringKey ∧ Get MosnHeaderQueryStringKey h ≠ Some ""%string).

Lemma AppendHeaders_closed_form remoteAddr h endStream :
  keys_distinct →
  AppendHeaders remoteAddr h endStream =
    {| Method := default (if endStream then "GET" else "POST")%string
                         (Get MosnHeaderMethod h);
       RequestURI := uri_of h;
       Host := match Get IstioHeaderHostKey h with
               | Some host => host
               | None => default remoteAddr (Get MosnHeaderHostKey h)
               end;
       kv := delete IstioHeaderHostKey
               (delete MosnHeaderHostKey
                  (delete MosnHeaderMethod
                     (match Get MosnHeaderQueryStringKey h with
                      | Some q => if decide (q ≠ ""%string)
                                  then delete MosnHeaderQueryStringKey
                                  else id
                      | None => id
                      end
                        (match Get MosnHeaderPathKey h with
                         | Some path => if decide (path ≠ ""%string)
                                        then delete MosnHeaderPathKey
                                        else id
                         | None => id
                         end (kv h))))) |}.
Proof.
  intros Hd. destruct (keys_ne Hd)
    as (Hhi & Hhm & Hhp & Hhq & Him & Hip & Hiq & Hmp & Hmq & Hpq).
  unfold AppendHeaders, uri_of, path_part, Get.
  destruct endStream; simpl.
  all: destruct (kv h !! MosnHeaderPathKey) as [path|] eqn:Epath; simpl.
  all: try destruct (decide (path ≠ ""%string)); simpl.
  all: rewrite ?lookup_delete_ne by done.
  all: destruct (kv h !! MosnHeaderQueryStringKey) as [q|] eqn:Eq; simpl.
  all: try destruct (decide (q ≠ ""%string)); simpl.
  all: rewrite ?lookup_delete_ne by done.
  all: destruct (kv h !! MosnHeaderMethod) as [m|] eqn:Em; simpl.
  all: rewrite ?lookup_delete_ne by done.
  all: destruct (kv h !! MosnHeaderHostKey) as [a|] eqn:Ea; simpl.
  all: rewrite ?lookup_delete_ne by done.
  all: destruct (kv h !! IstioHeaderHostKey) as [b|] eqn:Eb; simpl.
  all: unfold SetHost, Del, SetMethod, SetRequestURI; simpl; f_equal.
  all: apply map_eq; intros k; rewrite !lookup_delete.
  all: repeat case_decide; subst; congruence.
Qed.

Ltac stable := repeat match goal with
  | Hn : ¬ (_ ≠ _) |- _ => apply dec_stable in Hn; subst
  end.

Lemma AppendHeaders_request_line_aux remoteAddr h endStream :
  keys_distinct →
  Method (AppendHeaders remoteAddr h endStream) =
    match Get MosnHeaderMethod h with
    | Some method => method
    | None => if endStream then "GET"%string else "POST"%string
    end ∧
  RequestURI (AppendHeaders remoteAddr h endStream) =
    (let path := match Get MosnHeaderPathKey h with
                 | Some path => if decide (path = ""%string) then "/"%string else path
                 | None => "/"%string
                 end in
     match Get MosnHeaderQueryStringKey h with
     | Some queryString =>
         if decide (queryString = ""%string) then path
         else (path +:+ ("?" +:+ queryString))%string
     | None => path
     end) ∧
  Host (AppendHeaders remoteAddr h endStream) =
    match Get IstioHeaderHostKey h, Get MosnHeaderHostKey h with
    | Some host, _ => host
    | None, Some host => host
    | None, None => remoteAddr
    end ∧
  (Get MosnHeaderMethod (AppendHeaders remoteAddr h endStream) = None ∧
   Get MosnHeaderHostKey (AppendHeaders remoteAddr h endStream) = None ∧
   Get IstioHeaderHostKey (AppendHeaders remoteAddr h endStream) = None ∧
   Get MosnHeaderPathKey (AppendHeaders remoteAddr h endStream) =
     (if decide (Get MosnHeaderPathKey h = Some ""%string)
      then Some ""%string else None)).
Proof.
  intros Hd. rewrite (AppendHeaders_closed_form _ _ _ Hd).
  destruct (keys_ne Hd)
    as (Hhi & Hhm & Hhp & Hhq & Him & Hip & Hiq & Hmp & Hmq & Hpq).
  simpl. split; [by destruct (Get MosnHeaderMethod h)|]. split.
  { unfold uri_of, path_part.
    destruct (Get MosnHeaderQueryStringKey h) as [q|],
             (Get MosnHeaderPathKey h) as [path|]; simpl;
      repeat case_decide; done. }
  split; [by destruct (Get IstioHeaderHostKey h), (Get MosnHeaderHostKey h)|].
  unfold Get. simpl.
  destruct (kv h !! MosnHeaderPathKey) as [path|] eqn:Epath;
    [destruct (decide (path ≠ ""%string))|];
    (destruct (kv h !! MosnHeaderQueryStringKey) as [q|] eqn:Eq;
     [destruct (decide (q ≠ ""%string))|]); simpl;
    repeat split; rewrite ?lookup_delete; repeat case_decide; stable;
    try done; congruence.
Qed.

(** X20. The request line that goes upstream. The method is the one named by
    the method header, else GET for a request without body and POST for one
    with a body; the URI is the path header (or "/" when it is missing or
    empty) followed by "?" and the query header when that is present and not
    empty; the host is the authority header, else the host header, else the
    address of the upstream connection. *)
Theorem AppendHeaders_request_line (remoteAddr : string) (h : RequestHeader)
    (endStream : bool) :
  keys_distinct →
  Method (AppendHeaders remoteAddr h endStream) =
    match Get MosnHeaderMethod h with
    | Some method => method
    | None => if endStream then "GET"%string else "POST"%string
    end ∧
  RequestURI (AppendHeaders remoteAddr h endStream) =
    (let path := match Get MosnHeaderPathKey h with
                 | Some path => if decide (path = ""%string) then "/"%string else path
                 | None => "/"%string
                 end in
     match Get MosnHeaderQueryStringKey h with
     | Some queryString =>
         if decide (queryString = ""%string) then path
         else (path +:+ ("?" +:+ queryString))%string
     | None => path
     end) ∧
  Host (AppendHeaders remoteAddr h endStream) =
    match Get IstioHeaderHostKey h, Get MosnHeaderHostKey h with
    | Some host, _ => host
    | None, Some host => host
    | None, None => remoteAddr
    end.
Proof.
  intros Hd. rewrite (AppendHeaders_closed_form _ _ _ Hd). simpl.
  split; [by destruct (Get MosnHeaderMethod h)|]. split.
  - unfold uri_of, path_part.
    destruct (Get MosnHeaderQueryStringKey h) as [q|],
             (Get MosnHeaderPathKey h) as [path|]; simpl;
      repeat case_decide; done.
  - by destruct (Get IstioHeaderHostKey h), (Get MosnHeaderHostKey h).
Qed.

(** X21. What is stripped on the way out. The method, host and authority
    headers never reach the upstream request; the path and the query header
    are taken out when they were used, and stay, with their empty value,
    when they were present but empty; every other header is passed on as it
    is. *)
Theorem AppendHeaders_strips (remoteAddr : string) (h : RequestHeader)
    (endStream : bool) :
  keys_distinct →
  Get MosnHeaderMethod (AppendHeaders remoteAddr h endStream) = None ∧
  Get MosnHeaderHostKey (AppendHeaders remoteAddr h endStream) = None ∧
  Get IstioHeaderHostKey (AppendHeaders remoteAddr h endStream) = None ∧
  Get MosnHeaderPathKey (AppendHeaders remoteAddr h endStream) =
    (if decide (Get MosnHeaderPathKey h = Some ""%string)
     then Some ""%string else None) ∧
  Get MosnHeaderQueryStringKey (AppendHeaders remoteAddr h endStream) =
    (if decide (Get MosnHeaderQueryStringKey h = Some ""%string)
     then Some ""%string else None) ∧
  ∀ k, k ∉ [MosnHeaderHostKey; IstioHeaderHostKey; MosnHeaderMethod;
            MosnHeaderPathKey; MosnHeaderQueryStringKey] →
       Get k (AppendHeaders remoteAddr h endStream) = Get k h.
Proof.
  intros Hd. rewrite (AppendHeaders_closed_form _ _ _ Hd).
  destruct (keys_ne Hd)
    as (Hhi & Hhm & Hhp & Hhq & Him & Hip & Hiq & Hmp & Hmq & Hpq).
  unfold Get. simpl.
  destruct (kv h !! MosnHeaderPathKey) as [path|] eqn:Epath;
    [destruct (decide (path ≠ ""%string))|];
    (destruct (kv h !! MosnHeaderQueryStringKey) as [q|] eqn:Eq;
     [destruct (decide (q ≠ ""%string))|]); simpl;
    repeat split; rewrite ?lookup_delete; repeat case_decide; stable;
    try done; try congruence.
  all: intros k Hk; rewrite !not_elem_of_cons in Hk;
    destruct Hk as (? & ? & ? & ? & ? & _);
    rewrite ?lookup_delete; repeat case_decide; congruence.
Qed.

Lemma length_zero_empty (q : string) : String.length q = 0%nat ↔ q = ""%string.
Proof. by destruct q. Qed.

(** X22. Across the proxy the request line survives: the header that
    [handleRequest] builds from a decoded request, given to [AppendHeaders],
    yields the method of the request, its path and query string and its
    host, and none of the five internal names is left in the upstream
    header. The path must not be empty, and a request without query string
    must not carry the query header itself with a value. *)
Theorem request_line_across_proxy (remoteAddr : string) (uri : URI)
    (h : RequestHeader) (endStream : bool) :
  keys_distinct →
  uri_path uri ≠ ""%string →
  (uri_query uri = ""%string →
     Get MosnHeaderQueryStringKey h = None ∨
     Get MosnHeaderQueryStringKey h = Some ""%string) →
  Method (AppendHeaders remoteAddr (handleRequest uri h) endStream) = Method h ∧
  RequestURI (AppendHeaders remoteAddr (handleRequest uri h) endStream) =
    (if decide (uri_query uri = ""%string) then uri_path uri
     else (uri_path uri +:+ ("?" +:+ uri_query uri))%string) ∧
  Host (AppendHeaders remoteAddr (handleRequest uri h) endStream) = uri_host uri ∧
  Get MosnHeaderMethod (AppendHeaders remoteAddr (handleRequest uri h) endStream) = None ∧
  Get MosnHeaderHostKey (AppendHeaders remoteAddr (handleRequest uri h) endStream) = None ∧
  Get IstioHeaderHostKey (AppendHeaders remoteAddr (handleRequest uri h) endStream) = None ∧
  Get MosnHeaderPathKey (AppendHeaders remoteAddr (handleRequest uri h) endStream) = None.
Proof.
  intros Hd Hpath Hquery.
  destruct (keys_ne Hd)
    as (Hhi & Hhm & Hhp & Hhq & Him & Hip & Hiq & Hmp & Hmq & Hpq).
  assert (Get MosnHeaderMethod (handleRequest uri h) = Some (Method h) ∧
          Get MosnHeaderPathKey (handleRequest uri h) = Some (uri_path uri) ∧
          Get MosnHeaderHostKey (handleRequest uri h) = Some (uri_host uri) ∧
          Get IstioHeaderHostKey (handleRequest uri h) = Some (uri_host uri) ∧
          Get MosnHeaderQueryStringKey (handleRequest uri h) =
            (if decide (uri_query uri = ""%string)
             then Get MosnHeaderQueryStringKey h else Some (uri_query uri)))
    as (Gm & Gp & Gh & Gi & Gq).
  { unfold handleRequest, Get.
    destruct (Nat.ltb_spec 0 (String.length (uri_query uri))) as [Hlen|Hlen].
    - rewrite decide_False by (intros Heq; rewrite Heq in Hlen; simpl in Hlen; lia).
      simpl. repeat split; rewrite !lookup_insert; repeat case_decide; congruence.
    - rewrite decide_True by (apply length_zero_empty; lia).
      simpl. repeat split; rewrite !lookup_insert; repeat case_decide; congruence. }
  destruct (AppendHeaders_request_line_aux remoteAddr (handleRequest uri h) endStream Hd)
    as (Hm & Hu & Ho & Hk).
  rewrite Hm, Hu, Ho, Gm, Gp, Gh, Gi, Gq.
  rewrite decide_False by done.
  split; [done|]. split.
  - destruct (decide (uri_query uri = ""%string)) as [Hq|Hq].
    + destruct (Hquery Hq) as [-> | ->]; [done|]. by rewrite decide_True.
    + by rewrite decide_False.
  - split; [done|]. destruct Hk as (K1 & K2 & K3 & K4).
    rewrite K1, K2, K3, K4, Gp.
    rewrite decide_False by (intros [= ?]; done). done.
Qed.

End headers.

(** *** With the names in use *)

Definition mosnKeys : HeaderKeys := {|
  MosnHeaderHostKey := "x-mosn-host";
  IstioHeaderHostKey := "authority";
  MosnHeaderMethod := "x-mosn-method";
  MosnHeaderPathKey := "x-mosn-path";
  MosnHeaderQueryStringKey := "x-mosn-querystring"
|}.

Lemma mosnKeys_distinct : @keys_distinct mosnKeys.
Proof. apply (bool_decide_unpack _). reflexivity. Qed.

(** What the proxy hands on for PUT /a?x=1 with an extra header. *)
Definition put_headers : RequestHeader :=
  {| Method := ""; RequestURI := ""; Host := "";
     kv := {[ "x-mosn-method" := "PUT"; "x-mosn-path" := "/a";
              "x-mosn-querystring" := "x=1"; "accept" := "*/*" ]}%string |}.

Lemma AppendHeaders_request_line_witness :
  Method (@AppendHeaders mosnKeys "10.0.0.1:80" put_headers true) = "PUT"%string ∧
  RequestURI (@AppendHeaders mosnKeys "10.0.0.1:80" put_headers true) = "/a?x=1"%string ∧
  Host (@AppendHeaders mosnKeys "10.0.0.1:80" put_headers true) = "10.0.0.1:80"%string.
Proof.
  exact (@AppendHeaders_request_line mosnKeys "10.0.0.1:80" put_headers true
           mosnKeys_distinct).
Defined.

Lemma AppendHeaders_strips_witness :
  Get "x-mosn-method" (@AppendHeaders mosnKeys "10.0.0.1:80" put_headers true) = None ∧
  Get "accept" (@AppendHeaders mosnKeys "10.0.0.1:80" put_headers true) = Some "*/*"%string.
Proof.
  destruct (@AppendHeaders_strips mosnKeys "10.0.0.1:80" put_headers true
              mosnKeys_distinct) as (Hm & _ & _ & _ & _ & Hother).
  split; [exact Hm|].
  apply (Hother "accept"%string).
  apply (bool_decide_unpack _). reflexivity.
Defined.

Definition put_uri : URI :=
  {| uri_host := "svc.local"; uri_path := "/a"; uri_query := "x=1" |}.

Definition decoded_put : RequestHeader :=
  {| Method := "PUT"; RequestURI := "/a?x=1"; Host := "svc.local";
     kv := {[ "accept" := "*/*" ]}%string |}.

Lemma request_line_across_proxy_witness :
  Method (@AppendHeaders mosnKeys "10.0.0.1:80"
            (@handleRequest mosnKeys put_uri decoded_put) false) = "PUT"%string ∧
  RequestURI (@AppendHeaders mosnKeys "10.0.0.1:80"
            (@handleRequest mosnKeys put_uri decoded_put) false) = "/a?x=1"%string ∧
  Host (@AppendHeaders mosnKeys "10.0.0.1:80"
            (@handleRequest mosnKeys put_uri decoded_put) false) = "svc.local"%string.
Proof.
  destruct (@request_line_across_proxy mosnKeys "10.0.0.1:80" put_uri decoded_put
              false mosnKeys_distinct) as (Hm & Hu & Hh & _).
  - discriminate.
  - discriminate.
  - split; [exact Hm|]. split; [exact Hu | exact Hh].
Defined.

End HttpHeaders.

(* ===================================================================== *)
(** ** Cluster entries of the configuration *)
(* ===================================================================== *)

Module ConfigManager.

Section clusters.
(** [v2.Cluster] is declared outside the files at hand; of a cluster the
    code reads the [Name] only. *)
Context {Cluster : Type} (Name : Cluster → string).

(** The inner loop of [addOrUpdateClusterConfig]: the first cluster with the
    name of [clusterConfig] is overwritten; [None] when there is none
    ([exist] stays false). *)
Fixpoint rewrite_cluster (clusterConfig : Cluster) (clusters : list Cluster)
  : option (list Cluster) :=
  match clusters with
  | [] => None
  | c :: rest =>
      if decide (Name c = Name clusterConfig) then Some (clusterConfig :: rest)
      else (c ::.) <$> rewrite_cluster clusterConfig rest
  end.

(** [addOrUpdateClusterConfig] on [config.ClusterManager.Clusters]. *)
Definition addOrUpdateClusterConfig (clusters : list Cluster)
    (configured : list Cluster) : list Cluster :=
  foldl (λ configured clusterConfig,
           match rewrite_cluster clusterConfig configured with
           | Some configured' => configured'
           | None => configured ++ [clusterConfig]
           end)
        configured clusters.

(** The inner loop of [removeClusterConfig]: the first cluster named
    [clusterName] is cut out; [None] when there is none. *)
Fixpoint cut_cluster (clusterName : string) (clusters : list Cluster)
  : option (list Cluster) :=
  match clusters with
  | [] => None
  | c :: rest =>
      if decide (Name c = clusterName) then Some rest
      else (c ::.) <$> cut_cluster clusterName rest
  end.

(** [removeClusterConfig]: the clusters left and the [dirty] flag. *)
Definition removeClusterConfig (clusterNames : list string)
    (configured : list Cluster) : list Cluster * bool :=
  foldl (λ '(configured, dirty) clusterName,
           match cut_cluster clusterName configured with
           | Some configured' => (configured', true)
           | None => (configured, dirty)
           end)
        (configured, false) clusterNames.

(** The cluster that a search by name finds: the first with that name. *)
Definition find_cluster (name : string) (clusters : list Cluster)
  : option Cluster :=
  head (filter (λ c, Name c = name) clusters).

(** One turn of the outer loop of [addOrUpdateClusterConfig]. *)
Local Abbreviation upsert c l :=
  (match rewrite_cluster c l with
   | Some configured' => configured'
   | None => l ++ [c]
   end).

Lemma rewrite_cluster_names c l l' :
  rewrite_cluster c l = Some l' → Name <$> l' = Name <$> l.
Proof.
  revert l'. induction l as [|x l IH]; intros l'; simpl; [done|].
  destruct (decide (Name x = Name c)) as [Heq|Hne].
  - intros [= <-]. simpl. by rewrite Heq.
  - destruct (rewrite_cluster c l) as [l0|]; [|done].
    intros [= <-]. rewrite !fmap_cons. by rewrite (IH l0).
Qed.

Lemma rewrite_cluster_None c l :
  rewrite_cluster c l = None ↔ Name c ∉ Name <$> l.
Proof.
  induction l as [|x l IH]; simpl.
  - split; [intros _; apply not_elem_of_nil | done].
  - rewrite not_elem_of_cons. destruct (decide (Name x = Name c)) as [Heq|Hne].
    + split; [done | intros [Hn _]; by destruct Hn].
    + destruct (rewrite_cluster c l) as [l0|]; simpl.
      * split; [done|]. intros [_ Hn]. apply IH in Hn. done.
      * split; [|done]. intros _. split; [done|]. by apply IH.
Qed.

Lemma find_cluster_cons n x l :
  find_cluster n (x :: l) =
    if decide (Name x = n) then Some x else find_cluster n l.
Proof.
  unfold find_cluster. rewrite filter_cons.
  by destruct (decide (Name x = n)).
Qed.

Lemma find_cluster_None n l :
  n ∉ Name <$> l → find_cluster n l = None.
Proof.
  induction l as [|x l IH]; [done|]. simpl. rewrite not_elem_of_cons.
  intros [Hne Hl]. rewrite find_cluster_cons.
  rewrite decide_False by done. by apply IH.
Qed.

Lemma find_cluster_app_new n c l :
  Name c ∉ Name <$> l →
  find_cluster n (l ++ [c]) =
    if decide (Name c = n) then Some c else find_cluster n l.
Proof.
  induction l as [|x l IH]; simpl.
  - intros _. rewrite find_cluster_cons. by destruct (decide (Name c = n)).
  - rewrite not_elem_of_cons. intros [Hne Hl]. rewrite !find_cluster_cons.
    destruct (decide (Name x = n)) as [Hx|Hx].
    + rewrite decide_False; [done|]. intros Hc. apply Hne. congruence.
    + by apply IH.
Qed.

Lemma find_cluster_upsert n c l :
  find_cluster n (upsert c l) =
    if decide (Name c = n) then Some c else find_cluster n l.
Proof.
  destruct (rewrite_cluster c l) as [l'|] eqn:Hrw.
  - revert l' Hrw. induction l as [|x l IH]; intros l'; simpl; [done|].
    destruct (decide (Name x = Name c)) as [Heq|Hne].
    + intros [= <-]. rewrite !find_cluster_cons.
      destruct (decide (Name c = n)) as [Hc|Hc]; [done|].
      rewrite decide_False; [done | congruence].
    + destruct (rewrite_cluster c l) as [l0|]; [|done].
      intros [= <-]. rewrite !find_cluster_cons.
      destruct (decide (Name x = n)) as [Hx|Hx].
      * rewrite decide_False; [done | congruence].
      * by apply IH.
  - apply find_cluster_app_new. by apply rewrite_cluster_None.
Qed.

(** X23. After [addOrUpdateClusterConfig] a search by name finds the
    configuration given last for that name in the call, and for a name that
    the call does not mention the cluster that was found before. *)
Theorem addOrUpdateClusterConfig_find (clusters configured : list Cluster)
    (name : string) :
  find_cluster name (addOrUpdateClusterConfig clusters configured) =
    match last (filter (λ c, Name c = name) clusters) with
    | Some c => Some c
    | None => find_cluster name configured
    end.
Proof.
  revert configured. induction clusters as [|c cs IH]; intros configured; [done|].
  unfold addOrUpdateClusterConfig in *. simpl. rewrite IH.
  rewrite find_cluster_upsert, filter_cons.
  destruct (decide (Name c = name)) as [Hc|Hc]; [|done].
  destruct (filter _ cs) as [|y ys] eqn:Hf; [reflexivity|].
  rewrite (last_cons c). by destruct (last (y :: ys)).
Qed.

Lemma upsert_names c l :
  Name <$> upsert c l =
    if decide (Name c ∈ Name <$> l) then Name <$> l
    else (Name <$> l) ++ [Name c].
Proof.
  destruct (rewrite_cluster c l) as [l'|] eqn:Hrw.
  - rewrite decide_True.
    + by apply rewrite_cluster_names in Hrw.
    + destruct (decide (Name c ∈ Name <$> l)) as [|Hn]; [done|].
      apply rewrite_cluster_None in Hn. congruence.
  - apply rewrite_cluster_None in Hrw. rewrite decide_False by done.
    by rewrite fmap_app.
Qed.

(** X24. [addOrUpdateClusterConfig] keeps the names of the configuration unique
    and the clusters that were there in their places: new names are added
    at the end, whatever the call repeats. *)
Theorem addOrUpdateClusterConfig_names (clusters configured : list Cluster) :
  NoDup (Name <$> configured) →
  NoDup (Name <$> addOrUpdateClusterConfig clusters configured) ∧
  (Name <$> configured) `prefix_of`
    (Name <$> addOrUpdateClusterConfig clusters configured) ∧
  ∀ c, c ∈ clusters →
       Name c ∈ Name <$> addOrUpdateClusterConfig clusters configured.
Proof.
  revert configured. induction clusters as [|c cs IH]; intros configured Hnd.
  - split; [done|]. split; [done|]. intros c Hc. by apply elem_of_nil in Hc.
  - unfold addOrUpdateClusterConfig in *. simpl.
    pose proof (upsert_names c configured) as Hnames.
    assert (NoDup (Name <$> upsert c configured)) as Hnd'.
    { rewrite Hnames. case_decide; [done|].
      apply NoDup_app. split; [done|]. split; [|apply NoDup_singleton].
      intros x Hx ->%list_elem_of_singleton. done. }
    assert ((Name <$> configured) `prefix_of` (Name <$> upsert c configured)) as Hpre.
    { rewrite Hnames. case_decide; [done|]. by apply prefix_app_r. }
    assert (Name c ∈ Name <$> upsert c configured) as Hin.
    { rewrite Hnames. case_decide; [done|]. apply elem_of_app. right.
      by apply list_elem_of_singleton. }
    destruct (IH (upsert c configured) Hnd') as (Hnd2 & Hpre2 & Hin2).
    split; [done|]. split; [by etrans|].
    intros c' [->|Hc']%elem_of_cons; [|by apply Hin2].
    destruct Hpre2 as [k Hk]. rewrite Hk. apply elem_of_app. by left.
Qed.

Lemma cut_cluster_None n l : cut_cluster n l = None ↔ n ∉ Name <$> l.
Proof.
  induction l as [|x l IH]; simpl.
  - split; [intros _; apply not_elem_of_nil | done].
  - rewrite not_elem_of_cons. destruct (decide (Name x = n)) as [Heq|Hne].
    + split; [done | intros [Hn _]; by destruct Hn].
    + destruct (cut_cluster n l) as [l0|]; simpl.
      * split; [done|]. intros [_ Hn]. apply IH in Hn. done.
      * split; [|done]. intros _. split; [congruence|]. by apply IH.
Qed.

Lemma filter_absent (n : string) (l : list Cluster) :
  n ∉ Name <$> l → filter (λ c, Name c ≠ n) l = l.
Proof.
  induction l as [|x l IH]; [done|]. simpl. rewrite not_elem_of_cons.
  intros [Hne Hl]. rewrite filter_cons.
  rewrite decide_True by congruence. by rewrite IH.
Qed.

Lemma cut_cluster_filter (n : string) (l : list Cluster) :
  NoDup (Name <$> l) →
  default l (cut_cluster n l) = filter (λ c, Name c ≠ n) l.
Proof.
  induction l as [|x l IH]; [done|]. simpl. intros [Hx Hnd]%NoDup_cons.
  rewrite filter_cons. destruct (decide (Name x = n)) as [Heq|Hne].
  - rewrite decide_False by (intros Hn; by apply Hn). simpl.
    symmetry. apply filter_absent. by rewrite <- Heq.
  - rewrite decide_True by done.
    specialize (IH Hnd). destruct (cut_cluster n l) as [l0|]; simpl in *;
      f_equal; exact IH.
Qed.

Lemma removeClusterConfig_fold (names : list string) (l : list Cluster)
    (dirty : bool) :
  NoDup (Name <$> l) →
  foldl (λ '(configured, dirty) clusterName,
           match cut_cluster clusterName configured with
           | Some configured' => (configured', true)
           | None => (configured, dirty)
           end) (l, dirty) names =
  (filter (λ c, Name c ∉ names) l,
   dirty || bool_decide (Exists (λ n, n ∈ Name <$> l) names)).
Proof.
  revert l dirty. induction names as [|n names IH]; intros l dirty Hnd.
  - cbn [foldl]. f_equal.
    + symmetry. clear Hnd. induction l as [|x l IHl]; [done|].
      rewrite filter_cons. rewrite decide_True by apply not_elem_of_nil.
      by f_equal.
    + rewrite bool_decide_eq_false_2; [by rewrite orb_false_r|].
      intros He. by apply Exists_nil in He.
  - cbn [foldl]. pose proof (cut_cluster_filter n l Hnd) as Hcut.
    assert (NoDup (Name <$> filter (λ c, Name c ≠ n) l)) as Hnd'.
    { eapply sublist_NoDup; [exact Hnd|]. apply fmap_sublist, sublist_filter. }
    assert (filter (λ c, Name c ∉ names) (filter (λ c, Name c ≠ n) l)
            = filter (λ c, Name c ∉ n :: names) l) as Hff.
    { clear. induction l as [|x l IHl]; [done|].
      rewrite !filter_cons. destruct (decide (Name x ≠ n)) as [Hne|Heq].
      - rewrite filter_cons.
        destruct (decide (Name x ∉ names)) as [Hn|Hn].
        + rewrite decide_True by (apply not_elem_of_cons; done). by rewrite IHl.
        + rewrite decide_False; [done|]. rewrite not_elem_of_cons. tauto.
      - rewrite decide_False; [done|]. rewrite not_elem_of_cons. tauto. }
    destruct (cut_cluster n l) as [l0|] eqn:Hc; simpl in Hcut.
    + rewrite IH by (by rewrite Hcut). rewrite Hcut, Hff. f_equal.
      rewrite orb_true_l. symmetry. rewrite orb_comm.
      rewrite bool_decide_eq_true_2; [done|].
      apply Exists_cons. left.
      destruct (decide (n ∈ Name <$> l)) as [|Hn]; [done|].
      apply cut_cluster_None in Hn. congruence.
    + apply cut_cluster_None in Hc. rewrite IH by done.
      rewrite <- Hff, <- Hcut. f_equal. f_equal.
      apply bool_decide_ext. rewrite Exists_cons. tauto.
Qed.

(** X25. [removeClusterConfig] on a configuration with unique names leaves
    exactly the clusters whose names are not in the call, in their order,
    and reports a change exactly when one of the names was there. *)
Theorem removeClusterConfig_spec (clusterNames : list string)
    (configured : list Cluster) :
  NoDup (Name <$> configured) →
  (removeClusterConfig clusterNames configured).1 =
    filter (λ c, Name c ∉ clusterNames) configured ∧
  ((removeClusterConfig clusterNames configured).2 = true ↔
   ∃ n, n ∈ clusterNames ∧ n ∈ Name <$> configured).
Proof.
  intros Hnd. unfold removeClusterConfig.
  rewrite (removeClusterConfig_fold _ _ _ Hnd). simpl. split; [done|].
  rewrite bool_decide_eq_true, Exists_exists. done.
Qed.

Lemma cut_cluster_app_new c l :
  Name c ∉ Name <$> l → cut_cluster (Name c) (l ++ [c]) = Some l.
Proof.
  induction l as [|x l IH]; simpl.
  - intros _. by rewrite decide_True.
  - rewrite not_elem_of_cons. intros [Hne Hl].
    rewrite decide_False by congruence. by rewrite IH.
Qed.

(** X26. A cluster that is added under a new name and removed again leaves the
    configuration as it was, and the removal reports a change. *)
Theorem add_then_remove (c : Cluster) (configured : list Cluster) :
  Name c ∉ Name <$> configured →
  removeClusterConfig [Name c]
    (addOrUpdateClusterConfig [c] configured) = (configured, true).
Proof.
  intros Hnew. unfold addOrUpdateClusterConfig, removeClusterConfig. simpl.
  assert (rewrite_cluster c configured = None) as -> by (by apply rewrite_cluster_None).
  by rewrite cut_cluster_app_new.
Qed.

End clusters.

(** A configuration of two clusters; a cluster is its name and, for the
    rest of its settings, a number. *)
Definition two_clusters : list (string * nat) := [("a", 1%nat); ("b", 2%nat)].

Lemma addOrUpdateClusterConfig_names_witness :
  NoDup (fst <$> addOrUpdateClusterConfig fst
                   [("b", 5%nat); ("c", 3%nat); ("c", 4%nat)] two_clusters).
Proof.
  refine (proj1 (addOrUpdateClusterConfig_names fst _ two_clusters _)).
  apply (bool_decide_unpack _). reflexivity.
Defined.

Lemma removeClusterConfig_spec_witness :
  (removeClusterConfig fst ["b"; "z"] two_clusters).1 =
    filter (λ c, fst c ∉ ["b"; "z"]) two_clusters.
Proof.
  refine (proj1 (removeClusterConfig_spec fst ["b"; "z"] two_clusters _)).
  apply (bool_decide_unpack _). reflexivity.
Defined.

Lemma add_then_remove_witness :
  removeClusterConfig fst ["c"]
    (addOrUpdateClusterConfig fst [("c", 3%nat)] two_clusters)
  = (two_clusters, true).
Proof.
  refine (add_then_remove fst ("c", 3%nat) two_clusters _).
  apply (bool_decide_unpack _). reflexivity.
Defined.

End ConfigManager.
